(** * Shannon-Fano coder (src/main.cpp): shallow embedding and properties

    The development follows the source file top to bottom:
    - [F32]: the C [float] (IEEE binary32, round to nearest even), built on
      the Standard Library's executable specification [SpecFloat];
    - [CharMap]: [std::map<char, V>], iterated in key order;
    - [pnode], [pnode_compare], [EncShannon], [Encode], [Decode], [main];
    - the properties of the builder, the encoder and the decoder: first
      the lemmas, then the claims of the specification (C1 to C10), then
      further properties of the code (X1 to X30). *)

From Stdlib Require Import ZArith Ascii String List Bool Lia.
From Stdlib Require Import Permutation Sorted.
From Stdlib Require Import Floats.SpecFloat.
Import ListNotations.

Local Open Scope Z_scope.

(** ** C scalar types *)

(** [unsigned total; total++] wraps modulo 2^32. *)
Definition uint_wrap (z : Z) : Z := z mod 2 ^ 32.

(** [int] values, as two's complement 32-bit integers ([freqs[ch]++]). *)
Definition int_wrap (z : Z) : Z := (z + 2 ^ 31) mod 2 ^ 32 - 2 ^ 31.

(** ** The C [float]: IEEE binary32 *)

Module F32.

Definition prec : Z := 24.
Definition emax : Z := 128.

Definition float : Type := spec_float.

(** [float(n)] for an integer [n]. *)
Definition of_Z (z : Z) : float := binary_normalize prec emax z 0 false.

Definition zero : float := S754_zero false.

(** The literal [0.5f], that is 2^23 * 2^-24. *)
Definition half : float := S754_finite false 8388608 (-24).

Definition add : float -> float -> float := SFadd prec emax.
Definition mul : float -> float -> float := SFmul prec emax.
Definition div : float -> float -> float := SFdiv prec emax.
Definition ltb : float -> float -> bool := SFltb.
Definition gtb (x y : float) : bool :=
  match SFcompare x y with Some Gt => true | _ => false end.
Definition leb : float -> float -> bool := SFleb.

Definition is_nan (x : float) : bool :=
  match x with S754_nan => true | _ => false end.

End F32.

Abbreviation float := F32.float.

(** ** [char] and C strings *)

(** [char] is a signed byte on the platforms the program targets; this is
    the order [std::map<char, _>] keeps its keys in. *)
Definition schar (c : ascii) : Z :=
  let n := Z.of_N (N_of_ascii c) in
  if n <? 128 then n else n - 256.

(** The 256 [char] values in increasing (signed) order: -128 .. -1, 0 .. 127. *)
Definition all_chars : list ascii :=
  map (fun n => ascii_of_N (N.of_nat n)) (seq 128 128 ++ seq 0 128).

(** A C string is the sequence of characters before the first NUL. *)
Definition cstring : Type := list ascii.

Fixpoint c_str (s : list ascii) : cstring :=
  match s with
  | [] => []
  | c :: s' => if Ascii.eqb c zero then [] else c :: c_str s'
  end.

Fixpoint cstring_eqb (a b : cstring) : bool :=
  match a, b with
  | [], [] => true
  | x :: a', y :: b' => Ascii.eqb x y && cstring_eqb a' b'
  | _, _ => false
  end.

(** [!strcmp(a.c_str(), b.c_str())] *)
Definition strcmp_eq (a b : list ascii) : bool :=
  cstring_eqb (c_str a) (c_str b).

(** The characters of a string literal. *)
Definition chars (s : string) : list ascii := list_ascii_of_string s.

Definition bit0 : ascii := "0"%char.
Definition bit1 : ascii := "1"%char.

(** ** [std::map<char, V>] *)

Module CharMap.

Definition t (V : Type) : Type := ascii -> option V.

Definition empty {V} : t V := fun _ => None.

Definition find {V} (m : t V) (c : ascii) : option V := m c.

(** [m[c] = v] *)
Definition set {V} (c : ascii) (v : V) (m : t V) : t V :=
  fun x => if Ascii.eqb x c then Some v else m x.

(** The value read by [m[c]]: a missing key reads as the
    default-constructed value [d]. *)
Definition get {V} (d : V) (m : t V) (c : ascii) : V :=
  match m c with Some v => v | None => d end.

(** Iteration from [begin()] to [end()]: entries in key order. *)
Definition elements {V} (m : t V) : list (ascii * V) :=
  flat_map (fun c => match m c with Some v => [(c, v)] | None => [] end)
           all_chars.

Definition size {V} (m : t V) : Z := Z.of_nat (length (elements m)).

End CharMap.

(** [map<char, string> codes] *)
Definition codes_t : Type := CharMap.t cstring.

(** [codes[c]] *)
Definition code_of (codes : codes_t) (c : ascii) : cstring :=
  CharMap.get [] codes c.

(** [codes[c] += b] *)
Definition append_bit (c : ascii) (b : ascii) (codes : codes_t) : codes_t :=
  CharMap.set c (code_of codes c ++ [b]) codes.

(** ** The probability table *)

Record pnode : Type := { ch : ascii; p : float }.

Definition pnode_compare (a b : pnode) : Z :=
  if F32.ltb (p a) (p b) then 1
  else if F32.gtb (p a) (p b) then -1
  else 0.

(** ** [Coder::EncShannon] *)

Section Builder.

(** [pnode *ptable] with its [tsize] entries. *)
Variable ptable : list pnode.

Definition tsize : Z := Z.of_nat (length ptable).

(** [ptable[i]] *)
Definition ptable_at (i : Z) : pnode :=
  nth (Z.to_nat i) ptable {| ch := zero; p := F32.zero |}.

(** Number of iterations of [for( i=li; i<=ri; ++i )]. *)
Definition iterations (li ri : Z) : nat := Z.to_nat (ri - li + 1).

(** [for( i=li; i<=ri; ++i ) pfull += ptable[i].p;] with [n] iterations
    left, the next one at index [i]. *)
Fixpoint sum_loop (n : nat) (i : Z) (pfull : float) : float :=
  match n with
  | O => pfull
  | S n' => sum_loop n' (i + 1) (F32.add pfull (p (ptable_at i)))
  end.

(** The second loop of the general case: the running sum [psum] (the
    source's [p]), the split index [isp] and the code table. *)
Fixpoint scan_loop (phalf : float) (n : nat) (i : Z)
         (psum : float) (isp : Z) (codes : codes_t) : codes_t * Z :=
  match n with
  | O => (codes, isp)
  | S n' =>
      let psum' := F32.add psum (p (ptable_at i)) in
      if F32.leb psum' phalf
      then scan_loop phalf n' (i + 1) psum' isp
                     (append_bit (ch (ptable_at i)) bit0 codes)
      else scan_loop phalf n' (i + 1) psum'
                     (if isp <? 0 then i else isp)
                     (append_bit (ch (ptable_at i)) bit1 codes)
  end.

(** The general case up to the recursive calls: the codes after the scan
    and the split position, with the fallback [isp = li+1]. *)
Definition split_range (li ri : Z) (codes : codes_t) : codes_t * Z :=
  let pfull := sum_loop (iterations li ri) li F32.zero in
  let phalf := F32.mul pfull F32.half in
  let '(codes', isp) :=
    scan_loop phalf (iterations li ri) li F32.zero (-1) codes in
  (codes', if isp <? 0 then li + 1 else isp).

(** [None] is a call tree deeper than [fuel]. *)
Fixpoint EncShannon (fuel : nat) (li ri : Z) (codes : codes_t)
  : option codes_t :=
  match fuel with
  | O => None
  | S fuel' =>
      if li =? ri then Some codes
      else if ri - li =? 1 then
        Some (append_bit (ch (ptable_at ri)) bit1
                (append_bit (ch (ptable_at li)) bit0 codes))
      else
        let '(codes', isp) := split_range li ri codes in
        match EncShannon fuel' li (isp - 1) codes' with
        | None => None
        | Some codes'' => EncShannon fuel' isp ri codes''
        end
  end.

End Builder.

(** ** [Coder::Encode] *)

(** The artifact written by [Encode] and read by [Decode]: the table size,
    one row per table entry (symbol, probability, codeword), and the
    characters after the blank line.  The text layout of the file (the
    [fprintf] and [fscanf] formats) is not modelled: the artifact is
    the data that the formats carry. *)
Record artifact : Type := {
  a_tsize : Z;
  a_rows : list (ascii * float * cstring);
  a_bits : list ascii
}.

(** The counting loop: [freqs[ch]++; total++;] for each character read. *)
Definition count_chars (input : list ascii) : CharMap.t Z * Z :=
  fold_left
    (fun '(freqs, total) c =>
       (CharMap.set c (int_wrap (CharMap.get 0 freqs c + 1)) freqs,
        uint_wrap (total + 1)))
    input (CharMap.empty, 0).

(** The table before sorting: one entry per key of [freqs], in key order. *)
Definition build_ptable (freqs : CharMap.t Z) (total : Z) : list pnode :=
  let ftot := F32.of_Z total in
  map (fun '(c, n) => {| ch := c; p := F32.div (F32.of_Z n) ftot |})
      (CharMap.elements freqs).

Section Encoder.

(** [qsort( ptable, tsize, sizeof(pnode), pnode_compare )]: the C library
    sort, known by its contract only. *)
Variable qsort : list pnode -> list pnode.

(** [ptable] after the sort. *)
Definition sorted_ptable (input : list ascii) : list pnode :=
  let '(freqs, total) := count_chars input in
  qsort (build_ptable freqs total).

Definition Encode (fuel : nat) (input : list ascii) : option artifact :=
  let '(freqs, _) := count_chars input in
  let tsize := CharMap.size freqs in
  let ptable := sorted_ptable input in
  match EncShannon ptable fuel 0 (tsize - 1) CharMap.empty with
  | None => None
  | Some codes =>
      Some {| a_tsize := tsize;
              a_rows := map (fun nd => (ch nd, p nd, code_of codes (ch nd)))
                            (firstn (Z.to_nat tsize) ptable);
              a_bits := flat_map (code_of codes) input |}
  end.

End Encoder.

(** ** [Coder::Decode] *)

(** [codes[ch] = code;] for each of the rows read; [code] is a C string.
    The rows are taken as [fscanf( "%f %s" )] reads back the rows that
    [Encode] writes for a table of two symbols or more: codewords that
    are non-empty, without white space, and fit [char code[128]]. *)
Definition load_codes (rows : list (ascii * float * cstring)) : codes_t :=
  fold_left (fun codes '(c, _, code) => CharMap.set c (c_str code) codes)
            rows CharMap.empty.

(** The [for( ci=codes.begin(); ci!=codes.end(); ++ci )] loop over the
    remaining entries: the accumulator and the characters written. *)
Fixpoint match_loop (entries : list (ascii * cstring)) (accum : list ascii)
  : list ascii * list ascii :=
  match entries with
  | [] => (accum, [])
  | (c, code) :: rest =>
      if strcmp_eq code accum
      then let '(accum', out) := match_loop rest [] in (accum', c :: out)
      else match_loop rest accum
  end.

(** One iteration of the [while] loop, for the character [c] just read. *)
Definition decode_step (codes : codes_t) (accum : list ascii) (c : ascii)
  : list ascii * list ascii :=
  match_loop (CharMap.elements codes) (accum ++ [c]).

(** The value of [ch] for which [(ch = fgetc(inputFile)) != EOF] is
    false although the file has not ended: [fgetc] returns the byte 0xFF
    as 255, the assignment to the (signed) [char ch] makes it -1, and -1
    is [EOF]. *)
Definition eof_char : ascii := ascii_of_N 255.

(** The [while((ch = fgetc(inputFile)) != EOF)] loop over the rest [bits]
    of the file: it ends at the end of the file, or at the first byte
    0xFF. *)
Fixpoint decode_loop (codes : codes_t) (bits : list ascii)
         (accum : list ascii) : list ascii * list ascii :=
  match bits with
  | [] => (accum, [])
  | c :: rest =>
      if Ascii.eqb c eof_char then (accum, [])
      else
        let '(accum', out) := decode_step codes accum c in
        let '(accum'', out') := decode_loop codes rest accum' in
        (accum'', out ++ out')
  end.

(** The characters written to the output file.  The rows of the
    artifact are the [tsize] rows that the loading loop reads. *)
Definition Decode (art : artifact) : list ascii :=
  snd (decode_loop (load_codes (a_rows art)) (a_bits art) []).

(** ** [main] and [show_usage] *)

(** What [main] goes on to do once the command line is read:
    [show_usage()], which prints the help text and calls [exit(0)], or
    one call of the coder. *)
Inductive action : Type :=
| ShowUsage
| RunEncode (inputFilename outputFilename : cstring)
| RunDecode (inputFilename outputFilename : cstring).

(** [strcpy( buffer, s )] into a [char buffer[128]]: the characters of
    the C string and its final NUL have to fit.  [None] is a write past
    the end of the buffer. *)
Definition strcpy128 (s : list ascii) : option cstring :=
  if (length (c_str s) <? 128)%nat then Some (c_str s) else None.

(** [main( argc, argv )], with [argv] the [argc] strings of the command
    line ([argv[0]] is the program name).  [None] is undefined
    behaviour: a file name that does not fit its buffer, or [argc = 0],
    where [argv[1]] lies outside the array. *)
Definition main (argv : list (list ascii)) : option action :=
  let argc := Z.of_nat (length argv) in
  let argv_at (i : Z) := nth (Z.to_nat i) argv [] in
  let i := 1 in
  if argc <? 1 then None
  else if i =? argc then Some ShowUsage
  else
    let dFlag := strcmp_eq (argv_at i) (chars "-d") in
    let i := if dFlag then i + 1 else i in
    if dFlag && (i =? argc) then Some ShowUsage
    else
      match strcpy128 (argv_at i) with
      | None => None
      | Some inputFilename =>
          let i := i + 1 in
          match (if i <? argc then strcpy128 (argv_at i)
                 else if dFlag then strcpy128 (chars "decoded.txt")
                 else strcpy128 (chars "encoded.txt")) with
          | None => None
          | Some outputFilename =>
              Some (if dFlag then RunDecode inputFilename outputFilename
                    else RunEncode inputFilename outputFilename)
          end
      end.

(** ** The contract of [qsort] *)

(** The array is permuted, and afterwards the comparison function never
    reports a later element as smaller than an earlier one.  The C
    standard promises this for a consistent comparison function, which
    [pnode_compare] is on tables without NaN. *)
Record qsort_contract (qsort : list pnode -> list pnode) : Prop := {
  qsort_perm : forall l, Permutation l (qsort l);
  qsort_sorted :
    forall l, (forall x, In x l -> F32.is_nan (p x) = false) ->
              StronglySorted (fun a b => pnode_compare a b <= 0) (qsort l)
}.

(** Insertion sort driven by [pnode_compare]: an implementation of the
    contract, used to run the model on concrete inputs. *)
Fixpoint insert_pnode (x : pnode) (l : list pnode) : list pnode :=
  match l with
  | [] => [x]
  | y :: l' => if pnode_compare x y <=? 0 then x :: l
               else y :: insert_pnode x l'
  end.

Definition insertion_sort (l : list pnode) : list pnode :=
  fold_right insert_pnode [] l.

(** ** Vocabulary of the properties *)

(** The number of distinct symbols of the input. *)
Definition alphabet_size (input : list ascii) : Z :=
  CharMap.size (fst (count_chars input)).

(** [a] is a prefix of [b] (possibly [b] itself). *)
Definition prefix (a b : list ascii) : Prop := exists s, b = a ++ s.

Definition proper_prefix (a b : list ascii) : Prop :=
  exists s, s <> [] /\ b = a ++ s.

Definition is_bit (c : ascii) : Prop := c = bit0 \/ c = bit1.

(** [x >= y] on floats. *)
Definition F32_geb (x y : float) : bool :=
  match SFcompare x y with Some (Gt | Eq) => true | _ => false end.

(** A non-empty C string: at least one character, none of them NUL. *)
Definition codeword_ok (w : cstring) : Prop := w <> [] /\ ~ In zero w.

(** Every codeword of the table is a non-empty C string. *)
Definition codewords_ok (codes : codes_t) : Prop :=
  forall c w, CharMap.find codes c = Some w -> codeword_ok w.

(** No codeword of one symbol is a prefix of the codeword of another. *)
Definition prefix_free (codes : codes_t) : Prop :=
  forall c1 c2 w1 w2,
    CharMap.find codes c1 = Some w1 -> CharMap.find codes c2 = Some w2 ->
    c1 <> c2 -> ~ prefix w1 w2.

(** The codeword an artifact's table gives to a symbol. *)
Definition codeword (art : artifact) (c : ascii) : option cstring :=
  CharMap.find (load_codes (a_rows art)) c.

Section Scan.

Variable ptable : list pnode.

(** The running sum of the scan of [li..ri] after element [k] is added. *)
Definition running (li k : Z) : float :=
  sum_loop ptable (iterations li k) li F32.zero.

(** The bit the scan of [li..ri] gives to element [k]: [true] is '1'. *)
Definition scan_bit (li ri k : Z) : bool :=
  negb (F32.leb (running li k) (F32.mul (running li ri) F32.half)).

(** What float addition of positive numbers gives a scan: once the running
    sum is above half of the total it stays above, and the total itself is
    above its half. *)
Definition regular_range (li ri : Z) : Prop :=
  (forall k, li <= k < ri ->
             scan_bit li ri k = true -> scan_bit li ri (k + 1) = true)
  /\ scan_bit li ri ri = true.

Definition regular : Prop :=
  forall li ri, 0 <= li -> li + 2 <= ri -> ri < tsize ptable ->
                regular_range li ri.

End Scan.

(** ** Order of floats, for the proofs *)

(** A rank that orders the floats other than NaN: class, then exponent,
    then mantissa. *)
Definition float_rank (x : float) : Z * Z * Z :=
  match x with
  | S754_zero _ => (0, 0, 0)
  | S754_nan => (0, 0, 0)
  | S754_infinity false => (2, 0, 0)
  | S754_infinity true => (-2, 0, 0)
  | S754_finite false m e => (1, e, Zpos m)
  | S754_finite true m e => (-1, - e, Zneg m)
  end.

Definition rank_lt (a b : Z * Z * Z) : Prop :=
  let '(a1, a2, a3) := a in
  let '(b1, b2, b3) := b in
  a1 < b1 \/ (a1 = b1 /\ (a2 < b2 \/ (a2 = b2 /\ a3 < b3))).


(** The character of a scan bit. *)
Definition bit_char (b : bool) : ascii := if b then bit1 else bit0.

(** No codeword of the table compares equal to [accum]. *)
Definition unmatched (codes : codes_t) (accum : list ascii) : Prop :=
  forall c w, CharMap.find codes c = Some w -> strcmp_eq w accum = false.

(** No row's codeword is a prefix of the codeword of a row for another
    symbol; in particular none is a proper prefix of another. *)
Definition rows_prefix_free (rows : list (ascii * float * cstring)) : Prop :=
  forall c1 p1 w1 c2 p2 w2,
    In (c1, p1, w1) rows -> In (c2, p2, w2) rows -> c1 <> c2 ->
    ~ prefix w1 w2.

(** ** Concrete data for the examples *)

(** The table of the artifact of "aaaabbbc". *)
Definition example_rows : list (ascii * float * cstring) :=
  [("a"%char, S754_finite false 8388608 (-24), chars "0");
   ("b"%char, S754_finite false 12582912 (-25), chars "10");
   ("c"%char, S754_finite false 8388608 (-26), chars "11")].

(** The artifact of "aaaabbbc". *)
Definition example_artifact : artifact :=
  {| a_tsize := 3; a_rows := example_rows; a_bits := chars "000010101011" |}.


(** The table of "aaaabbbc" after the sort. *)
Definition example_table : list pnode :=
  [{| ch := "a"%char; p := S754_finite false 8388608 (-24) |};
   {| ch := "b"%char; p := S754_finite false 12582912 (-25) |};
   {| ch := "c"%char; p := S754_finite false 8388608 (-26) |}].

(** ** The builder step in the words of the specification (section 4.3)

    A second definition of one call of the builder, written from the
    specification's text over the list of the elements of the range; it is
    compared with the loops of [EncShannon] below. *)










(** ** Normal floats, for the proofs about sums *)

(** A mantissa of exactly 24 binary digits. *)
Definition normal (m : positive) : Prop := Zpos (digits2_pos m) = 24.

(** A probability as [Encode] computes it: a normal float with a moderate
    exponent. *)
Definition good_prob (x : float) : Prop :=
  exists m e, x = S754_finite false m e /\ normal m /\ -56 <= e <= 10.

(** A running sum of [j] such probabilities. *)
Definition good_sum (j : Z) (x : float) : Prop :=
  exists m e, x = S754_finite false m e /\ normal m /\ -56 <= e
              /\ Zpos m * 2 ^ (e + 56) <= 2 * j * 2 ^ 90.

(** ** Vocabulary of the further properties *)

(** The sum of [f k] over the [n] indices from [i] on. *)
Fixpoint sum_range (f : Z -> Z) (i : Z) (n : nat) : Z :=
  match n with
  | O => 0
  | S n' => f i + sum_range f (i + 1) n'
  end.

(** The Kraft sum of a list of codewords, scaled by [2 ^ D]: the sum of
    [2 ^ (D - length w)].  For [D] at least every length, the sum of
    [2 ^ (- length w)] is 1 exactly when this is [2 ^ D]. *)
Definition kraft_scaled (D : Z) (ws : list cstring) : Z :=
  fold_right (fun w acc => 2 ^ (D - Z.of_nat (length w)) + acc) 0 ws.

(** The codeword written in the row of a symbol: the [%s] field of the
    first row whose [%c] field is the symbol. *)
Definition row_code (rows : list (ascii * float * cstring)) (c : ascii)
  : cstring :=
  match find (fun row => Ascii.eqb (fst (fst row)) c) rows with
  | Some row => snd row
  | None => []
  end.

(** The codewords of the rows of an artifact, in row order. *)
Definition row_codewords (art : artifact) : list cstring :=
  map snd (a_rows art).

(** The symbols of the rows of an artifact, in row order. *)
Definition row_symbols (art : artifact) : list ascii :=
  map (fun r => fst (fst r)) (a_rows art).

(** * Properties *)

(** ** Characters and maps *)

Lemma all_chars_NoDup : NoDup all_chars.
Proof.
  replace all_chars with (nodup ascii_dec all_chars) by (vm_compute; reflexivity).
  apply NoDup_nodup.
Qed.

Lemma all_chars_complete : forall c, In c all_chars.
Proof.
  intros c.
  assert (H : existsb (Ascii.eqb c) all_chars = true).
  { destruct c as [[] [] [] [] [] [] [] []]; vm_compute; reflexivity. }
  apply existsb_exists in H. destruct H as [x [Hx He]].
  apply Ascii.eqb_eq in He. subst. exact Hx.
Qed.

Module CharMapFacts.

Lemma find_set_same {V} (m : CharMap.t V) c v :
  CharMap.find (CharMap.set c v m) c = Some v.
Proof. unfold CharMap.find, CharMap.set. now rewrite Ascii.eqb_refl. Qed.

Lemma find_set_other {V} (m : CharMap.t V) c c' v :
  c' <> c -> CharMap.find (CharMap.set c v m) c' = CharMap.find m c'.
Proof.
  intros H. unfold CharMap.find, CharMap.set.
  destruct (Ascii.eqb c' c) eqn:E; [apply Ascii.eqb_eq in E; contradiction | reflexivity].
Qed.

Lemma get_find {V} (d : V) (m : CharMap.t V) c v :
  CharMap.find m c = Some v -> CharMap.get d m c = v.
Proof. unfold CharMap.find, CharMap.get. now intros ->. Qed.

Lemma in_elements {V} (m : CharMap.t V) c v :
  In (c, v) (CharMap.elements m) <-> CharMap.find m c = Some v.
Proof.
  unfold CharMap.elements, CharMap.find. rewrite in_flat_map. split.
  - intros [x [_ Hx]]. destruct (m x) eqn:E; simpl in Hx; [|contradiction].
    destruct Hx as [Hx|[]]. inversion Hx; subst. exact E.
  - intros E. exists c. split; [apply all_chars_complete|].
    rewrite E. now left.
Qed.

Lemma keys_of_flat_map {V} (m : CharMap.t V) (l : list ascii) x :
  In x (map fst (flat_map (fun c => match m c with
                                    | Some v => [(c, v)]
                                    | None => []
                                    end) l)) -> In x l.
Proof.
  induction l as [|a l IH]; simpl; [tauto|].
  rewrite map_app, in_app_iff. intros [H|H]; [|right; auto].
  destruct (m a); simpl in H; [|contradiction].
  destruct H as [H|[]]. now left.
Qed.

Lemma elements_NoDup {V} (m : CharMap.t V) :
  NoDup (map fst (CharMap.elements m)).
Proof.
  unfold CharMap.elements.
  generalize all_chars_NoDup. generalize all_chars as l.
  induction l as [|a l IH]; intros Hnd; simpl; [constructor|].
  inversion Hnd as [|? ? Hnotin Hnd']; subst.
  rewrite map_app. destruct (m a); simpl; [|auto].
  constructor; [|auto].
  intros Hin. apply Hnotin. eapply keys_of_flat_map; eauto.
Qed.

End CharMapFacts.

Lemma code_of_append_same codes c b :
  code_of (append_bit c b codes) c = code_of codes c ++ [b].
Proof.
  unfold code_of at 1, append_bit.
  apply CharMapFacts.get_find, CharMapFacts.find_set_same.
Qed.

Lemma code_of_append_other codes c c' b :
  c' <> c -> code_of (append_bit c b codes) c' = code_of codes c'.
Proof.
  intros H. unfold code_of, append_bit, CharMap.get, CharMap.set.
  destruct (Ascii.eqb c' c) eqn:E; [|reflexivity].
  apply Ascii.eqb_eq in E. contradiction.
Qed.

(** ** Floats *)

Module F32Facts.

Lemma ltb_rank x y :
  F32.is_nan x = false -> F32.is_nan y = false ->
  (F32.ltb x y = true <-> rank_lt (float_rank x) (float_rank y)).
Proof.
  intros Hx Hy. unfold F32.ltb, SFltb.
  destruct x as [sx|sx| |sx mx ex]; try discriminate;
  destruct y as [sy|sy| |sy my ey]; try discriminate;
  try destruct sx; try destruct sy; simpl;
  try (split; [discriminate | lia]);
  try (split; [intros _; lia | reflexivity]).
  - change (Pos.compare_cont Eq mx my) with (Pos.compare mx my).
    destruct (Z.compare_spec ex ey); destruct (Pos.compare_spec mx my);
      simpl; split; intros; try discriminate; try reflexivity; lia.
  - change (Pos.compare_cont Eq mx my) with (Pos.compare mx my).
    destruct (Z.compare_spec ex ey); destruct (Pos.compare_spec mx my);
      simpl; split; intros; try discriminate; try reflexivity; lia.
Qed.

Lemma ltb_asym x y : F32.ltb x y = true -> F32.ltb y x = false.
Proof.
  intros H.
  assert (Hx : F32.is_nan x = false) by (destruct x; [reflexivity ..| discriminate | reflexivity]).
  assert (Hy : F32.is_nan y = false).
  { destruct y; try reflexivity. destruct x; discriminate. }
  apply (ltb_rank x y Hx Hy) in H.
  destruct (F32.ltb y x) eqn:E; [|reflexivity].
  apply (ltb_rank y x Hy Hx) in E.
  destruct (float_rank x) as [[? ?] ?], (float_rank y) as [[? ?] ?].
  simpl in *. lia.
Qed.

Lemma not_ltb_trans x y z :
  F32.is_nan x = false -> F32.is_nan y = false -> F32.is_nan z = false ->
  F32.ltb x y = false -> F32.ltb y z = false -> F32.ltb x z = false.
Proof.
  intros Hx Hy Hz Hxy Hyz.
  destruct (F32.ltb x z) eqn:E; [|reflexivity].
  apply (ltb_rank x z Hx Hz) in E.
  assert (Nxy : ~ rank_lt (float_rank x) (float_rank y)).
  { intros C. apply (ltb_rank x y Hx Hy) in C. congruence. }
  assert (Nyz : ~ rank_lt (float_rank y) (float_rank z)).
  { intros C. apply (ltb_rank y z Hy Hz) in C. congruence. }
  destruct (float_rank x) as [[? ?] ?], (float_rank y) as [[? ?] ?],
           (float_rank z) as [[? ?] ?].
  simpl in *. lia.
Qed.

Lemma not_ltb_geb x y :
  F32.is_nan x = false -> F32.is_nan y = false ->
  F32.ltb x y = false -> F32_geb x y = true.
Proof.
  unfold F32.ltb, SFltb, F32_geb.
  destruct x as [sx|sx| |sx mx ex]; try discriminate;
  destruct y as [sy|sy| |sy my ey]; try discriminate; intros _ _;
  simpl; try destruct sx; try destruct sy; try reflexivity; try discriminate;
  destruct (ex ?= ey); try reflexivity; try discriminate;
  destruct (Pos.compare_cont Eq mx my); simpl; try reflexivity; discriminate.
Qed.

End F32Facts.

Lemma pnode_compare_le a b :
  pnode_compare a b <= 0 <-> F32.ltb (p a) (p b) = false.
Proof.
  unfold pnode_compare. destruct (F32.ltb (p a) (p b)).
  - split; [lia | discriminate].
  - split; [reflexivity|]. intros _. destruct (F32.gtb (p a) (p b)); lia.
Qed.

(** ** Insertion sort meets the contract of [qsort] *)

Lemma insert_pnode_perm x l : Permutation (x :: l) (insert_pnode x l).
Proof.
  induction l as [|y l IH]; simpl; [reflexivity|].
  destruct (pnode_compare x y <=? 0); [reflexivity|].
  rewrite perm_swap. now constructor.
Qed.

Lemma insertion_sort_perm l : Permutation l (insertion_sort l).
Proof.
  induction l as [|x l IH]; simpl; [constructor|].
  rewrite <- insert_pnode_perm. now constructor.
Qed.

Lemma insert_pnode_sorted x l :
  F32.is_nan (p x) = false ->
  (forall y, In y l -> F32.is_nan (p y) = false) ->
  StronglySorted (fun a b => pnode_compare a b <= 0) l ->
  StronglySorted (fun a b => pnode_compare a b <= 0) (insert_pnode x l).
Proof.
  intros Hx Hl Hs. induction Hs as [|y l Hs IH Hy]; simpl.
  - repeat constructor.
  - assert (Hny : F32.is_nan (p y) = false) by (apply Hl; now left).
    destruct (Z.leb_spec (pnode_compare x y) 0) as [Hc|Hc].
    + constructor; [now constructor|].
      constructor; [exact Hc|].
      rewrite Forall_forall in Hy |- *. intros z Hz.
      apply pnode_compare_le. apply pnode_compare_le in Hc.
      apply (F32Facts.not_ltb_trans _ (p y)); auto.
      * apply Hl. now right.
      * apply pnode_compare_le. now apply Hy.
    + constructor.
      * apply IH. intros z Hz. apply Hl. now right.
      * rewrite Forall_forall in Hy |- *. intros z Hz.
        apply (Permutation_in _ (Permutation_sym (insert_pnode_perm x l))) in Hz.
        destruct Hz as [<-|Hz]; [|now apply Hy].
        apply pnode_compare_le. apply F32Facts.ltb_asym.
        destruct (F32.ltb (p x) (p y)) eqn:E; [reflexivity|].
        apply pnode_compare_le in E. lia.
Qed.

Lemma insertion_sort_sorted l :
  (forall x, In x l -> F32.is_nan (p x) = false) ->
  StronglySorted (fun a b => pnode_compare a b <= 0) (insertion_sort l).
Proof.
  induction l as [|x l IH]; intros Hl; simpl; [constructor|].
  apply insert_pnode_sorted.
  - apply Hl. now left.
  - intros y Hy. apply Hl. right.
    eapply Permutation_in; [apply Permutation_sym, insertion_sort_perm | exact Hy].
  - apply IH. intros y Hy. apply Hl. now right.
Qed.

Lemma insertion_sort_contract : qsort_contract insertion_sort.
Proof.
  split; [apply insertion_sort_perm | apply insertion_sort_sorted].
Qed.

(** ** The code-tree builder *)

Section BuilderFacts.

Variable ptable : list pnode.

Local Abbreviation pt_at := (ptable_at ptable).
Local Abbreviation n_entries := (tsize ptable).

(** A range [li > ri] is never left: the fallback split [li+1] makes the
    second recursive call a range of the same kind. *)
Lemma EncShannon_empty_range fuel :
  forall li ri codes, ri < li -> EncShannon ptable fuel li ri codes = None.
Proof.
  induction fuel as [|fuel IH]; intros li ri codes Hlt; simpl; [reflexivity|].
  destruct (Z.eqb_spec li ri); [lia|].
  destruct (Z.eqb_spec (ri - li) 1); [lia|].
  unfold split_range, iterations.
  replace (Z.to_nat (ri - li + 1)) with O by lia. simpl.
  replace (li + 1 - 1) with li by lia.
  destruct (EncShannon ptable fuel li li codes); [|reflexivity].
  apply IH. lia.
Qed.

Lemma EncShannon_single fuel li codes :
  EncShannon ptable (S fuel) li li codes = Some codes.
Proof. simpl. now rewrite Z.eqb_refl. Qed.

Lemma EncShannon_pair fuel li ri codes :
  ri - li = 1 ->
  EncShannon ptable (S fuel) li ri codes =
  Some (append_bit (ch (pt_at ri)) bit1 (append_bit (ch (pt_at li)) bit0 codes)).
Proof.
  intros H. simpl.
  destruct (Z.eqb_spec li ri); [lia|].
  destruct (Z.eqb_spec (ri - li) 1); [reflexivity|lia].
Qed.

Lemma EncShannon_general fuel li ri codes :
  li <> ri -> ri - li <> 1 ->
  EncShannon ptable (S fuel) li ri codes =
  match EncShannon ptable fuel li (snd (split_range ptable li ri codes) - 1)
                   (fst (split_range ptable li ri codes)) with
  | None => None
  | Some codes'' =>
      EncShannon ptable fuel (snd (split_range ptable li ri codes)) ri codes''
  end.
Proof.
  intros H1 H2. simpl.
  destruct (Z.eqb_spec li ri); [lia|].
  destruct (Z.eqb_spec (ri - li) 1); [lia|].
  destruct (split_range ptable li ri codes). reflexivity.
Qed.

(** The running sum after element [k], for a loop that starts at [i] with
    the sum [psum]. *)
Local Abbreviation psum_at i psum k := (sum_loop ptable (iterations i k) i psum).

Lemma iterations_S i k : i <= k -> iterations i k = S (iterations (i + 1) k).
Proof. unfold iterations. intros. lia. Qed.

Lemma psum_at_first i psum : psum_at i psum i = F32.add psum (p (pt_at i)).
Proof.
  unfold iterations. replace (Z.to_nat (i - i + 1)) with 1%nat by lia.
  reflexivity.
Qed.

Lemma psum_at_next i psum k :
  i < k -> psum_at i psum k = psum_at (i + 1) (F32.add psum (p (pt_at i))) k.
Proof. intros H. rewrite (iterations_S i k) by lia. reflexivity. Qed.

(** Codes after the scan: characters outside the range keep their code. *)
Lemma scan_loop_other phalf n :
  forall i psum isp codes c,
    (forall k, i <= k < i + Z.of_nat n -> ch (pt_at k) <> c) ->
    code_of (fst (scan_loop ptable phalf n i psum isp codes)) c = code_of codes c.
Proof.
  induction n as [|n IH]; intros i psum isp codes c Hc; [reflexivity|].
  cbn [scan_loop].
  assert (Hi : ch (pt_at i) <> c) by (apply Hc; lia).
  destruct (F32.leb _ phalf); rewrite IH by (intros k Hk; apply Hc; lia);
    apply code_of_append_other; congruence.
Qed.

(** Codes after the scan: every element whose character occurs once in the
    range has one bit more, the bit of its running sum. *)
Lemma scan_loop_bit phalf n :
  forall i psum isp codes k,
    i <= k < i + Z.of_nat n ->
    (forall k', i <= k' < i + Z.of_nat n -> k' <> k ->
                ch (pt_at k') <> ch (pt_at k)) ->
    code_of (fst (scan_loop ptable phalf n i psum isp codes)) (ch (pt_at k)) =
    code_of codes (ch (pt_at k))
            ++ [bit_char (negb (F32.leb (psum_at i psum k) phalf))].
Proof.
  induction n as [|n IH]; intros i psum isp codes k Hk Hd; [lia|].
  cbn [scan_loop].
  destruct (Z.eq_dec k i) as [->|Hne].
  - rewrite psum_at_first.
    destruct (F32.leb _ phalf); rewrite scan_loop_other
      by (intros k' Hk'; apply Hd; lia);
      apply code_of_append_same.
  - rewrite psum_at_next by lia.
    assert (Hi : ch (pt_at i) <> ch (pt_at k)) by (apply Hd; lia).
    destruct (F32.leb (F32.add psum (p (pt_at i))) phalf);
      (rewrite IH; [|lia|intros k' Hk' Hne'; apply Hd; lia]);
      rewrite code_of_append_other by congruence; reflexivity.
Qed.

(** The split index after the scan: the first element above half, if any. *)
Lemma scan_loop_isp phalf n :
  forall i psum isp codes,
    0 <= i -> isp < 0 ->
    let r := snd (scan_loop ptable phalf n i psum isp codes) in
    (r < 0 /\ forall k, i <= k < i + Z.of_nat n ->
                       F32.leb (psum_at i psum k) phalf = true)
    \/ (i <= r < i + Z.of_nat n
        /\ F32.leb (psum_at i psum r) phalf = false
        /\ forall k, i <= k < r -> F32.leb (psum_at i psum k) phalf = true).
Proof.
  assert (Hkeep : forall n i psum isp codes, 0 <= isp ->
             snd (scan_loop ptable phalf n i psum isp codes) = isp).
  { clear n. induction n as [|n IH]; intros i psum isp codes Hisp; [reflexivity|].
    cbn [scan_loop]. destruct (F32.leb _ phalf); [now apply IH|].
    destruct (Z.ltb_spec isp 0); [lia|]. now apply IH. }
  induction n as [|n IH]; intros i psum isp codes Hi Hisp r.
  - left. split; [exact Hisp|]. intros k Hk. lia.
  - subst r. cbn [scan_loop].
    destruct (F32.leb (F32.add psum (p (pt_at i))) phalf) eqn:E.
    + destruct (IH (i + 1) (F32.add psum (p (pt_at i))) isp
                   (append_bit (ch (pt_at i)) bit0 codes)) as [[H1 H2]|[H1 [H2 H3]]];
        try lia.
      * left. split; [exact H1|]. intros k Hk.
        destruct (Z.eq_dec k i) as [->|Hne]; [now rewrite psum_at_first|].
        rewrite psum_at_next by lia. apply H2. lia.
      * right. split; [lia|]. split.
        -- rewrite psum_at_next by lia. exact H2.
        -- intros k Hk.
           destruct (Z.eq_dec k i) as [->|Hne]; [now rewrite psum_at_first|].
           rewrite psum_at_next by lia. apply H3. lia.
    + destruct (Z.ltb_spec isp 0); [|lia].
      rewrite Hkeep by lia. right. split; [lia|]. split.
      * now rewrite psum_at_first.
      * intros k Hk. lia.
Qed.

Lemma prefix_cons_inv b1 b2 x y :
  prefix (b1 :: x) (b2 :: y) -> b1 = b2 /\ prefix x y.
Proof.
  intros [s Hs]. simpl in Hs. inversion Hs; subst. split; [reflexivity|].
  now exists s.
Qed.

Lemma prefix_nil x : prefix [] x.
Proof. now exists x. Qed.

Lemma prefix_refl x : prefix x x.
Proof. exists []. now rewrite app_nil_r. Qed.

Lemma bit0_neq_bit1 : bit0 <> bit1.
Proof. discriminate. Qed.

Lemma bit_char_is_bit b : is_bit (bit_char b).
Proof. destruct b; [now right | now left]. Qed.

Lemma ch_at_inj j k :
  NoDup (map ch ptable) ->
  0 <= j < n_entries -> 0 <= k < n_entries ->
  ch (pt_at j) = ch (pt_at k) -> j = k.
Proof.
  intros Hnd Hj Hk E. unfold tsize in *.
  pose proof (proj1 (NoDup_nth (map ch ptable) zero) Hnd
                (Z.to_nat j) (Z.to_nat k)) as Hinj.
  rewrite length_map in Hinj.
  change zero with (ch {| ch := zero; p := F32.zero |}) in Hinj.
  rewrite !map_nth in Hinj.
  assert (Z.to_nat j = Z.to_nat k) by (apply Hinj; [lia | lia | exact E]).
  lia.
Qed.

(** The split position of the general case: the first element whose
    running sum is above half, or [li + 1] when there is none. *)
Lemma split_range_isp li ri codes :
  0 <= li ->
  let isp := snd (split_range ptable li ri codes) in
  (isp = li + 1 /\ forall k, li <= k <= ri -> scan_bit ptable li ri k = false)
  \/ (li <= isp <= ri /\ scan_bit ptable li ri isp = true
      /\ forall k, li <= k < isp -> scan_bit ptable li ri k = false).
Proof.
  intros Hli isp. subst isp. unfold split_range.
  set (phalf := F32.mul (sum_loop ptable (iterations li ri) li F32.zero) F32.half).
  pose proof (scan_loop_isp phalf (iterations li ri) li F32.zero (-1) codes Hli) as H.
  destruct (scan_loop ptable phalf (iterations li ri) li F32.zero (-1) codes)
    as [codes1 isp0].
  cbn [fst snd] in *.
  assert (Hbit : forall k, scan_bit ptable li ri k
                           = negb (F32.leb (psum_at li F32.zero k) phalf)) by reflexivity.
  destruct H as [[H1 H2]|[H1 [H2 H3]]]; [lia| |].
  - left. destruct (Z.ltb_spec isp0 0); [|lia]. split; [reflexivity|].
    intros k Hk. rewrite Hbit, H2; [reflexivity|]. unfold iterations. lia.
  - unfold iterations in H1. right. destruct (Z.ltb_spec isp0 0); [lia|].
    split; [lia|]. split.
    + now rewrite Hbit, H2.
    + intros k Hk. rewrite Hbit, H3 by lia. reflexivity.
Qed.

(** The codes of the general case before its recursive calls. *)
Lemma split_range_codes li ri codes :
  NoDup (map ch ptable) ->
  0 <= li -> li <= ri -> ri < n_entries ->
  let codes1 := fst (split_range ptable li ri codes) in
  (forall k, li <= k <= ri ->
             code_of codes1 (ch (pt_at k)) =
             code_of codes (ch (pt_at k)) ++ [bit_char (scan_bit ptable li ri k)])
  /\ (forall c, (forall k, li <= k <= ri -> ch (pt_at k) <> c) ->
                code_of codes1 c = code_of codes c).
Proof.
  intros Hnd Hli Hle Hri codes1. subst codes1.
  unfold split_range.
  set (phalf := F32.mul (sum_loop ptable (iterations li ri) li F32.zero) F32.half).
  destruct (scan_loop ptable phalf (iterations li ri) li F32.zero (-1) codes)
    as [codes1 isp0] eqn:E.
  cbn [fst snd].
  assert (Hn : Z.of_nat (iterations li ri) = ri - li + 1) by (unfold iterations; lia).
  assert (Hbit : forall k, scan_bit ptable li ri k
                           = negb (F32.leb (psum_at li F32.zero k) phalf)) by reflexivity.
  replace codes1 with (fst (scan_loop ptable phalf (iterations li ri) li F32.zero (-1) codes))
    by now rewrite E.
  split.
  - intros k Hk. rewrite Hbit.
    apply scan_loop_bit; [lia|].
    intros k' Hk' Hne Heq. apply Hne. apply ch_at_inj; auto; lia.
  - intros c Hc. apply scan_loop_other. intros k Hk. apply Hc. lia.
Qed.

(** With a regular scan the bits are '0' up to the split and '1' from it. *)
Lemma regular_split li ri codes :
  NoDup (map ch ptable) -> regular ptable ->
  0 <= li -> li + 2 <= ri -> ri < n_entries ->
  let isp := snd (split_range ptable li ri codes) in
  li <= isp <= ri
  /\ (forall k, li <= k < isp -> scan_bit ptable li ri k = false)
  /\ (forall k, isp <= k <= ri -> scan_bit ptable li ri k = true).
Proof.
  intros Hnd Hreg Hli Hle Hri isp.
  destruct (Hreg li ri Hli Hle Hri) as [Hmono Hlast].
  destruct (split_range_isp li ri codes Hli) as [[_ H0]|[Hr [H1 H0]]].
  - rewrite H0 in Hlast by lia. discriminate.
  - fold isp in Hr, H1, H0. split; [exact Hr|]. split; [exact H0|].
    intros k Hk.
    assert (Hind : forall d : nat, isp + Z.of_nat d <= ri ->
                          scan_bit ptable li ri (isp + Z.of_nat d) = true).
    { induction d as [|d IHd]; intros Hd.
      - now rewrite Z.add_0_r.
      - replace (isp + Z.of_nat (S d)) with (isp + Z.of_nat d + 1) by lia.
        apply Hmono; [lia|]. apply IHd. lia. }
    replace k with (isp + Z.of_nat (Z.to_nat (k - isp))) by lia.
    apply Hind. lia.
Qed.

(** What a returning call does to the table: each element of the range
    gains a suffix of bits, the suffixes of different elements are not
    prefixes of one another, and the other codes are untouched. *)
Lemma EncShannon_spec fuel :
  NoDup (map ch ptable) -> regular ptable ->
  forall li ri codes codes',
    0 <= li -> li <= ri -> ri < n_entries ->
    EncShannon ptable fuel li ri codes = Some codes' ->
    exists sfx : Z -> list ascii,
      (forall k, li <= k <= ri ->
                 code_of codes' (ch (pt_at k)) = code_of codes (ch (pt_at k)) ++ sfx k)
      /\ (forall c, (forall k, li <= k <= ri -> ch (pt_at k) <> c) ->
                    code_of codes' c = code_of codes c)
      /\ (forall k, li <= k <= ri -> Forall is_bit (sfx k))
      /\ (forall j k, li <= j <= ri -> li <= k <= ri -> j <> k ->
                      ~ prefix (sfx j) (sfx k)).
Proof.
  intros Hnd Hreg.
  induction fuel as [|fuel IH]; intros li ri codes codes' Hli Hle Hri Henc;
    [discriminate|].
  destruct (Z.eq_dec li ri) as [->|Hne].
  - rewrite EncShannon_single in Henc. inversion Henc; subst.
    exists (fun _ => []). split; [|split; [|split]].
    + intros. now rewrite app_nil_r.
    + reflexivity.
    + constructor.
    + intros. lia.
  - destruct (Z.eq_dec (ri - li) 1) as [Hp|Hnp].
    + rewrite EncShannon_pair in Henc by exact Hp. inversion Henc; subst.
      assert (Hd : ch (pt_at li) <> ch (pt_at ri)).
      { intros E. apply ch_at_inj in E; auto; lia. }
      exists (fun k => if k =? li then [bit0] else [bit1]).
      split; [|split; [|split]].
      * intros k Hk. destruct (Z.eqb_spec k li) as [->|Hk'].
        -- rewrite code_of_append_other by exact Hd.
           apply code_of_append_same.
        -- replace k with ri by lia.
           rewrite code_of_append_same.
           now rewrite code_of_append_other by congruence.
      * intros c Hc.
        rewrite !code_of_append_other; auto.
        -- intros E. apply (Hc li); [lia | auto].
        -- intros E. apply (Hc ri); [lia | auto].
      * intros k Hk.
        destruct (k =? li); (constructor; [|constructor]); [now left | now right].
      * intros j k Hj Hk Hjk Hpre.
        destruct (Z.eqb_spec j li), (Z.eqb_spec k li); try lia;
          apply prefix_cons_inv in Hpre; destruct Hpre as [Hb _]; discriminate.
    + rewrite EncShannon_general in Henc by auto.
      destruct (regular_split li ri codes Hnd Hreg Hli ltac:(lia) Hri)
        as [Hisp [Hlow Hhigh]].
      destruct (split_range_codes li ri codes Hnd Hli Hle Hri)
        as [Hbits Hother].
      set (isp := snd (split_range ptable li ri codes)) in *.
      set (codes1 := fst (split_range ptable li ri codes)) in *.
      destruct (Z.eq_dec isp li) as [Hil|Hil].
      { rewrite Hil, EncShannon_empty_range in Henc by lia. discriminate. }
      destruct (EncShannon ptable fuel li (isp - 1) codes1) as [codes2|] eqn:EL;
        [|discriminate].
      destruct (IH li (isp - 1) codes1 codes2 Hli ltac:(lia) ltac:(lia) EL)
        as [sfxL [HL1 [HL2 [HL3 HL4]]]].
      destruct (IH isp ri codes2 codes' ltac:(lia) ltac:(lia) Hri Henc)
        as [sfxR [HR1 [HR2 [HR3 HR4]]]].
      assert (Hdiff : forall j k, 0 <= j < n_entries -> 0 <= k < n_entries ->
                                  j <> k -> ch (pt_at j) <> ch (pt_at k)).
      { intros j k Hj Hk Hjk E. apply Hjk. now apply ch_at_inj. }
      exists (fun k => bit_char (scan_bit ptable li ri k)
                       :: (if k <? isp then sfxL k else sfxR k)).
      split; [|split; [|split]].
      * intros k Hk. destruct (Z.ltb_spec k isp) as [Hlt|Hge].
        -- rewrite HR2 by (intros k' Hk'; apply Hdiff; lia).
           rewrite HL1 by lia. rewrite Hbits by lia.
           now rewrite <- app_assoc.
        -- rewrite HR1 by lia.
           rewrite HL2 by (intros k' Hk'; apply Hdiff; lia).
           rewrite Hbits by lia. now rewrite <- app_assoc.
      * intros c Hc.
        rewrite HR2 by (intros k Hk; apply Hc; lia).
        rewrite HL2 by (intros k Hk; apply Hc; lia).
        apply Hother. exact Hc.
      * intros k Hk. constructor; [apply bit_char_is_bit|].
        destruct (Z.ltb_spec k isp); [apply HL3 | apply HR3]; lia.
      * intros j k Hj Hk Hjk Hpre.
        apply prefix_cons_inv in Hpre. destruct Hpre as [Hb Hpre].
        destruct (Z.ltb_spec j isp) as [Hjl|Hjr], (Z.ltb_spec k isp) as [Hkl|Hkr].
        -- apply (HL4 j k); auto; lia.
        -- rewrite Hlow, Hhigh in Hb by lia. discriminate.
        -- rewrite Hhigh, Hlow in Hb by lia. discriminate.
        -- apply (HR4 j k); auto; lia.
Qed.

Lemma prefix_trans x y z : prefix x y -> prefix y z -> prefix x z.
Proof.
  intros [s ->] [t ->]. exists (s ++ t). now rewrite app_assoc.
Qed.

Lemma append_bit_prefix codes c b c' :
  prefix (code_of codes c') (code_of (append_bit c b codes) c').
Proof.
  destruct (ascii_dec c' c) as [->|Hne].
  - rewrite code_of_append_same. now exists [b].
  - rewrite code_of_append_other by exact Hne. apply prefix_refl.
Qed.

Lemma scan_loop_prefix phalf n :
  forall i psum isp codes c,
    prefix (code_of codes c)
           (code_of (fst (scan_loop ptable phalf n i psum isp codes)) c).
Proof.
  induction n as [|n IH]; intros i psum isp codes c; [apply prefix_refl|].
  cbn [scan_loop].
  destruct (F32.leb _ phalf);
    (eapply prefix_trans; [apply append_bit_prefix | apply IH]).
Qed.

(** More fuel does not change a result. *)
Lemma EncShannon_fuel_mono fuel :
  forall li ri codes codes',
    EncShannon ptable fuel li ri codes = Some codes' ->
    EncShannon ptable (S fuel) li ri codes = Some codes'.
Proof.
  induction fuel as [|fuel IH]; intros li ri codes codes' H; [discriminate|].
  destruct (Z.eq_dec li ri) as [->|Hne].
  - rewrite EncShannon_single in *. exact H.
  - destruct (Z.eq_dec (ri - li) 1) as [Hp|Hnp].
    + rewrite EncShannon_pair in * by exact Hp. exact H.
    + rewrite EncShannon_general in * by auto.
      destruct (EncShannon ptable fuel li _ _) as [codes2|] eqn:EL; [|discriminate].
      rewrite (IH _ _ _ _ EL). now apply IH.
Qed.

(** A call only ever appends to codewords. *)
Lemma EncShannon_extends fuel :
  forall li ri codes codes',
    EncShannon ptable fuel li ri codes = Some codes' ->
    forall c, prefix (code_of codes c) (code_of codes' c).
Proof.
  induction fuel as [|fuel IH]; intros li ri codes codes' Henc c; [discriminate|].
  destruct (Z.eq_dec li ri) as [->|Hne].
  - rewrite EncShannon_single in Henc. inversion Henc. apply prefix_refl.
  - destruct (Z.eq_dec (ri - li) 1) as [Hp|Hnp].
    + rewrite EncShannon_pair in Henc by exact Hp. inversion Henc.
      eapply prefix_trans; apply append_bit_prefix.
    + rewrite EncShannon_general in Henc by auto.
      destruct (EncShannon ptable fuel li _ _) as [codes2|] eqn:EL; [|discriminate].
      eapply prefix_trans; [|eapply IH; exact Henc].
      eapply prefix_trans; [|eapply IH; exact EL].
      unfold split_range.
      destruct (scan_loop ptable _ (iterations li ri) li F32.zero (-1) codes)
        as [codes1 isp0] eqn:E.
      cbn [fst].
      replace codes1 with (fst (scan_loop ptable
        (F32.mul (sum_loop ptable (iterations li ri) li F32.zero) F32.half)
        (iterations li ri) li F32.zero (-1) codes)) by now rewrite E.
      apply scan_loop_prefix.
Qed.

(** A returning call on at least two elements gives each of them a bit. *)
Lemma EncShannon_grows fuel li ri codes codes' :
  NoDup (map ch ptable) ->
  0 <= li -> li < ri -> ri < n_entries ->
  EncShannon ptable fuel li ri codes = Some codes' ->
  forall k, li <= k <= ri ->
            exists b rest, is_bit b /\
              code_of codes' (ch (pt_at k)) = code_of codes (ch (pt_at k)) ++ b :: rest.
Proof.
  intros Hnd Hli Hlt Hri Henc k Hk.
  destruct fuel as [|fuel]; [discriminate|].
  destruct (Z.eq_dec (ri - li) 1) as [Hp|Hnp].
  - rewrite EncShannon_pair in Henc by exact Hp. inversion Henc; subst.
    assert (Hd : ch (pt_at li) <> ch (pt_at ri)).
    { intros E. apply ch_at_inj in E; auto; lia. }
    destruct (Z.eq_dec k li) as [->|Hkl].
    + exists bit0, []. split; [now left|].
      rewrite code_of_append_other by exact Hd. apply code_of_append_same.
    + replace k with ri by lia. exists bit1, []. split; [now right|].
      rewrite code_of_append_same.
      now rewrite code_of_append_other by congruence.
  - rewrite EncShannon_general in Henc by lia.
    destruct (EncShannon ptable fuel li _ _) as [codes2|] eqn:EL; [|discriminate].
    destruct (split_range_codes li ri codes Hnd Hli ltac:(lia) Hri) as [Hbits _].
    pose proof (EncShannon_extends _ _ _ _ _ EL (ch (pt_at k))) as P1.
    pose proof (EncShannon_extends _ _ _ _ _ Henc (ch (pt_at k))) as P2.
    destruct (prefix_trans _ _ _ P1 P2) as [rest Hrest].
    exists (bit_char (scan_bit ptable li ri k)), rest.
    split; [apply bit_char_is_bit|].
    rewrite Hrest, Hbits by exact Hk. now rewrite <- app_assoc.
Qed.

(** The defect of the general case: when the first element of the range
    is already above half, the split is [li], the first recursive call
    is on the empty range [li .. li-1], and that call never returns. *)
Lemma EncShannon_first_above_half li ri :
  0 <= li -> li + 2 <= ri ->
  scan_bit ptable li ri li = true ->
  forall fuel codes, EncShannon ptable fuel li ri codes = None.
Proof.
  intros Hli Hle Hbit fuel codes. destruct fuel as [|fuel]; [reflexivity|].
  rewrite EncShannon_general by lia.
  destruct (split_range_isp li ri codes Hli) as [[_ H0]|[Hr [_ H0]]].
  - rewrite H0 in Hbit by lia. discriminate.
  - assert (E : snd (split_range ptable li ri codes) = li).
    { destruct (Z.eq_dec (snd (split_range ptable li ri codes)) li) as [|Hne];
        [assumption|].
      rewrite H0 in Hbit by lia. discriminate. }
    rewrite E, EncShannon_empty_range by lia. reflexivity.
Qed.

End BuilderFacts.

(** ** The rounding of [SpecFloat], as integer arithmetic *)

Module RoundFacts.

Lemma digits2_bounds m :
  2 ^ (Zpos (digits2_pos m) - 1) <= Zpos m < 2 ^ Zpos (digits2_pos m).
Proof.
  induction m as [m IH|m IH|]; cbn [digits2_pos].
  - rewrite Pos2Z.inj_succ. replace (Z.succ (Zpos (digits2_pos m)) - 1)
      with (Z.succ (Zpos (digits2_pos m) - 1)) by lia.
    rewrite !Z.pow_succ_r by lia. lia.
  - rewrite Pos2Z.inj_succ. replace (Z.succ (Zpos (digits2_pos m)) - 1)
      with (Z.succ (Zpos (digits2_pos m) - 1)) by lia.
    rewrite !Z.pow_succ_r by lia. lia.
  - simpl. lia.
Qed.

Lemma digits2_le m k : Zpos m < 2 ^ k -> 0 <= k -> Zpos (digits2_pos m) <= k.
Proof.
  intros Hm Hk. destruct (digits2_bounds m) as [Hlo _].
  destruct (Z.le_gt_cases (Zpos (digits2_pos m)) k) as [|Hgt]; [assumption|].
  assert (2 ^ k <= 2 ^ (Zpos (digits2_pos m) - 1)) by (apply Z.pow_le_mono_r; lia).
  lia.
Qed.

Lemma shr_1_m r : 0 <= shr_m r -> shr_m (shr_1 r) = shr_m r / 2.
Proof.
  destruct r as [m r s]. cbn [shr_m]. intros Hm. unfold shr_1.
  destruct m as [|[q|q|]|q]; cbn [shr_m]; try lia.
  - reflexivity.
  - rewrite (Pos2Z.inj_xI q). apply Z.div_unique with (r := 1); lia.
  - rewrite (Pos2Z.inj_xO q). apply Z.div_unique with (r := 0); lia.
  - reflexivity.
Qed.

Lemma iter_shr_1_m n :
  forall r, 0 <= shr_m r ->
            shr_m (iter_pos shr_1 n r) = shr_m r / 2 ^ Zpos n.
Proof.
  assert (Hnn : forall r, 0 <= shr_m r -> 0 <= shr_m r / 2)
    by (intros; apply Z.div_pos; lia).
  induction n as [n IH|n IH|]; intros r Hr; cbn [iter_pos].
  - assert (H1 : 0 <= shr_m (shr_1 r)) by (rewrite shr_1_m; auto).
    assert (H2 : 0 <= shr_m (iter_pos shr_1 n (shr_1 r))).
    { rewrite IH by auto. apply Z.div_pos; lia. }
    rewrite IH, IH, shr_1_m by auto.
    rewrite !Z.div_div by lia. f_equal.
    rewrite (Pos2Z.inj_xI n).
    replace (2 * Zpos n + 1) with (1 + Zpos n + Zpos n) by lia.
    rewrite !Z.pow_add_r by lia. lia.
  - assert (H2 : 0 <= shr_m (iter_pos shr_1 n r)).
    { rewrite IH by auto. apply Z.div_pos; lia. }
    rewrite IH, IH by auto. rewrite Z.div_div by lia. f_equal.
    rewrite (Pos2Z.inj_xO n). replace (2 * Zpos n) with (Zpos n + Zpos n) by lia.
    now rewrite Z.pow_add_r by lia.
  - rewrite shr_1_m by auto. reflexivity.
Qed.

Lemma shr_spec r e n :
  0 <= shr_m r ->
  shr_m (fst (shr r e n)) = shr_m r / 2 ^ Z.max 0 n
  /\ snd (shr r e n) = e + Z.max 0 n.
Proof.
  intros Hr. destruct n as [|n|n]; cbn [shr fst snd].
  - rewrite Z.max_id. simpl. rewrite Z.div_1_r. lia.
  - rewrite iter_shr_1_m by auto. replace (Z.max 0 (Zpos n)) with (Zpos n) by lia.
    split; reflexivity.
  - replace (Z.max 0 (Zneg n)) with 0 by lia. simpl. rewrite Z.div_1_r. lia.
Qed.

Lemma shr_fexp_spec m e l :
  0 <= m ->
  let n := Z.max 0 (fexp F32.prec F32.emax (Zdigits2 m + e) - e) in
  shr_m (fst (shr_fexp F32.prec F32.emax m e l)) = m / 2 ^ n
  /\ snd (shr_fexp F32.prec F32.emax m e l) = e + n.
Proof.
  intros Hm n. unfold shr_fexp.
  assert (E : shr_m (shr_record_of_loc m l) = m) by (destruct l as [|[]]; reflexivity).
  pose proof (shr_spec (shr_record_of_loc m l) e
                (fexp F32.prec F32.emax (Zdigits2 m + e) - e)) as H.
  rewrite E in H. apply H. exact Hm.
Qed.

Lemma round_nearest_even_bounds m l :
  m <= round_nearest_even m l <= m + 1.
Proof.
  unfold round_nearest_even. destruct l as [|[]]; try lia.
  destruct (Z.even m); lia.
Qed.

(** The two shifts of [binary_round_aux], as arithmetic. *)
Lemma binary_round_aux_spec sx mx ex lx :
  0 <= mx ->
  exists m1 m2 m3 e1 e3,
    m1 = mx / 2 ^ Z.max 0 (fexp F32.prec F32.emax (Zdigits2 mx + ex) - ex)
    /\ e1 = ex + Z.max 0 (fexp F32.prec F32.emax (Zdigits2 mx + ex) - ex)
    /\ m1 <= m2 <= m1 + 1
    /\ m3 = m2 / 2 ^ Z.max 0 (fexp F32.prec F32.emax (Zdigits2 m2 + e1) - e1)
    /\ e3 = e1 + Z.max 0 (fexp F32.prec F32.emax (Zdigits2 m2 + e1) - e1)
    /\ binary_round_aux F32.prec F32.emax sx mx ex lx =
       match m3 with
       | Z0 => S754_zero sx
       | Zpos m => if e3 <=? F32.emax - F32.prec
                   then S754_finite sx m e3 else S754_infinity sx
       | Zneg _ => S754_nan
       end.
Proof.
  intros Hm. unfold binary_round_aux.
  destruct (shr_fexp_spec mx ex lx Hm) as [Hm1 He1].
  destruct (shr_fexp F32.prec F32.emax mx ex lx) as [mrs' e'].
  cbn [fst snd] in Hm1, He1.
  pose proof (round_nearest_even_bounds (shr_m mrs') (loc_of_shr_record mrs')) as Hr.
  set (m2 := round_nearest_even (shr_m mrs') (loc_of_shr_record mrs')) in *.
  assert (Hm1' : 0 <= shr_m mrs') by (rewrite Hm1; apply Z.div_pos; lia).
  destruct (shr_fexp_spec m2 e' loc_Exact ltac:(lia)) as [Hm3 He3].
  destruct (shr_fexp F32.prec F32.emax m2 e' loc_Exact) as [mrs'' e''].
  cbn [fst snd] in Hm3, He3.
  exists (shr_m mrs'), m2, (shr_m mrs''), e', e''.
  rewrite <- He1. repeat split; auto; try lia.
Qed.

Lemma iter_xO_value m k : Zpos (Pos.iter xO m k) = Zpos m * 2 ^ Zpos k.
Proof.
  induction k as [|k IH] using Pos.peano_ind.
  - simpl. lia.
  - rewrite Pos.iter_succ, Pos2Z.inj_xO, IH, Pos2Z.inj_succ, Z.pow_succ_r by lia.
    lia.
Qed.

End RoundFacts.

(** ** The counting loop and the probability table *)

Lemma count_fold_keys input :
  forall st c,
    CharMap.find (fst (fold_left
      (fun '(freqs, total) c =>
         (CharMap.set c (int_wrap (CharMap.get 0 freqs c + 1)) freqs,
          uint_wrap (total + 1))) input st)) c <> None
    <-> (CharMap.find (fst st) c <> None \/ In c input).
Proof.
  induction input as [|a input IH]; intros [freqs total] c; simpl.
  - tauto.
  - rewrite IH. cbn [fst].
    destruct (ascii_dec c a) as [->|Hne].
    + rewrite CharMapFacts.find_set_same. split; [auto|]. intros _. left. discriminate.
    + rewrite CharMapFacts.find_set_other by exact Hne.
      split; intros [H|H]; auto. destruct H; [congruence | auto].
Qed.

Lemma count_chars_keys input c :
  CharMap.find (fst (count_chars input)) c <> None <-> In c input.
Proof.
  unfold count_chars. rewrite count_fold_keys. cbn [fst].
  unfold CharMap.find, CharMap.empty. tauto.
Qed.

Lemma count_fold_values input :
  forall freqs total,
    0 <= total ->
    (forall c n, CharMap.find freqs c = Some n -> 1 <= n <= total) ->
    total + Z.of_nat (length input) < 2 ^ 31 ->
    let st := fold_left
      (fun '(freqs, total) c =>
         (CharMap.set c (int_wrap (CharMap.get 0 freqs c + 1)) freqs,
          uint_wrap (total + 1))) input (freqs, total) in
    snd st = total + Z.of_nat (length input)
    /\ forall c n, CharMap.find (fst st) c = Some n ->
                   1 <= n <= total + Z.of_nat (length input).
Proof.
  induction input as [|a input IH]; intros freqs total Ht Hf Hlen; cbn [fold_left].
  - simpl. split; [lia|]. intros c n H. apply Hf in H. lia.
  - cbn [length] in Hlen. rewrite Nat2Z.inj_succ in Hlen.
    assert (Hu : uint_wrap (total + 1) = total + 1).
    { unfold uint_wrap. apply Z.mod_small. lia. }
    assert (Hget : 0 <= CharMap.get 0 freqs a <= total).
    { unfold CharMap.get. destruct (freqs a) as [n|] eqn:E; [|lia].
      apply (Hf a n) in E. lia. }
    assert (Hi : int_wrap (CharMap.get 0 freqs a + 1) = CharMap.get 0 freqs a + 1).
    { unfold int_wrap. rewrite Z.mod_small; lia. }
    rewrite Hu, Hi.
    destruct (IH (CharMap.set a (CharMap.get 0 freqs a + 1) freqs) (total + 1))
      as [H1 H2]; try lia.
    + intros c n. destruct (ascii_dec c a) as [->|Hne].
      * rewrite CharMapFacts.find_set_same. intros E. inversion E. lia.
      * rewrite CharMapFacts.find_set_other by exact Hne. intros E.
        apply Hf in E. lia.
    + cbn [length]. rewrite Nat2Z.inj_succ. split; [lia|].
      intros c n E. apply H2 in E. lia.
Qed.

Lemma count_chars_values input :
  Z.of_nat (length input) < 2 ^ 31 ->
  snd (count_chars input) = Z.of_nat (length input)
  /\ forall c n, CharMap.find (fst (count_chars input)) c = Some n ->
                 1 <= n <= Z.of_nat (length input).
Proof.
  intros Hlen. unfold count_chars.
  destruct (count_fold_values input CharMap.empty 0) as [H1 H2]; try lia.
  - intros c n E. discriminate.
  - split; [lia|]. intros c n E. apply H2 in E. lia.
Qed.

Lemma build_ptable_chars freqs total :
  map ch (build_ptable freqs total) = map fst (CharMap.elements freqs).
Proof.
  unfold build_ptable. rewrite map_map. apply map_ext. now intros [c n].
Qed.

Lemma build_ptable_entry freqs total nd :
  In nd (build_ptable freqs total) ->
  exists n, CharMap.find freqs (ch nd) = Some n
            /\ p nd = F32.div (F32.of_Z n) (F32.of_Z total).
Proof.
  unfold build_ptable. rewrite in_map_iff. intros [[c n] [<- Hin]].
  apply CharMapFacts.in_elements in Hin. now exists n.
Qed.

Lemma StronglySorted_nth {A} (R : A -> A -> Prop) l d :
  StronglySorted R l ->
  forall i j, (i < j < length l)%nat -> R (nth i l d) (nth j l d).
Proof.
  induction 1 as [|a l Hs IH Ha]; intros i j Hij; simpl in Hij; [lia|].
  destruct j as [|j]; [lia|]. destruct i as [|i]; simpl.
  - rewrite Forall_forall in Ha. apply Ha, nth_In. lia.
  - apply IH. lia.
Qed.

Section EncoderFacts.

Variable qsort : list pnode -> list pnode.
Hypothesis qsort_ok : qsort_contract qsort.

Lemma sorted_ptable_perm input :
  Permutation (build_ptable (fst (count_chars input)) (snd (count_chars input)))
              (sorted_ptable qsort input).
Proof.
  unfold sorted_ptable. destruct (count_chars input) as [freqs total].
  apply (qsort_perm _ qsort_ok).
Qed.

Lemma sorted_ptable_NoDup input : NoDup (map ch (sorted_ptable qsort input)).
Proof.
  eapply Permutation_NoDup.
  - apply Permutation_map, sorted_ptable_perm.
  - rewrite build_ptable_chars. apply CharMapFacts.elements_NoDup.
Qed.

Lemma sorted_ptable_chars input c :
  In c (map ch (sorted_ptable qsort input)) <-> In c input.
Proof.
  rewrite <- (count_chars_keys input c).
  assert (E : In c (map ch (sorted_ptable qsort input)) <->
              In c (map fst (CharMap.elements (fst (count_chars input))))).
  { rewrite <- (build_ptable_chars _ (snd (count_chars input))).
    split; apply Permutation_in; [symmetry|];
      apply Permutation_map, sorted_ptable_perm. }
  rewrite E, in_map_iff. split.
  - intros [[c' n] [<- Hin]]. apply CharMapFacts.in_elements in Hin.
    cbn [fst]. congruence.
  - intros H. destruct (CharMap.find (fst (count_chars input)) c) as [n|] eqn:F;
      [|contradiction].
    exists (c, n). split; [reflexivity|]. now apply CharMapFacts.in_elements.
Qed.

Lemma sorted_ptable_index input c :
  In c input ->
  exists k, 0 <= k < tsize (sorted_ptable qsort input)
            /\ ch (ptable_at (sorted_ptable qsort input) k) = c.
Proof.
  intros H. apply sorted_ptable_chars in H.
  apply (In_nth _ _ zero) in H. destruct H as [n [Hn E]].
  rewrite length_map in Hn. exists (Z.of_nat n). unfold tsize, ptable_at.
  split; [lia|]. rewrite Nat2Z.id.
  change zero with (ch {| ch := zero; p := F32.zero |}) in E.
  now rewrite map_nth in E.
Qed.

End EncoderFacts.

(** ** C strings *)

Lemma cstring_eqb_eq a b : cstring_eqb a b = true <-> a = b.
Proof.
  revert b. induction a as [|x a IH]; intros [|y b]; simpl;
    try (split; [discriminate | congruence]); [tauto|].
  rewrite andb_true_iff, Ascii.eqb_eq, IH. split.
  - intros [-> ->]. reflexivity.
  - intros E. inversion E. auto.
Qed.

Lemma strcmp_eq_iff a b : strcmp_eq a b = true <-> c_str a = c_str b.
Proof. apply cstring_eqb_eq. Qed.

Lemma c_str_nul_free w : ~ In zero w -> c_str w = w.
Proof.
  induction w as [|x w IH]; simpl; [reflexivity|]. intros H.
  destruct (Ascii.eqb_spec x zero) as [->|_]; [tauto|].
  f_equal. apply IH. tauto.
Qed.

Lemma c_str_has_no_nul s : ~ In zero (c_str s).
Proof.
  induction s as [|x s IH]; simpl; [tauto|].
  destruct (Ascii.eqb_spec x zero) as [->|Hx]; simpl; [tauto|].
  intros [E|H]; [congruence | tauto].
Qed.

Lemma c_str_app_nul a b : In zero a -> c_str (a ++ b) = c_str a.
Proof.
  induction a as [|x a IH]; simpl; [tauto|]. intros H.
  destruct (Ascii.eqb_spec x zero) as [->|Hx]; [reflexivity|].
  f_equal. apply IH. destruct H; [congruence | assumption].
Qed.

Lemma c_str_snoc_nul a : c_str (a ++ [zero]) = c_str a.
Proof.
  induction a as [|x a IH]; simpl; [reflexivity|].
  destruct (Ascii.eqb x zero); [reflexivity|]. now f_equal.
Qed.

(** A character appended to an accumulator changes what [strcmp] sees
    only if neither contains NUL. *)
Lemma c_str_snoc a c :
  c_str (a ++ [c]) = c_str a \/ (~ In zero (a ++ [c]) /\ c_str (a ++ [c]) = a ++ [c]).
Proof.
  destruct (in_dec ascii_dec zero a) as [Hin|Hnin].
  - left. now apply c_str_app_nul.
  - destruct (ascii_dec c zero) as [->|Hc].
    + left. apply c_str_snoc_nul.
    + right. assert (H : ~ In zero (a ++ [c])).
      { rewrite in_app_iff. simpl. intros [?|[?|[]]]; [tauto | congruence]. }
      split; [exact H | now apply c_str_nul_free].
Qed.

(** ** The decoder *)

Section DecoderFacts.

Variable codes : codes_t.
Hypothesis codes_ok : codewords_ok codes.

Lemma codeword_c_str c w : CharMap.find codes c = Some w -> c_str w = w.
Proof. intros H. apply c_str_nul_free, (codes_ok c w H). Qed.

Lemma unmatched_nil : unmatched codes [].
Proof.
  intros c w H. destruct (strcmp_eq w []) eqn:E; [|reflexivity].
  apply strcmp_eq_iff in E. rewrite (codeword_c_str c w H) in E.
  destruct (codes_ok c w H) as [Hne _]. simpl in E. contradiction.
Qed.

(** Against the empty accumulator the remaining entries never match. *)
Lemma match_loop_nil entries :
  (forall c w, In (c, w) entries -> CharMap.find codes c = Some w) ->
  match_loop entries [] = ([], []).
Proof.
  induction entries as [|[c w] entries IH]; intros Hin; simpl; [reflexivity|].
  rewrite (unmatched_nil c w) by (apply Hin; now left).
  apply IH. intros c' w' H. apply Hin. now right.
Qed.

Lemma match_loop_spec entries accum :
  (forall c w, In (c, w) entries -> CharMap.find codes c = Some w) ->
  (match_loop entries accum = (accum, [])
   /\ forall c w, In (c, w) entries -> strcmp_eq w accum = false)
  \/ (exists c w, In (c, w) entries /\ strcmp_eq w accum = true
                  /\ match_loop entries accum = ([], [c])).
Proof.
  induction entries as [|[c w] entries IH]; intros Hin; simpl.
  - left. split; [reflexivity|]. intros c w [].
  - destruct (strcmp_eq w accum) eqn:E.
    + right. exists c, w. split; [now left|]. split; [exact E|].
      rewrite match_loop_nil; [reflexivity|].
      intros c' w' H. apply Hin. now right.
    + destruct IH as [[H1 H2]|(c' & w' & H1 & H2 & H3)].
      * intros c' w' H. apply Hin. now right.
      * left. split; [exact H1|]. intros c' w' [H|H]; [congruence | eauto].
      * right. exists c', w'. split; [now right|]. now split.
Qed.

Lemma decode_step_spec accum c :
  unmatched codes accum ->
  (decode_step codes accum c = (accum ++ [c], [])
   /\ unmatched codes (accum ++ [c]))
  \/ (exists s, CharMap.find codes s = Some (accum ++ [c])
                /\ decode_step codes accum c = ([], [s])).
Proof.
  intros Hun. unfold decode_step.
  destruct (match_loop_spec (CharMap.elements codes) (accum ++ [c]))
    as [[H1 H2]|(s & w & H1 & H2 & H3)].
  - intros s w. apply CharMapFacts.in_elements.
  - left. split; [exact H1|]. intros s w H. apply (H2 s).
    now apply CharMapFacts.in_elements.
  - right. exists s. split; [|exact H3].
    apply CharMapFacts.in_elements in H1.
    apply strcmp_eq_iff in H2. rewrite (codeword_c_str s w H1) in H2.
    destruct (c_str_snoc accum c) as [E|[_ E]].
    + rewrite E in H2. pose proof (Hun s w H1) as Hf.
      assert (Ht : strcmp_eq w accum = true).
      { apply strcmp_eq_iff. now rewrite (codeword_c_str s w H1). }
      congruence.
    + rewrite E in H2. now subst w.
Qed.

(** An iteration writes at most one character, and then the accumulator
    is empty. *)
Lemma decode_step_emits accum c :
  (length (snd (decode_step codes accum c)) <= 1)%nat
  /\ (snd (decode_step codes accum c) <> [] ->
      fst (decode_step codes accum c) = []).
Proof.
  unfold decode_step.
  destruct (match_loop_spec (CharMap.elements codes) (accum ++ [c]))
    as [[H1 _]|(s & w & _ & _ & H3)].
  - intros s w. apply CharMapFacts.in_elements.
  - rewrite H1. simpl. split; [lia | congruence].
  - rewrite H3. simpl. split; [lia | reflexivity].
Qed.

Lemma decode_loop_read c rest accum :
  c <> eof_char ->
  decode_loop codes (c :: rest) accum =
  let '(accum', out) := decode_step codes accum c in
  let '(accum'', out') := decode_loop codes rest accum' in
  (accum'', out ++ out').
Proof.
  intros H. cbn [decode_loop].
  destruct (Ascii.eqb_spec c eof_char); [contradiction | reflexivity].
Qed.

Lemma decode_loop_sound bits :
  forall accum,
    ~ In eof_char bits ->
    unmatched codes accum ->
    flat_map (code_of codes) (snd (decode_loop codes bits accum))
      ++ fst (decode_loop codes bits accum) = accum ++ bits
    /\ unmatched codes (fst (decode_loop codes bits accum)).
Proof.
  induction bits as [|c bits IH]; intros accum Hno Hun.
  - simpl. rewrite app_nil_r. auto.
  - rewrite decode_loop_read by (intros E; apply Hno; now left).
    assert (Hno' : ~ In eof_char bits) by (intros H; apply Hno; now right).
    destruct (decode_step_spec accum c Hun) as [[E Hun']|(s & Hs & E)];
      rewrite E.
    + destruct (IH (accum ++ [c]) Hno' Hun') as [H1 H2].
      destruct (decode_loop codes bits (accum ++ [c])) as [a o].
      cbn [fst snd app] in *. rewrite H1, <- app_assoc. auto.
    + destruct (IH [] Hno' unmatched_nil) as [H1 H2].
      destruct (decode_loop codes bits []) as [a o].
      cbn [fst snd app flat_map] in *.
      unfold code_of at 1. rewrite (CharMapFacts.get_find [] codes s _ Hs).
      rewrite <- !app_assoc. cbn [app]. rewrite H1. auto.
Qed.

Hypothesis codes_prefix_free : prefix_free codes.
Hypothesis codes_no_eof :
  forall c w, CharMap.find codes c = Some w -> ~ In eof_char w.

(** The bits of one codeword, read from an accumulator that holds the
    beginning [u] of the codeword, write its symbol and nothing else. *)
Lemma decode_loop_codeword c w rest :
  CharMap.find codes c = Some w ->
  forall v u,
    w = u ++ v -> v <> [] -> unmatched codes u ->
    decode_loop codes (v ++ rest) u =
    (fst (decode_loop codes rest []), c :: snd (decode_loop codes rest [])).
Proof.
  intros Hc. induction v as [|x v IH]; intros u Hw Hv Hun; [contradiction|].
  cbn [app].
  rewrite decode_loop_read.
  2:{ intros E. apply (codes_no_eof c w Hc). rewrite Hw, E.
      apply in_or_app. right. now left. }
  assert (Hpre : prefix (u ++ [x]) w).
  { exists v. rewrite Hw, <- app_assoc. reflexivity. }
  destruct (decode_step_spec u x Hun) as [[E Hun']|(s & Hs & E)]; rewrite E.
  - destruct v as [|y v].
    + exfalso.
      assert (Ht : strcmp_eq w (u ++ [x]) = true).
      { apply strcmp_eq_iff. now rewrite Hw. }
      rewrite (Hun' c w Hc) in Ht. discriminate.
    + rewrite (IH (u ++ [x])); auto.
      * rewrite Hw, <- app_assoc. reflexivity.
      * discriminate.
  - assert (s = c).
    { destruct (ascii_dec s c) as [|Hne]; [assumption|].
      exfalso. exact (codes_prefix_free s c _ _ Hs Hc Hne Hpre). }
    subst s. rewrite Hc in Hs. inversion Hs as [Hw'].
    rewrite Hw in Hw'. apply app_inv_head in Hw'. inversion Hw'; subst v.
    cbn [app]. destruct (decode_loop codes rest []) as [a o]. reflexivity.
Qed.

(** Decoding the concatenated codewords of a text gives the text back. *)
Lemma decode_loop_complete text :
  (forall c, In c text -> CharMap.find codes c <> None) ->
  decode_loop codes (flat_map (code_of codes) text) [] = ([], text).
Proof.
  induction text as [|c text IH]; intros Hin; [reflexivity|].
  cbn [flat_map].
  destruct (CharMap.find codes c) as [w|] eqn:Hc;
    [|exfalso; apply (Hin c); [now left | assumption]].
  unfold code_of at 1. rewrite (CharMapFacts.get_find [] codes c w Hc).
  rewrite (decode_loop_codeword c w _ Hc w []); auto.
  - rewrite IH; [reflexivity|]. intros c' H. apply Hin. now right.
  - apply (codes_ok c w Hc).
  - apply unmatched_nil.
Qed.

End DecoderFacts.

(** Without a match the accumulator only grows, whatever the table. *)
Lemma decode_loop_unmatched_tail codes tail :
  forall accum,
    ~ In eof_char tail ->
    (forall k, (0 < k <= length tail)%nat ->
               unmatched codes (accum ++ firstn k tail)) ->
    decode_loop codes tail accum = (accum ++ tail, []).
Proof.
  induction tail as [|c tail IH]; intros accum Hno Hun.
  - simpl. now rewrite app_nil_r.
  - cbn [decode_loop].
    destruct (Ascii.eqb_spec c eof_char) as [E|_];
      [exfalso; apply Hno; now left|].
    assert (E : decode_step codes accum c = (accum ++ [c], [])).
    { unfold decode_step.
      pose proof (Hun 1%nat ltac:(simpl; lia)) as Hone. cbn [firstn] in Hone.
      assert (H : forall entries,
                 (forall s w, In (s, w) entries -> CharMap.find codes s = Some w) ->
                 match_loop entries (accum ++ [c]) = (accum ++ [c], [])).
      { induction entries as [|[s w] entries IHe]; intros Hin; simpl; [reflexivity|].
        rewrite (Hone s w) by (apply Hin; now left).
        apply IHe. intros s' w' H. apply Hin. now right. }
      apply H. intros s w. apply CharMapFacts.in_elements. }
    rewrite E, IH.
    + now rewrite <- app_assoc.
    + intros H. apply Hno. now right.
    + intros k Hk. rewrite <- app_assoc. apply (Hun (S k)). simpl. lia.
Qed.

Lemma decode_loop_app codes bits1 :
  forall bits2 accum,
    ~ In eof_char bits1 ->
    decode_loop codes (bits1 ++ bits2) accum =
    (fst (decode_loop codes bits2 (fst (decode_loop codes bits1 accum))),
     snd (decode_loop codes bits1 accum)
       ++ snd (decode_loop codes bits2 (fst (decode_loop codes bits1 accum)))).
Proof.
  induction bits1 as [|c bits1 IH]; intros bits2 accum Hno; cbn [app decode_loop].
  - simpl. now destruct (decode_loop codes bits2 accum).
  - destruct (Ascii.eqb_spec c eof_char) as [E|_];
      [exfalso; apply Hno; now left|].
    destruct (decode_step codes accum c) as [a1 o1].
    rewrite IH by (intros H; apply Hno; now right).
    destruct (decode_loop codes bits1 a1) as [a2 o2].
    cbn [fst snd]. now rewrite app_assoc.
Qed.

(** ** Loading the code table of an artifact *)

Lemma load_codes_fold_encoded (g : ascii -> cstring) ptable :
  forall (m : codes_t) c,
    CharMap.find
      (fold_left (fun codes '(c, _, code) => CharMap.set c (c_str code) codes)
                 (map (fun nd => (ch nd, p nd, g (ch nd))) ptable) m) c
    = if in_dec ascii_dec c (map ch ptable) then Some (c_str (g c))
      else CharMap.find m c.
Proof.
  induction ptable as [|a ptable IH]; intros m c; [reflexivity|].
  cbn [map fold_left]. rewrite IH.
  destruct (in_dec ascii_dec c (map ch ptable)) as [Hin|Hnin];
    destruct (in_dec ascii_dec c (ch a :: map ch ptable)) as [Hin'|Hnin'];
    try reflexivity.
  - exfalso. apply Hnin'. now right.
  - destruct Hin' as [->|Hin']; [|contradiction].
    apply CharMapFacts.find_set_same.
  - apply CharMapFacts.find_set_other. intros ->. apply Hnin'. now left.
Qed.

Lemma load_codes_encoded (g : ascii -> cstring) ptable c :
  CharMap.find (load_codes (map (fun nd => (ch nd, p nd, g (ch nd))) ptable)) c
  = if in_dec ascii_dec c (map ch ptable) then Some (c_str (g c)) else None.
Proof. unfold load_codes. apply load_codes_fold_encoded. Qed.

Lemma load_codes_no_nul rows c w :
  CharMap.find (load_codes rows) c = Some w -> ~ In zero w.
Proof.
  unfold load_codes.
  assert (H : forall (m : codes_t),
             (forall c w, CharMap.find m c = Some w -> ~ In zero w) ->
             forall c w,
               CharMap.find
                 (fold_left (fun codes '(c, _, code) => CharMap.set c (c_str code) codes)
                            rows m) c = Some w -> ~ In zero w).
  { induction rows as [|[[c0 p0] code0] rows IH]; intros m Hm c' w'; [apply Hm|].
    cbn [fold_left]. apply IH. intros c1 w1.
    destruct (ascii_dec c1 c0) as [->|Hne].
    - rewrite CharMapFacts.find_set_same. intros E. inversion E.
      apply c_str_has_no_nul.
    - rewrite CharMapFacts.find_set_other by exact Hne. apply Hm. }
  apply H. intros c' w' E. discriminate.
Qed.

(** ** The whole table *)

Lemma is_bit_not_nul w : Forall is_bit w -> ~ In zero w.
Proof.
  rewrite Forall_forall. intros H Hin. destruct (H _ Hin); discriminate.
Qed.

Lemma is_bit_not_eof w : Forall is_bit w -> ~ In eof_char w.
Proof.
  rewrite Forall_forall. intros H Hin. destruct (H _ Hin); discriminate.
Qed.

Lemma code_of_empty c : code_of CharMap.empty c = [].
Proof. reflexivity. Qed.

(** The top-level call [EncShannon( 0, tsize-1 )] on an empty code table. *)
Lemma EncShannon_top ptable fuel codes :
  NoDup (map ch ptable) -> regular ptable ->
  EncShannon ptable fuel 0 (tsize ptable - 1) CharMap.empty = Some codes ->
  (forall j k, 0 <= j < tsize ptable -> 0 <= k < tsize ptable -> j <> k ->
               ~ prefix (code_of codes (ch (ptable_at ptable j)))
                        (code_of codes (ch (ptable_at ptable k))))
  /\ (forall k, 0 <= k < tsize ptable ->
                Forall is_bit (code_of codes (ch (ptable_at ptable k)))).
Proof.
  intros Hnd Hreg Henc.
  destruct (Z.le_gt_cases 1 (tsize ptable)) as [Hne|He].
  - destruct (EncShannon_spec ptable fuel Hnd Hreg 0 (tsize ptable - 1)
                CharMap.empty codes ltac:(lia) ltac:(lia) ltac:(lia) Henc)
      as [sfx [H1 [_ [H3 H4]]]].
    split.
    + intros j k Hj Hk Hjk. rewrite !H1, !code_of_empty by lia. simpl.
      apply H4; lia.
    + intros k Hk. rewrite H1, code_of_empty by lia. simpl. apply H3. lia.
  - rewrite EncShannon_empty_range in Henc by lia. discriminate.
Qed.

Lemma Encode_unfold qsort fuel input :
  Encode qsort fuel input =
  match EncShannon (sorted_ptable qsort input) fuel 0 (alphabet_size input - 1)
                   CharMap.empty with
  | None => None
  | Some codes =>
      Some {| a_tsize := alphabet_size input;
              a_rows := map (fun nd => (ch nd, p nd, code_of codes (ch nd)))
                            (firstn (Z.to_nat (alphabet_size input))
                                    (sorted_ptable qsort input));
              a_bits := flat_map (code_of codes) input |}
  end.
Proof.
  unfold Encode, alphabet_size, sorted_ptable.
  now destruct (count_chars input).
Qed.

Lemma alphabet_size_tsize qsort input :
  qsort_contract qsort ->
  alphabet_size input = tsize (sorted_ptable qsort input).
Proof.
  intros Hq. unfold alphabet_size, CharMap.size, tsize.
  rewrite <- (Permutation_length (sorted_ptable_perm qsort Hq input)).
  unfold build_ptable. now rewrite length_map.
Qed.

Lemma Encode_inv qsort fuel input art :
  qsort_contract qsort ->
  Encode qsort fuel input = Some art ->
  exists codes,
    EncShannon (sorted_ptable qsort input) fuel 0
               (tsize (sorted_ptable qsort input) - 1) CharMap.empty = Some codes
    /\ a_tsize art = tsize (sorted_ptable qsort input)
    /\ a_rows art = map (fun nd => (ch nd, p nd, code_of codes (ch nd)))
                        (sorted_ptable qsort input)
    /\ a_bits art = flat_map (code_of codes) input.
Proof.
  intros Hq. rewrite Encode_unfold, (alphabet_size_tsize qsort input Hq).
  destruct (EncShannon (sorted_ptable qsort input) fuel 0 _ CharMap.empty)
    as [codes|]; [|discriminate].
  intros E. inversion E; subst. exists codes. cbn [a_tsize a_rows a_bits].
  unfold tsize. rewrite Nat2Z.id, firstn_all. repeat split.
Qed.

Lemma row_index ptable (codes : codes_t) c prob w :
  In (c, prob, w) (map (fun nd => (ch nd, p nd, code_of codes (ch nd))) ptable) ->
  exists k, 0 <= k < tsize ptable
            /\ c = ch (ptable_at ptable k)
            /\ w = code_of codes (ch (ptable_at ptable k)).
Proof.
  rewrite in_map_iff. intros [nd [E Hin]]. inversion E; subst.
  apply (In_nth _ _ {| ch := zero; p := F32.zero |}) in Hin.
  destruct Hin as [n [Hn <-]].
  exists (Z.of_nat n). unfold tsize, ptable_at. rewrite Nat2Z.id.
  split; [lia | split; reflexivity].
Qed.

Lemma chars_index ptable c :
  In c (map ch ptable) ->
  exists k, 0 <= k < tsize ptable /\ ch (ptable_at ptable k) = c.
Proof.
  intros H. apply (In_nth _ _ zero) in H. destruct H as [n [Hn E]].
  rewrite length_map in Hn. exists (Z.of_nat n). unfold tsize, ptable_at.
  split; [lia|]. rewrite Nat2Z.id.
  change zero with (ch {| ch := zero; p := F32.zero |}) in E.
  now rewrite map_nth in E.
Qed.

Lemma flat_map_ext_in {A B} (f g : A -> list B) l :
  (forall a, In a l -> f a = g a) -> flat_map f l = flat_map g l.
Proof.
  induction l as [|a l IH]; intros H; simpl; [reflexivity|].
  rewrite H by now left. f_equal. apply IH. intros b Hb. apply H. now right.
Qed.

(** The table [Decode] loads from the rows [Encode] wrote, when the
    builder returned on a table of at least two symbols. *)
Lemma loaded_table ptable fuel codes :
  NoDup (map ch ptable) -> regular ptable -> 2 <= tsize ptable ->
  EncShannon ptable fuel 0 (tsize ptable - 1) CharMap.empty = Some codes ->
  let table := load_codes (map (fun nd => (ch nd, p nd, code_of codes (ch nd)))
                               ptable) in
  (forall c, In c (map ch ptable) ->
             CharMap.find table c = Some (code_of codes c))
  /\ codewords_ok table
  /\ prefix_free table.
Proof.
  intros Hnd Hreg H2 Henc table.
  destruct (EncShannon_top ptable fuel codes Hnd Hreg Henc) as [Hpf Hbits].
  assert (Hin : forall c, In c (map ch ptable) ->
                          code_of codes c <> [] /\ ~ In zero (code_of codes c)).
  { intros c Hc. destruct (chars_index ptable c Hc) as [k [Hk <-]]. split.
    - destruct (EncShannon_grows ptable fuel 0 (tsize ptable - 1) CharMap.empty
                  codes Hnd ltac:(lia) ltac:(lia) ltac:(lia) Henc k ltac:(lia))
        as [b [rest [_ E]]].
      rewrite E. simpl. discriminate.
    - apply is_bit_not_nul, Hbits, Hk. }
  assert (Hfind : forall c, CharMap.find table c =
                            if in_dec ascii_dec c (map ch ptable)
                            then Some (code_of codes c) else None).
  { intros c. unfold table. rewrite (load_codes_encoded (code_of codes)).
    destruct (in_dec ascii_dec c (map ch ptable)) as [Hc|]; [|reflexivity].
    rewrite c_str_nul_free; [reflexivity | apply Hin, Hc]. }
  split; [|split].
  - intros c Hc. rewrite Hfind.
    destruct (in_dec ascii_dec c (map ch ptable)); [reflexivity | contradiction].
  - intros c w. rewrite Hfind.
    destruct (in_dec ascii_dec c (map ch ptable)) as [Hc|]; [|discriminate].
    intros E. inversion E. apply Hin, Hc.
  - intros c1 c2 w1 w2. rewrite !Hfind.
    destruct (in_dec ascii_dec c1 (map ch ptable)) as [Hc1|]; [|discriminate].
    destruct (in_dec ascii_dec c2 (map ch ptable)) as [Hc2|]; [|discriminate].
    intros E1 E2 Hne. inversion E1. inversion E2.
    destruct (chars_index ptable c1 Hc1) as [j [Hj <-]].
    destruct (chars_index ptable c2 Hc2) as [k [Hk <-]].
    apply Hpf; auto. intros ->. contradiction.
Qed.

(** No codeword of that table holds the byte at which the decoder stops
    reading. *)
Lemma loaded_table_no_eof ptable fuel codes :
  NoDup (map ch ptable) -> regular ptable ->
  EncShannon ptable fuel 0 (tsize ptable - 1) CharMap.empty = Some codes ->
  forall c w,
    CharMap.find (load_codes (map (fun nd => (ch nd, p nd, code_of codes (ch nd)))
                                  ptable)) c = Some w ->
    ~ In eof_char w.
Proof.
  intros Hnd Hreg Henc c w.
  destruct (EncShannon_top ptable fuel codes Hnd Hreg Henc) as [_ Hbits].
  rewrite (load_codes_encoded (code_of codes)).
  destruct (in_dec ascii_dec c (map ch ptable)) as [Hc|]; [|discriminate].
  intros E. inversion E.
  destruct (chars_index ptable c Hc) as [k [Hk <-]].
  rewrite c_str_nul_free by (apply is_bit_not_nul, Hbits, Hk).
  apply is_bit_not_eof, Hbits, Hk.
Qed.

(** Checks over the characters of a concrete bitstream. *)
Lemma no_char_check (x : ascii) (l : list ascii) :
  forallb (fun c => negb (Ascii.eqb c x)) l = true -> ~ In x l.
Proof.
  rewrite forallb_forall. intros H Hin. specialize (H x Hin).
  now rewrite Ascii.eqb_refl in H.
Qed.

(** Checks over the entries of a table, for concrete tables. *)
Lemma entries_check (codes : codes_t) (f : cstring -> bool) :
  forallb (fun e => f (snd e)) (CharMap.elements codes) = true ->
  forall c w, CharMap.find codes c = Some w -> f w = true.
Proof.
  rewrite forallb_forall. intros H c w Hf.
  apply CharMapFacts.in_elements in Hf. exact (H _ Hf).
Qed.

Lemma nonempty_check (codes : codes_t) :
  forallb (fun e => negb (cstring_eqb (snd e) [])) (CharMap.elements codes) = true ->
  forall c w, CharMap.find codes c = Some w -> w <> [].
Proof.
  intros H c w Hf ->.
  pose proof (entries_check codes (fun w => negb (cstring_eqb w [])) H c [] Hf).
  discriminate.
Qed.

Lemma unmatched_check (codes : codes_t) accum :
  forallb (fun e => negb (strcmp_eq (snd e) accum)) (CharMap.elements codes) = true ->
  unmatched codes accum.
Proof.
  intros H c w Hf.
  pose proof (entries_check codes (fun w => negb (strcmp_eq w accum)) H c w Hf) as E.
  now apply negb_true_iff in E.
Qed.

(** ** The loops of the builder and the specification's scan *)

Section SpecRefinement.

Variable ptable : list pnode.

Local Abbreviation dflt := {| ch := zero; p := F32.zero |}.







End SpecRefinement.

Lemma example_table_NoDup : NoDup (map ch example_table).
Proof.
  replace (map ch example_table)
    with (nodup ascii_dec (map ch example_table)) by reflexivity.
  apply NoDup_nodup.
Qed.

(** ** Sums of probabilities in binary32

    What the scan of [EncShannon] needs from float arithmetic: the
    probabilities are normal floats, a running sum of at most 256 of them
    never decreases and stays finite, and halving the total is exact. *)

Module F32Normal.

Lemma pow2_pos n : 0 <= n -> 0 < 2 ^ n.
Proof. intros. apply Z.pow_pos_nonneg; lia. Qed.

Lemma pow2_add a b : 0 <= a -> 0 <= b -> 2 ^ (a + b) = 2 ^ a * 2 ^ b.
Proof. intros. apply Z.pow_add_r; assumption. Qed.

Lemma pow2_le a b : a <= b -> 2 ^ a <= 2 ^ b.
Proof. intros. apply Z.pow_le_mono_r; lia. Qed.

Lemma pow2_lt_inv a b : 0 <= b -> 2 ^ a < 2 ^ b -> a < b.
Proof.
  intros Hb H. destruct (Z.lt_ge_cases a b) as [|Hge]; [assumption|].
  pose proof (pow2_le b a Hge). lia.
Qed.

Lemma digits_unique q d :
  2 ^ (d - 1) <= Zpos q < 2 ^ d -> Zpos (digits2_pos q) = d.
Proof.
  intros [Hlo Hhi]. destruct (RoundFacts.digits2_bounds q) as [Blo Bhi].
  set (d' := Zpos (digits2_pos q)) in *.
  assert (0 < d).
  { destruct (Z.lt_ge_cases 0 d) as [|Hd]; [assumption|].
    assert (2 ^ d <= 2 ^ 0) by (apply pow2_le; lia). simpl in *. lia. }
  destruct (Z.lt_trichotomy d' d) as [Hlt|[Heq|Hgt]]; [|assumption|].
  - pose proof (pow2_le d' (d - 1) ltac:(lia)). lia.
  - pose proof (pow2_le d (d' - 1) ltac:(lia)). lia.
Qed.

Lemma digits_div q n :
  0 <= n < Zpos (digits2_pos q) ->
  exists q', Zpos q / 2 ^ n = Zpos q'
             /\ Zpos (digits2_pos q') = Zpos (digits2_pos q) - n.
Proof.
  intros Hn. destruct (RoundFacts.digits2_bounds q) as [Blo Bhi].
  set (d := Zpos (digits2_pos q)) in *.
  pose proof (pow2_pos n ltac:(lia)) as Hp.
  assert (Hlo : 2 ^ (d - 1 - n) <= Zpos q / 2 ^ n).
  { apply Z.div_le_lower_bound; [assumption|].
    rewrite <- pow2_add by lia. replace (n + (d - 1 - n)) with (d - 1) by lia.
    assumption. }
  assert (Hhi : Zpos q / 2 ^ n < 2 ^ (d - n)).
  { apply Z.div_lt_upper_bound; [assumption|].
    rewrite <- pow2_add by lia. replace (n + (d - n)) with d by lia.
    assumption. }
  pose proof (pow2_pos (d - 1 - n) ltac:(lia)).
  destruct (Zpos q / 2 ^ n) as [|q'|q'] eqn:E; try lia.
  exists q'. split; [reflexivity|]. apply digits_unique.
  replace (d - n - 1) with (d - 1 - n) by lia. lia.
Qed.

Lemma digits_mono a b : Zpos a <= Zpos b -> Zpos (digits2_pos a) <= Zpos (digits2_pos b).
Proof.
  intros H. destruct (RoundFacts.digits2_bounds a) as [Alo _].
  destruct (RoundFacts.digits2_bounds b) as [_ Bhi].
  assert (2 ^ (Zpos (digits2_pos a) - 1) < 2 ^ Zpos (digits2_pos b)) by lia.
  apply pow2_lt_inv in H0; lia.
Qed.

Lemma shl_align_fst m e e' :
  e' <= e -> Zpos (fst (shl_align m e e')) = Zpos m * 2 ^ (e - e').
Proof.
  intros H. unfold shl_align. destruct (e' - e) as [|d|d] eqn:E; cbn [fst].
  - replace (e - e') with 0 by lia. simpl. lia.
  - lia.
  - rewrite RoundFacts.iter_xO_value. f_equal. f_equal. lia.
Qed.

Lemma normal_bounds m : normal m -> 2 ^ 23 <= Zpos m < 2 ^ 24.
Proof.
  unfold normal. intros H. pose proof (RoundFacts.digits2_bounds m) as B.
  rewrite H in B. exact B.
Qed.

Lemma normal_of_bounds m : 2 ^ 23 <= Zpos m < 2 ^ 24 -> normal m.
Proof. intros H. apply digits_unique. exact H. Qed.

(** Rounding a mantissa of at least 24 digits, away from the subnormal
    range: the result has a 24-digit mantissa and is at most one unit of
    the last place above the value rounded. *)
Lemma round_normal sx Mp ez l :
  24 <= Zpos (digits2_pos Mp) -> -149 <= ez ->
  exists m3 e3,
    normal m3
    /\ ez + Zpos (digits2_pos Mp) - 24 <= e3 <= ez + Zpos (digits2_pos Mp) - 23
    /\ (e3 = ez + Zpos (digits2_pos Mp) - 24 ->
        Zpos Mp / 2 ^ (Zpos (digits2_pos Mp) - 24) <= Zpos m3)
    /\ Zpos m3 * 2 ^ (e3 - ez) <= Zpos Mp + 2 ^ (Zpos (digits2_pos Mp) - 24)
    /\ binary_round_aux F32.prec F32.emax sx (Zpos Mp) ez l
       = if e3 <=? 104 then S754_finite sx m3 e3 else S754_infinity sx.
Proof.
  intros Hd Hez.
  destruct (RoundFacts.binary_round_aux_spec sx (Zpos Mp) ez l ltac:(lia))
    as (m1 & m2 & m3 & e1 & e3 & H1 & He1 & H2 & H3 & He3 & ->).
  unfold fexp, emin, F32.prec, F32.emax in *. cbn [Zdigits2] in *.
  set (d := Zpos (digits2_pos Mp)) in *.
  replace (Z.max 0 (Z.max (d + ez - 24) (3 - 128 - 24) - ez)) with (d - 24)
    in H1, He1 by lia.
  destruct (digits_div Mp (d - 24) ltac:(fold d; lia)) as [q1 [Eq1 Dq1]].
  fold d in Dq1. rewrite Eq1 in H1.
  assert (Nq1 : normal q1) by (unfold normal; lia).
  pose proof (normal_bounds q1 Nq1) as Bq1.
  assert (Hmul : Zpos q1 * 2 ^ (d - 24) <= Zpos Mp).
  { rewrite <- Eq1. rewrite Z.mul_comm. apply Z.mul_div_le.
    apply pow2_pos. lia. }
  subst m1. destruct m2 as [|q2|q2]; try lia.
  cbn [Zdigits2] in *.
  destruct (Z.eq_dec (Zpos q2) (2 ^ 24)) as [E24|N24].
  - (* the round-up to 2^24: one more shift *)
    assert (D2 : Zpos (digits2_pos q2) = 25).
    { apply digits_unique. rewrite E24. simpl. lia. }
    rewrite D2 in H3, He3.
    replace (Z.max 0 (Z.max (25 + e1 - 24) (3 - 128 - 24) - e1)) with 1
      in H3, He3 by lia.
    rewrite E24 in H3. change (2 ^ 24 / 2 ^ 1) with (Zpos 8388608) in H3.
    subst m3. exists 8388608%positive, e3.
    split; [reflexivity|]. split; [lia|]. split; [lia|].
    split; [|reflexivity].
    replace (e3 - ez) with (1 + (d - 24)) by lia.
    rewrite pow2_add by lia.
    assert (Zpos q1 = 2 ^ 24 - 1) by lia.
    assert (0 < 2 ^ (d - 24)) by (apply pow2_pos; lia).
    change (2 ^ 1) with 2. change (Zpos 8388608) with (2 ^ 23).
    change (2 ^ 24) with (2 * 2 ^ 23) in *. nia.
  - assert (D2 : Zpos (digits2_pos q2) = 24).
    { apply digits_unique. simpl in *. lia. }
    rewrite D2 in H3, He3.
    replace (Z.max 0 (Z.max (24 + e1 - 24) (3 - 128 - 24) - e1)) with 0
      in H3, He3 by lia.
    change (2 ^ 0) with 1 in H3. rewrite Z.div_1_r in H3. subst m3.
    exists q2, e3. split; [exact D2|]. split; [lia|]. split; [lia|].
    split; [|reflexivity].
    replace (e3 - ez) with (d - 24) by lia.
    assert (0 < 2 ^ (d - 24)) by (apply pow2_pos; lia). nia.
Qed.

Lemma of_Z_normal z :
  0 < z < 2 ^ 32 ->
  exists m e, F32.of_Z z = S754_finite false m e /\ normal m /\ -23 <= e <= 9.
Proof.
  intros Hz. destruct z as [|mp|mp]; try lia.
  unfold F32.of_Z, binary_normalize, binary_round.
  pose proof (RoundFacts.digits2_le mp 32 (proj2 Hz) ltac:(lia)) as Hd.
  destruct (RoundFacts.digits2_bounds mp) as [Blo Bhi].
  set (d := Zpos (digits2_pos mp)) in *.
  assert (Hd1 : 1 <= d) by (subst d; lia).
  assert (Hf : fexp F32.prec F32.emax (d + 0) = d - 24)
    by (unfold fexp, emin, F32.prec, F32.emax; lia).
  rewrite Hf. unfold shl_align.
  destruct (d - 24 - 0) as [|k|k] eqn:Ek.
  - destruct (round_normal false mp 0 loc_Exact ltac:(fold d; lia) ltac:(lia))
      as (m3 & e3 & N3 & He3 & _ & _ & ->). fold d in He3.
    destruct (Z.leb_spec e3 104); [|lia]. exists m3, e3. repeat split; auto; lia.
  - destruct (round_normal false mp 0 loc_Exact ltac:(fold d; lia) ltac:(lia))
      as (m3 & e3 & N3 & He3 & _ & _ & ->). fold d in He3.
    destruct (Z.leb_spec e3 104); [|lia]. exists m3, e3. repeat split; auto; lia.
  - assert (Dz : Zpos (digits2_pos (Pos.iter xO mp k)) = 24).
    { apply digits_unique. rewrite RoundFacts.iter_xO_value.
      assert (E1 : 2 ^ (24 - 1) = 2 ^ (d - 1) * 2 ^ Zpos k)
        by (rewrite <- pow2_add by lia; f_equal; lia).
      assert (E2 : 2 ^ 24 = 2 ^ d * 2 ^ Zpos k)
        by (rewrite <- pow2_add by lia; f_equal; lia).
      rewrite E1, E2. pose proof (pow2_pos (Zpos k) ltac:(lia)). nia. }
    destruct (round_normal false (Pos.iter xO mp k) (d - 24) loc_Exact
                ltac:(lia) ltac:(lia))
      as (m3 & e3 & N3 & He3 & _ & _ & ->). rewrite Dz in He3.
    destruct (Z.leb_spec e3 104); [|lia]. exists m3, e3. repeat split; auto; lia.
Qed.

Lemma div_normal mc ec mt et :
  normal mc -> normal mt -> -23 <= ec <= 9 -> -23 <= et <= 9 ->
  exists m e,
    F32.div (S754_finite false mc ec) (S754_finite false mt et)
    = S754_finite false m e
    /\ normal m /\ -56 <= e <= 10.
Proof.
  intros Nc Nt Hec Het. unfold F32.div, SFdiv, SFdiv_core_binary.
  cbn [Zdigits2]. rewrite Nc, Nt.
  assert (Hf : Z.min (fexp F32.prec F32.emax (24 + ec - (24 + et))) (ec - et)
               = ec - et - 24)
    by (unfold fexp, emin, F32.prec, F32.emax; lia).
  rewrite Hf. replace (ec - et - (ec - et - 24)) with 24 by lia.
  cbv beta iota zeta.
  pose proof (normal_bounds mc Nc) as Bc. pose proof (normal_bounds mt Nt) as Bt.
  assert (Hsh : Z.shiftl (Zpos mc) 24 = Zpos mc * 2 ^ 24)
    by (apply Z.shiftl_mul_pow2; lia).
  rewrite Hsh.
  pose proof (Z.div_eucl_eq (Zpos mc * 2 ^ 24) (Zpos mt) ltac:(lia)) as Heq.
  pose proof (Z.mod_pos_bound (Zpos mc * 2 ^ 24) (Zpos mt) ltac:(lia)) as Hmod.
  unfold Z.modulo in Hmod.
  destruct (Z.div_eucl (Zpos mc * 2 ^ 24) (Zpos mt)) as [q r].
  assert (Hq : 2 ^ 23 <= q < 2 ^ 25).
  { change (2 ^ 25) with (2 * 2 ^ 24). change (2 ^ 24) with (2 * 2 ^ 23) in *.
    nia. }
  destruct q as [|qp|qp]; try (simpl in Hq; lia).
  assert (Dq : 24 <= Zpos (digits2_pos qp) <= 25).
  { split.
    - change 24 with (Zpos (digits2_pos 8388608)). apply digits_mono.
      change (Zpos 8388608) with (2 ^ 23). lia.
    - apply RoundFacts.digits2_le; lia. }
  destruct (round_normal (xorb false false) qp (ec - et - 24)
              (new_location (Zpos mt) r) ltac:(lia) ltac:(lia))
    as (m3 & e3 & N3 & He3 & _ & _ & ->).
  destruct (Z.leb_spec e3 104); [|lia]. exists m3, e3. repeat split; auto; lia.
Qed.

(** Arithmetic of the rounding of a sum, on its own. *)
Lemma round_up_bound A M P :
  A <= M + P -> 8388608 * P <= M -> 8388608 * A <= 8388609 * M.
Proof. lia. Qed.

Lemma scaled_le a b c : 0 <= c -> a <= b -> a * c <= b * c.
Proof. intros. now apply Z.mul_le_mono_nonneg_r. Qed.

Lemma add_normal mx ex my ey :
  normal mx -> normal my -> -56 <= ex -> -56 <= ey ->
  Zpos mx * 2 ^ (ex + 56) + Zpos my * 2 ^ (ey + 56) <= 2 ^ 100 ->
  exists m e,
    F32.add (S754_finite false mx ex) (S754_finite false my ey)
    = S754_finite false m e
    /\ normal m /\ ex <= e /\ (e = ex -> Zpos mx <= Zpos m)
    /\ 2 ^ 23 * (Zpos m * 2 ^ (e + 56))
       <= (2 ^ 23 + 1) * (Zpos mx * 2 ^ (ex + 56) + Zpos my * 2 ^ (ey + 56)).
Proof.
  intros Nx Ny Hex Hey Hsum. unfold F32.add, SFadd. cbn [cond_Zopp].
  set (ez := Z.min ex ey).
  assert (Hzx : ez <= ex) by (subst ez; lia).
  assert (Hzy : ez <= ey) by (subst ez; lia).
  assert (Hz : -56 <= ez) by (subst ez; lia).
  clearbody ez.
  pose proof (shl_align_fst mx ex ez Hzx) as Ax.
  pose proof (shl_align_fst my ey ez Hzy) as Ay.
  set (ax := fst (shl_align mx ex ez)) in *.
  set (ay := fst (shl_align my ey ez)) in *.
  clearbody ax ay.
  change (Zpos ax + Zpos ay) with (Zpos (ax + ay)).
  unfold binary_normalize, binary_round.
  pose proof (normal_bounds mx Nx) as Bx. pose proof (normal_bounds my Ny) as By.
  assert (Px : 0 < 2 ^ (ex - ez)) by (apply pow2_pos; lia).
  assert (Py : 0 < 2 ^ (ey - ez)) by (apply pow2_pos; lia).
  assert (HM : Zpos (ax + ay) = Zpos mx * 2 ^ (ex - ez) + Zpos my * 2 ^ (ey - ez))
    by (rewrite Pos2Z.inj_add, Ax, Ay; reflexivity).
  set (Mp := (ax + ay)%positive) in *. clearbody Mp. clear Ax Ay ax ay.
  assert (Hgx : Zpos mx * 2 ^ (ex - ez) <= Zpos Mp).
  { rewrite HM. assert (0 <= Zpos my * 2 ^ (ey - ez)) by (apply Z.mul_nonneg_nonneg; lia).
    lia. }
  assert (Hgy : Zpos my * 2 ^ (ey - ez) <= Zpos Mp).
  { rewrite HM. assert (0 <= Zpos mx * 2 ^ (ex - ez)) by (apply Z.mul_nonneg_nonneg; lia).
    lia. }
  destruct (RoundFacts.digits2_bounds Mp) as [Mlo Mhi].
  set (d := Zpos (digits2_pos Mp)) in *.
  assert (Hdx : 24 + (ex - ez) <= d).
  { assert (H : 2 ^ (23 + (ex - ez)) < 2 ^ d).
    { rewrite pow2_add by lia. eapply Z.le_lt_trans; [|exact Mhi].
      eapply Z.le_trans; [|exact Hgx]. apply scaled_le; lia. }
    apply pow2_lt_inv in H; [lia | subst d; lia]. }
  assert (Hdy : 24 + (ey - ez) <= d).
  { assert (H : 2 ^ (23 + (ey - ez)) < 2 ^ d).
    { rewrite pow2_add by lia. eapply Z.le_lt_trans; [|exact Mhi].
      eapply Z.le_trans; [|exact Hgy]. apply scaled_le; lia. }
    apply pow2_lt_inv in H; [lia | subst d; lia]. }
  assert (Hf : fexp F32.prec F32.emax (d + ez) = d + ez - 24)
    by (unfold fexp, emin, F32.prec, F32.emax; clear - Hdx Hzx Hz; lia).
  rewrite Hf.
  assert (Hal : shl_align Mp ez (d + ez - 24) = (Mp, ez)).
  { unfold shl_align. destruct (d + ez - 24 - ez) eqn:Ek; try reflexivity.
    clear - Ek Hdx Hzx. lia. }
  rewrite Hal.
  destruct (round_normal false Mp ez loc_Exact
              ltac:(fold d; clear - Hdx Hzx; lia) ltac:(clear - Hz; lia))
    as (m3 & e3 & N3 & He3 & Hlow & Hup & ->). fold d in He3, Hlow, Hup.
  pose proof (normal_bounds m3 N3) as B3.
  assert (Hd24 : 0 <= d - 24) by (clear - Hdx Hzx; lia).
  assert (He3z : 0 <= e3 - ez) by (clear - He3 Hd24; lia).
  assert (Pz : 0 < 2 ^ (ez + 56)) by (apply pow2_pos; clear - Hz; lia).
  assert (Hulp : 2 ^ 23 * 2 ^ (d - 24) <= Zpos Mp).
  { rewrite <- pow2_add by (clear - Hd24; lia).
    replace (23 + (d - 24)) with (d - 1) by (clear; lia). exact Mlo. }
  assert (Hval0 : 2 ^ 23 * (Zpos m3 * 2 ^ (e3 - ez)) <= (2 ^ 23 + 1) * Zpos Mp).
  { change (2 ^ 23 + 1) with 8388609. change (2 ^ 23) with 8388608 in Hulp |- *.
    exact (round_up_bound _ _ _ Hup Hulp). }
  assert (Sx : Zpos mx * 2 ^ (ex + 56) = Zpos mx * 2 ^ (ex - ez) * 2 ^ (ez + 56)).
  { rewrite <- Z.mul_assoc, <- pow2_add by (clear - Hzx Hz; lia).
    do 2 f_equal. clear; lia. }
  assert (Sy : Zpos my * 2 ^ (ey + 56) = Zpos my * 2 ^ (ey - ez) * 2 ^ (ez + 56)).
  { rewrite <- Z.mul_assoc, <- pow2_add by (clear - Hzy Hz; lia).
    do 2 f_equal. clear; lia. }
  assert (S3 : Zpos m3 * 2 ^ (e3 + 56) = Zpos m3 * 2 ^ (e3 - ez) * 2 ^ (ez + 56)).
  { rewrite <- Z.mul_assoc, <- pow2_add by (clear - He3z Hz; lia).
    do 2 f_equal. clear; lia. }
  assert (SM : Zpos mx * 2 ^ (ex + 56) + Zpos my * 2 ^ (ey + 56)
               = Zpos Mp * 2 ^ (ez + 56)).
  { rewrite Sx, Sy, HM. ring. }
  assert (Hval : 2 ^ 23 * (Zpos m3 * 2 ^ (e3 + 56))
                 <= (2 ^ 23 + 1)
                    * (Zpos mx * 2 ^ (ex + 56) + Zpos my * 2 ^ (ey + 56))).
  { rewrite SM, S3, !Z.mul_assoc. apply scaled_le; [clear - Pz; lia|].
    rewrite <- Z.mul_assoc. exact Hval0. }
  assert (He3' : e3 <= 104).
  { assert (Hlt : 2 ^ (23 + (e3 + 56)) < 2 ^ (24 + 100)).
    { rewrite !pow2_add by (clear - He3z Hz; lia).
      assert (Pe : 0 < 2 ^ (e3 + 56)) by (apply pow2_pos; clear - He3z Hz; lia).
      assert (H1 : 2 ^ 23 * 2 ^ (e3 + 56) <= 2 ^ 23 * (Zpos m3 * 2 ^ (e3 + 56))).
      { apply Z.mul_le_mono_nonneg_l; [clear; lia|].
        rewrite <- (Z.mul_1_l (2 ^ (e3 + 56))) at 1.
        apply scaled_le; [clear - Pe; lia | clear; lia]. }
      assert (H2 : (2 ^ 23 + 1) * (Zpos mx * 2 ^ (ex + 56) + Zpos my * 2 ^ (ey + 56))
                   <= (2 ^ 23 + 1) * 2 ^ 100).
      { apply Z.mul_le_mono_nonneg_l; [clear; lia | exact Hsum]. }
      assert (H3 : (2 ^ 23 + 1) * 2 ^ 100 < 2 ^ 24 * 2 ^ 100) by reflexivity.
      eapply Z.le_lt_trans; [exact H1|].
      eapply Z.le_lt_trans; [exact Hval|].
      eapply Z.le_lt_trans; [exact H2 | exact H3]. }
    apply pow2_lt_inv in Hlt; [clear - Hlt; lia | clear; lia]. }
  destruct (Z.leb_spec e3 104) as [_|C]; [|clear - C He3'; lia].
  exists m3, e3. split; [reflexivity|]. split; [exact N3|].
  split; [clear - He3 Hdx; lia|]. split; [|exact Hval].
  intros E. assert (Hd24' : d - 24 = ex - ez) by (clear - E He3 Hdx; lia).
  assert (Hlow' : Zpos Mp / 2 ^ (d - 24) <= Zpos m3)
    by (apply Hlow; clear - E Hd24'; lia).
  rewrite Hd24' in Hlow'.
  eapply Z.le_trans; [|exact Hlow'].
  apply Z.div_le_lower_bound; [exact Px|]. rewrite Z.mul_comm. exact Hgx.
Qed.

Lemma shr_1_even z :
  0 < z ->
  shr_1 {| shr_m := 2 * z; shr_r := false; shr_s := false |}
  = {| shr_m := z; shr_r := false; shr_s := false |}.
Proof. intros Hz. destruct z as [|q|q]; try lia. reflexivity. Qed.

Lemma iter_shr_1_exact n :
  forall z, 0 < z ->
    iter_pos shr_1 n {| shr_m := z * 2 ^ Zpos n; shr_r := false; shr_s := false |}
    = {| shr_m := z; shr_r := false; shr_s := false |}.
Proof.
  induction n as [n IH|n IH|]; intros z Hz; cbn [iter_pos].
  - replace (z * 2 ^ Zpos n~1) with (2 * ((z * 2 ^ Zpos n) * 2 ^ Zpos n)).
    + pose proof (pow2_pos (Zpos n) ltac:(lia)).
      rewrite shr_1_even by nia. rewrite IH by nia. now apply IH.
    + rewrite (Pos2Z.inj_xI n).
      replace (2 * Zpos n + 1) with (1 + Zpos n + Zpos n) by lia.
      rewrite !pow2_add by lia. change (2 ^ 1) with 2. ring.
  - replace (z * 2 ^ Zpos n~0) with ((z * 2 ^ Zpos n) * 2 ^ Zpos n).
    + pose proof (pow2_pos (Zpos n) ltac:(lia)).
      rewrite IH by nia. now apply IH.
    + rewrite (Pos2Z.inj_xO n).
      replace (2 * Zpos n) with (Zpos n + Zpos n) by lia.
      rewrite pow2_add by lia. ring.
  - change (2 ^ 1) with 2. rewrite Z.mul_comm. now apply shr_1_even.
Qed.

(** Halving a normal float is exact: the exponent goes down by one. *)
Lemma mul_half_normal m e :
  normal m -> -100 <= e <= 104 ->
  F32.mul (S754_finite false m e) F32.half = S754_finite false m (e - 1).
Proof.
  intros Nm He. unfold F32.mul, F32.half, SFmul, binary_round_aux.
  pose proof (normal_bounds m Nm) as Bm.
  assert (Dm : Zpos (digits2_pos (m * 8388608)) = 47).
  { apply digits_unique. rewrite Pos2Z.inj_mul.
    change (Zpos 8388608) with (2 ^ 23).
    change (2 ^ (47 - 1)) with (2 ^ 23 * 2 ^ 23).
    change (2 ^ 47) with (2 ^ 24 * 2 ^ 23). lia. }
  unfold shr_fexp at 1. cbn [Zdigits2]. rewrite Dm.
  replace (fexp F32.prec F32.emax (47 + (e + -24)) - (e + -24)) with 23
    by (unfold fexp, emin, F32.prec, F32.emax; lia).
  cbn [shr_record_of_loc shr].
  rewrite Pos2Z.inj_mul. change (Zpos 8388608) with (2 ^ Zpos 23).
  rewrite iter_shr_1_exact by lia.
  cbn [shr_m loc_of_shr_record round_nearest_even].
  unfold shr_fexp. cbn [Zdigits2]. rewrite Nm.
  replace (fexp F32.prec F32.emax (24 + (e + -24 + 23)) - (e + -24 + 23)) with 0
    by (unfold fexp, emin, F32.prec, F32.emax; lia).
  cbn [shr_record_of_loc shr shr_m xorb].
  replace (e + -24 + 23) with (e - 1) by lia.
  destruct (Z.leb_spec (e - 1) (F32.emax - F32.prec)) as [|H];
    [reflexivity | unfold F32.emax, F32.prec in H; lia].
Qed.

Lemma leb_rank x y :
  F32.is_nan x = false -> F32.is_nan y = false ->
  (F32.leb x y = true <-> ~ rank_lt (float_rank y) (float_rank x)).
Proof.
  intros Hx Hy. unfold F32.leb, SFleb.
  destruct x as [sx|sx| |sx mx ex]; try discriminate;
  destruct y as [sy|sy| |sy my ey]; try discriminate;
  try destruct sx; try destruct sy; simpl;
  try (split; [intros _; lia | reflexivity]);
  try (split; [discriminate | lia]).
  - change (Pos.compare_cont Eq mx my) with (Pos.compare mx my).
    destruct (Z.compare_spec ex ey); destruct (Pos.compare_spec mx my);
      simpl; split; intros; try discriminate; try reflexivity; lia.
  - change (Pos.compare_cont Eq mx my) with (Pos.compare mx my).
    destruct (Z.compare_spec ex ey); destruct (Pos.compare_spec mx my);
      simpl; split; intros; try discriminate; try reflexivity; lia.
Qed.

Lemma good_prob_value m e :
  normal m -> -56 <= e <= 10 -> Zpos m * 2 ^ (e + 56) <= 2 ^ 90.
Proof.
  intros Nm He. pose proof (normal_bounds m Nm) as Bm.
  assert (2 ^ (e + 56) <= 2 ^ 66) by (apply pow2_le; lia).
  pose proof (pow2_pos (e + 56) ltac:(lia)).
  change (2 ^ 90) with (2 ^ 24 * 2 ^ 66).
  apply Z.mul_le_mono_nonneg; lia.
Qed.

Lemma good_sum_first x : good_prob x -> good_sum 1 (F32.add F32.zero x).
Proof.
  intros (m & e & -> & Nm & He). exists m, e.
  split; [reflexivity|]. split; [exact Nm|]. split; [lia|].
  pose proof (good_prob_value m e Nm He). lia.
Qed.

Lemma good_sum_next j x y :
  1 <= j <= 256 -> good_sum j x -> good_prob y ->
  good_sum (j + 1) (F32.add x y)
  /\ ~ rank_lt (float_rank (F32.add x y)) (float_rank x).
Proof.
  intros Hj (mx & ex & -> & Nx & Hex & Vx) (my & ey & -> & Ny & Hey).
  pose proof (good_prob_value my ey Ny Hey) as Vy.
  assert (Hsum : Zpos mx * 2 ^ (ex + 56) + Zpos my * 2 ^ (ey + 56) <= 2 ^ 100).
  { change (2 ^ 100) with (1024 * 2 ^ 90).
    pose proof (pow2_pos 90 ltac:(lia)). nia. }
  destruct (add_normal mx ex my ey Nx Ny Hex ltac:(lia) Hsum)
    as (m & e & -> & Nm & Hle & Hm & Hval).
  split.
  - exists m, e. split; [reflexivity|]. split; [exact Nm|]. split; [lia|].
    set (V := Zpos m * 2 ^ (e + 56)) in *.
    set (S := Zpos mx * 2 ^ (ex + 56) + Zpos my * 2 ^ (ey + 56)) in *.
    set (B := 2 ^ 90) in *.
    assert (HB : 0 < B) by (subst B; apply pow2_pos; lia).
    assert (HS : S <= (2 * j + 1) * B) by lia.
    change (2 ^ 23) with 8388608 in Hval.
    assert (8388608 * V <= 8388609 * ((2 * j + 1) * B)) by nia.
    nia.
  - simpl. lia.
Qed.

Section GoodTable.

Variable ptable : list pnode.
Hypothesis entries_good :
  forall k, 0 <= k < tsize ptable -> good_prob (p (ptable_at ptable k)).
Hypothesis at_most_256 : tsize ptable <= 256.

Lemma sum_loop_snoc n :
  forall i acc,
    sum_loop ptable (S n) i acc
    = F32.add (sum_loop ptable n i acc) (p (ptable_at ptable (i + Z.of_nat n))).
Proof.
  induction n as [|n IH]; intros i acc.
  - simpl. now rewrite Z.add_0_r.
  - change (sum_loop ptable (S (S n)) i acc)
      with (sum_loop ptable (S n) (i + 1) (F32.add acc (p (ptable_at ptable i)))).
    rewrite IH. cbn [sum_loop]. do 2 f_equal. f_equal. lia.
Qed.

Lemma running_first li :
  running ptable li li = F32.add F32.zero (p (ptable_at ptable li)).
Proof.
  unfold running, iterations. replace (Z.to_nat (li - li + 1)) with 1%nat by lia.
  reflexivity.
Qed.

Lemma running_next li k :
  li <= k ->
  running ptable li (k + 1)
  = F32.add (running ptable li k) (p (ptable_at ptable (k + 1))).
Proof.
  intros H. unfold running, iterations.
  replace (Z.to_nat (k + 1 - li + 1)) with (S (Z.to_nat (k - li + 1))) by lia.
  rewrite sum_loop_snoc. do 2 f_equal. f_equal. lia.
Qed.

Lemma running_good li :
  0 <= li ->
  forall n : nat,
    li + Z.of_nat n < tsize ptable ->
    good_sum (Z.of_nat n + 1) (running ptable li (li + Z.of_nat n)).
Proof.
  intros Hli. induction n as [|n IH]; intros Hn.
  - rewrite Z.add_0_r, running_first. apply good_sum_first, entries_good. lia.
  - replace (li + Z.of_nat (S n)) with (li + Z.of_nat n + 1) by lia.
    rewrite running_next by lia.
    replace (Z.of_nat (S n) + 1) with (Z.of_nat n + 1 + 1) by lia.
    apply good_sum_next; [lia | apply IH; lia | apply entries_good; lia].
Qed.

Lemma running_good_at li k :
  0 <= li -> li <= k -> k < tsize ptable ->
  good_sum (k - li + 1) (running ptable li k).
Proof.
  intros Hli Hle Hk.
  pose proof (running_good li Hli (Z.to_nat (k - li)) ltac:(lia)) as H.
  replace (li + Z.of_nat (Z.to_nat (k - li))) with k in H by lia.
  replace (Z.of_nat (Z.to_nat (k - li)) + 1) with (k - li + 1) in H by lia.
  exact H.
Qed.

Lemma running_mono li k :
  0 <= li -> li <= k -> k + 1 < tsize ptable ->
  ~ rank_lt (float_rank (running ptable li (k + 1)))
            (float_rank (running ptable li k)).
Proof.
  intros Hli Hle Hk. rewrite running_next by lia.
  apply (good_sum_next (k - li + 1)); [lia | | apply entries_good; lia].
  apply running_good_at; lia.
Qed.

Lemma good_sum_not_nan j x : good_sum j x -> F32.is_nan x = false.
Proof. intros (m & e & -> & _). reflexivity. Qed.

(** On a table of good probabilities every scan is regular. *)
Lemma good_table_regular : regular ptable.
Proof.
  intros li ri Hli Hle Hri.
  destruct (running_good_at li ri Hli ltac:(lia) Hri)
    as (mr & er & Er & Nr & Her & Vr).
  assert (Her' : er <= 104).
  { pose proof (normal_bounds mr Nr) as Br.
    assert (Hlt : 2 ^ (23 + (er + 56)) < 2 ^ (24 + 100)).
    { rewrite !pow2_add by lia.
      pose proof (pow2_pos (er + 56) ltac:(lia)).
      assert (2 ^ 23 * 2 ^ (er + 56) <= Zpos mr * 2 ^ (er + 56))
        by (apply Z.mul_le_mono_nonneg_r; lia).
      assert (2 * (ri - li + 1) * 2 ^ 90 <= 512 * 2 ^ 90).
      { apply Z.mul_le_mono_nonneg_r; [apply Z.pow_nonneg; lia | lia]. }
      assert (512 * 2 ^ 90 < 2 ^ 24 * 2 ^ 100) by reflexivity.
      lia. }
    apply pow2_lt_inv in Hlt; lia. }
  assert (Ehalf : F32.mul (running ptable li ri) F32.half
                  = S754_finite false mr (er - 1)).
  { rewrite Er. apply mul_half_normal; [exact Nr | lia]. }
  assert (Hbit : forall k, li <= k <= ri ->
             (scan_bit ptable li ri k = true <->
              rank_lt (1, er - 1, Zpos mr) (float_rank (running ptable li k)))).
  { intros k Hk. unfold scan_bit. rewrite Ehalf, negb_true_iff.
    pose proof (good_sum_not_nan _ _ (running_good_at li k Hli ltac:(lia) ltac:(lia)))
      as Hnan.
    pose proof (leb_rank (running ptable li k) (S754_finite false mr (er - 1))
                  Hnan eq_refl) as L.
    cbn [float_rank] in L.
    destruct (F32.leb (running ptable li k) (S754_finite false mr (er - 1))).
    - split; [discriminate|]. intros C. exfalso. apply (proj1 L eq_refl C).
    - split; [|reflexivity]. intros _.
      destruct (float_rank (running ptable li k)) as [[a b] c] eqn:Ek.
      destruct L as [_ L].
      assert (Hd : {rank_lt (1, er - 1, Zpos mr) (a, b, c)}
                   + {~ rank_lt (1, er - 1, Zpos mr) (a, b, c)}).
      { unfold rank_lt.
        destruct (Z_lt_dec 1 a); [left; lia|].
        destruct (Z.eq_dec 1 a); [|right; lia].
        destruct (Z_lt_dec (er - 1) b); [left; lia|].
        destruct (Z.eq_dec (er - 1) b); [|right; lia].
        destruct (Z_lt_dec (Zpos mr) c); [left; lia | right; lia]. }
      destruct Hd as [Hd|Hd]; [exact Hd|]. specialize (L Hd). discriminate. }
  split.
  - intros k Hk Hb. apply Hbit; [lia|]. apply Hbit in Hb; [|lia].
    pose proof (running_mono li k Hli ltac:(lia) ltac:(lia)) as Hm.
    destruct (float_rank (running ptable li k)) as [[a b] c].
    destruct (float_rank (running ptable li (k + 1))) as [[a' b'] c'].
    simpl in *. lia.
  - apply Hbit; [lia|]. rewrite Er. simpl. lia.
Qed.

End GoodTable.

End F32Normal.

(** ** The probability table of an input is regular *)

Lemma build_ptable_good input nd :
  Z.of_nat (length input) < 2 ^ 31 ->
  In nd (build_ptable (fst (count_chars input)) (snd (count_chars input))) ->
  good_prob (p nd).
Proof.
  intros Hlen Hin.
  destruct (count_chars_values input Hlen) as [Htot Hval].
  apply build_ptable_entry in Hin. destruct Hin as [n [Hn ->]].
  apply Hval in Hn. rewrite Htot.
  assert (2 ^ 31 < 2 ^ 32) by reflexivity.
  destruct (F32Normal.of_Z_normal n ltac:(lia)) as (mc & ec & -> & Nc & Hec).
  destruct (F32Normal.of_Z_normal (Z.of_nat (length input)) ltac:(lia))
    as (mt & et & -> & Nt & Het).
  destruct (F32Normal.div_normal mc ec mt et Nc Nt Hec Het)
    as (m & e & E & Nm & He).
  now exists m, e.
Qed.

Lemma sorted_ptable_not_nan input nd :
  Z.of_nat (length input) < 2 ^ 31 ->
  In nd (build_ptable (fst (count_chars input)) (snd (count_chars input))) ->
  F32.is_nan (p nd) = false.
Proof.
  intros Hlen Hin.
  destruct (build_ptable_good input nd Hlen Hin) as (m & e & -> & _).
  reflexivity.
Qed.

Lemma sorted_ptable_sorted qsort input :
  qsort_contract qsort ->
  Z.of_nat (length input) < 2 ^ 31 ->
  StronglySorted (fun a b => pnode_compare a b <= 0) (sorted_ptable qsort input).
Proof.
  intros Hq Hlen. pose proof (sorted_ptable_not_nan input) as Hnan.
  unfold sorted_ptable. destruct (count_chars input) as [freqs total].
  apply (qsort_sorted _ Hq). intros x Hx. now apply Hnan.
Qed.

Lemma elements_at_most_256 {V} (m : CharMap.t V) :
  (length (CharMap.elements m) <= 256)%nat.
Proof.
  rewrite <- (length_map fst).
  change 256%nat with (length all_chars).
  apply NoDup_incl_length; [apply CharMapFacts.elements_NoDup|].
  intros c _. apply all_chars_complete.
Qed.

(** For every input below 2^31 bytes the scans of the sorted table are
    regular. *)
Lemma sorted_ptable_regular qsort input :
  qsort_contract qsort ->
  Z.of_nat (length input) < 2 ^ 31 ->
  regular (sorted_ptable qsort input).
Proof.
  intros Hq Hlen.
  pose proof (sorted_ptable_perm qsort Hq input) as Hperm.
  apply F32Normal.good_table_regular.
  - intros k Hk. apply (build_ptable_good input); [exact Hlen|].
    eapply Permutation_in; [apply Permutation_sym, Hperm|].
    apply nth_In. unfold tsize in Hk. lia.
  - unfold tsize. rewrite <- (Permutation_length Hperm).
    unfold build_ptable. rewrite length_map.
    pose proof (elements_at_most_256 (fst (count_chars input))). lia.
Qed.

(** * Running the model *)

Example Encode_aaaabbbc :
  option_map (fun art => (a_tsize art, a_rows art, a_bits art))
             (Encode insertion_sort 3 (chars "aaaabbbc"))
  = Some (3, example_rows, chars "000010101011").
Proof. vm_compute. reflexivity. Qed.

Example Decode_aaaabbbc :
  Decode {| a_tsize := 3; a_rows := example_rows;
            a_bits := chars "000010101011" |} = chars "aaaabbbc".
Proof. vm_compute. reflexivity. Qed.

(** The read loop of [Decode] stops at a byte 0xFF. *)
Example Decode_stops_at_byte_255 :
  Decode {| a_tsize := 3; a_rows := example_rows;
            a_bits := chars "0" ++ [eof_char] ++ chars "10" |} = chars "a".
Proof. vm_compute. reflexivity. Qed.

Example sorted_ptable_aaaabbbc :
  sorted_ptable insertion_sort (chars "aaaabbbc") = example_table.
Proof. vm_compute. reflexivity. Qed.

(** * The claims *)

(** C9. For every input (short enough for the counters not to overflow),
    the probability table built by [Encode] is in descending order of
    probability: for all indices [i < j], [probability[i] >= probability[j]]. *)
Theorem ptable_sorted_descending qsort input i j :
  qsort_contract qsort ->
  Z.of_nat (length input) < 2 ^ 31 ->
  0 <= i -> i < j -> j < tsize (sorted_ptable qsort input) ->
  F32_geb (p (ptable_at (sorted_ptable qsort input) i))
          (p (ptable_at (sorted_ptable qsort input) j)) = true.
Proof.
  intros Hq Hlen Hi Hij Hj.
  pose proof (sorted_ptable_perm qsort Hq input) as Hperm.
  pose proof (sorted_ptable_not_nan input) as Hnan.
  assert (Hnan' : forall nd, In nd (sorted_ptable qsort input) ->
                             F32.is_nan (p nd) = false).
  { intros nd Hin. apply Hnan; [exact Hlen|].
    eapply Permutation_in; [apply Permutation_sym, Hperm | exact Hin]. }
  pose proof (sorted_ptable_sorted qsort input Hq Hlen) as Hs.
  unfold tsize in Hj. unfold ptable_at.
  set (d := {| ch := zero; p := F32.zero |}).
  pose proof (StronglySorted_nth _ _ d Hs (Z.to_nat i) (Z.to_nat j) ltac:(lia)) as H.
  apply pnode_compare_le in H.
  apply F32Facts.not_ltb_geb; [| |exact H]; apply Hnan', nth_In; lia.
Qed.

Lemma ptable_sorted_descending_witness :
  Z.of_nat (length (chars "aaaabbbc")) < 2 ^ 31
  /\ F32_geb (p (ptable_at (sorted_ptable insertion_sort (chars "aaaabbbc")) 0))
             (p (ptable_at (sorted_ptable insertion_sort (chars "aaaabbbc")) 2))
     = true.
Proof.
  split; [reflexivity|].
  apply (ptable_sorted_descending insertion_sort (chars "aaaabbbc") 0 2
           insertion_sort_contract); [reflexivity | lia | lia | reflexivity].
Defined.

(** C2. For every input whose alphabet has at least two symbols (and which
    is short enough for the counters not to overflow), the code table
    produced by the recursive builder is prefix-free: no symbol's codeword
    is a prefix, a fortiori a proper prefix, of another symbol's codeword. *)
Theorem Encode_prefix_free qsort input fuel art :
  qsort_contract qsort ->
  Z.of_nat (length input) < 2 ^ 31 ->
  2 <= alphabet_size input ->
  Encode qsort fuel input = Some art ->
  rows_prefix_free (a_rows art).
Proof.
  intros Hq Hlen _ Henc.
  pose proof (sorted_ptable_regular qsort input Hq Hlen) as Hreg.
  destruct (Encode_inv _ _ _ _ Hq Henc) as [codes [Hc [_ [Hrows _]]]].
  destruct (EncShannon_top _ _ _ (sorted_ptable_NoDup qsort Hq input) Hreg Hc)
    as [Hpf _].
  intros c1 p1 w1 c2 p2 w2 H1 H2 Hne. rewrite Hrows in H1, H2.
  apply row_index in H1, H2.
  destruct H1 as [j [Hj [-> ->]]], H2 as [k [Hk [-> ->]]].
  apply Hpf; auto. intros ->. contradiction.
Qed.

Lemma Encode_prefix_free_witness :
  Z.of_nat (length (chars "aaaabbbc")) < 2 ^ 31
  /\ 2 <= alphabet_size (chars "aaaabbbc")
  /\ exists art,
       Encode insertion_sort 3 (chars "aaaabbbc") = Some art
       /\ rows_prefix_free (a_rows art).
Proof.
  split; [reflexivity|]. split; [vm_compute; discriminate|].
  eexists. split; [vm_compute; reflexivity|].
  apply (Encode_prefix_free insertion_sort (chars "aaaabbbc") 3 _
           insertion_sort_contract);
    [reflexivity | vm_compute; discriminate | reflexivity].
Defined.

(** C4 as stated fails: for the single-symbol input "zzzz" the only row of
    the table carries the empty codeword. *)
Lemma single_symbol_codeword_empty :
  option_map a_rows (Encode insertion_sort 1 (chars "zzzz"))
  = Some [("z"%char, S754_finite false 8388608 (-23), [])].
Proof. vm_compute. reflexivity. Qed.

(** C4, amended. When [Encode] returns, every symbol of the input has a row
    in the table; with at least two symbols in the alphabet its codeword
    has length at least 1, and with exactly one symbol its codeword is the
    empty string. *)
Theorem codewords_assigned qsort input fuel art c :
  qsort_contract qsort ->
  Encode qsort fuel input = Some art ->
  In c input ->
  exists prob w,
    In (c, prob, w) (a_rows art)
    /\ (2 <= a_tsize art -> (1 <= length w)%nat)
    /\ (a_tsize art = 1 -> w = []).
Proof.
  intros Hq Henc Hin.
  destruct (Encode_inv _ _ _ _ Hq Henc) as [codes [Hc [Hts [Hrows _]]]].
  destruct (sorted_ptable_index qsort Hq input c Hin) as [k [Hk Hch]].
  set (pt := sorted_ptable qsort input) in *.
  exists (p (ptable_at pt k)), (code_of codes c).
  split; [|split].
  - rewrite Hrows, <- Hch. apply in_map_iff. exists (ptable_at pt k).
    split; [reflexivity|]. apply nth_In. unfold tsize in Hk. lia.
  - intros H2. rewrite Hts in H2.
    destruct (EncShannon_grows pt fuel 0 (tsize pt - 1) CharMap.empty codes
                (sorted_ptable_NoDup qsort Hq input)
                ltac:(lia) ltac:(lia) ltac:(lia) Hc k ltac:(lia))
      as [b [rest [_ E]]].
    rewrite Hch in E. rewrite E, length_app. simpl. lia.
  - intros H1. rewrite Hts in H1. rewrite H1 in Hc.
    destruct fuel as [|fuel]; [discriminate|].
    change (1 - 1) with 0 in Hc. rewrite EncShannon_single in Hc.
    inversion Hc. reflexivity.
Qed.

Lemma codewords_assigned_witness :
  exists art,
    Encode insertion_sort 3 (chars "aaaabbbc") = Some art
    /\ In "b"%char (chars "aaaabbbc")
    /\ exists prob w,
         In ("b"%char, prob, w) (a_rows art)
         /\ (2 <= a_tsize art -> (1 <= length w)%nat)
         /\ (a_tsize art = 1 -> w = []).
Proof.
  eexists. split; [vm_compute; reflexivity|].
  split; [simpl; tauto|].
  apply (codewords_assigned insertion_sort (chars "aaaabbbc") 3 _ "b"%char
           insertion_sort_contract); [reflexivity | simpl; tauto].
Defined.

(** C5 fails on the code: on the input "aaaaabc" the first symbol alone is
    above half of the total, and the builder does not return, whatever
    the depth allowed to the recursion and whatever order [qsort] leaves
    the two equal entries in. *)
Theorem Encode_diverges_dominant_symbol qsort :
  qsort_contract qsort ->
  forall fuel, Encode qsort fuel (chars "aaaaabc") = None.
Proof.
  intros Hq fuel. rewrite Encode_unfold.
  change (alphabet_size (chars "aaaaabc") - 1) with 2.
  pose proof (sorted_ptable_perm qsort Hq (chars "aaaaabc")) as Hperm.
  pose proof (sorted_ptable_sorted qsort (chars "aaaaabc") Hq eq_refl) as Hs.
  set (pt := sorted_ptable qsort (chars "aaaaabc")) in *. clearbody pt.
  set (l := build_ptable _ _) in Hperm. vm_compute in l.
  pose proof (Permutation_length Hperm) as Hlen.
  destruct pt as [|x [|y [|z [|w pt]]]]; try discriminate.
  assert (Hx : In x l) by (apply (Permutation_in _ (Permutation_sym Hperm)); simpl; tauto).
  assert (Hy : In y l) by (apply (Permutation_in _ (Permutation_sym Hperm)); simpl; tauto).
  assert (Hz : In z l) by (apply (Permutation_in _ (Permutation_sym Hperm)); simpl; tauto).
  assert (Ha : In (nth 0 l {| ch := zero; p := F32.zero |}) [x; y; z])
    by (apply (Permutation_in _ Hperm); simpl; tauto).
  assert (Hb : In (nth 1 l {| ch := zero; p := F32.zero |}) [x; y; z])
    by (apply (Permutation_in _ Hperm); simpl; tauto).
  assert (Hc : In (nth 2 l {| ch := zero; p := F32.zero |}) [x; y; z])
    by (apply (Permutation_in _ Hperm); simpl; tauto).
  inversion Hs as [|? ? _ Hxs]; subst.
  rewrite Forall_forall in Hxs.
  pose proof (Hxs _ (or_introl eq_refl)) as Hxy.
  pose proof (Hxs _ (or_intror (or_introl eq_refl))) as Hxz.
  clear Hxs Hs Hperm Hlen.
  destruct (EncShannon [x; y; z] fuel 0 2 CharMap.empty) eqn:Enc; [|reflexivity].
  exfalso.
  destruct (scan_bit [x; y; z] 0 2 0) eqn:Hbit.
  - rewrite (EncShannon_first_above_half [x; y; z] 0 2 ltac:(lia) ltac:(lia) Hbit)
      in Enc.
    discriminate.
  - clear Enc. subst l. simpl in Hx, Hy, Hz, Ha, Hb, Hc.
    destruct Hx as [<-|[<-|[<-|[]]]];
      destruct Hy as [<-|[<-|[<-|[]]]];
      destruct Hz as [<-|[<-|[<-|[]]]];
      try (vm_compute in Hbit; discriminate);
      (destruct Ha as [Ha|[Ha|[Ha|[]]]]; try discriminate Ha;
       destruct Hb as [Hb|[Hb|[Hb|[]]]]; try discriminate Hb;
       destruct Hc as [Hc|[Hc|[Hc|[]]]]; try discriminate Hc;
       vm_compute in Hxy, Hxz;
       first [ now apply Hxy | now apply Hxz ]).
Qed.

Lemma Encode_diverges_dominant_symbol_witness :
  Encode insertion_sort 100 (chars "aaaaabc") = None.
Proof.
  apply (Encode_diverges_dominant_symbol insertion_sort insertion_sort_contract).
Defined.

(** C6 fails on the code: on the empty input the top-level call is
    [EncShannon( 0, -1 )], which does not return; no artifact is produced
    and no error is reported. *)
Theorem Encode_diverges_empty_input :
  forall qsort fuel, Encode qsort fuel [] = None.
Proof.
  intros qsort fuel. rewrite Encode_unfold.
  change (alphabet_size [] - 1) with (-1).
  rewrite EncShannon_empty_range by lia. reflexivity.
Qed.

(** C7 as stated fails: the artifact of "aaaabbbc" cut one bit short leaves
    the accumulator "1", which matches no codeword, and [Decode] returns
    the seven symbols decoded so far without any error. *)
Lemma Decode_truncated_succeeds :
  exists art,
    Encode insertion_sort 3 (chars "aaaabbbc") = Some art
    /\ decode_loop (load_codes (a_rows art)) (removelast (a_bits art)) []
       = (chars "1", chars "aaaabbb")
    /\ forallb (fun e => negb (strcmp_eq (snd e) (chars "1")))
               (CharMap.elements (load_codes (a_rows art))) = true
    /\ Decode {| a_tsize := a_tsize art; a_rows := a_rows art;
                 a_bits := removelast (a_bits art) |} = chars "aaaabbb".
Proof.
  eexists. split; [vm_compute; reflexivity|].
  split; [vm_compute; reflexivity|].
  split; vm_compute; reflexivity.
Qed.

(** C7, amended. Bits at the end of the bitstream that match no codeword
    are dropped without an error: when they follow a bitstream that ends
    on a codeword boundary, they stay in the accumulator and the output
    is the output for the bitstream without them.  The bitstream is one
    the decoder reads to its end: it holds no byte 0xFF, at which the
    read loop stops. *)
Theorem Decode_drops_unmatched_tail n rows bits tail :
  ~ In eof_char (bits ++ tail) ->
  fst (decode_loop (load_codes rows) bits []) = [] ->
  (forall k, (0 < k <= length tail)%nat ->
             unmatched (load_codes rows) (firstn k tail)) ->
  fst (decode_loop (load_codes rows) (bits ++ tail) []) = tail
  /\ Decode {| a_tsize := n; a_rows := rows; a_bits := bits ++ tail |}
     = Decode {| a_tsize := n; a_rows := rows; a_bits := bits |}.
Proof.
  intros Hno Hclean Htail. unfold Decode. cbn [a_rows a_bits].
  assert (Hno1 : ~ In eof_char bits)
    by (intros H; apply Hno, in_or_app; now left).
  assert (Hno2 : ~ In eof_char tail)
    by (intros H; apply Hno, in_or_app; now right).
  rewrite (decode_loop_app _ bits tail [] Hno1), Hclean.
  rewrite (decode_loop_unmatched_tail (load_codes rows) tail [] Hno2 Htail).
  cbn [fst snd app]. now rewrite app_nil_r.
Qed.

Lemma Decode_drops_unmatched_tail_witness :
  fst (decode_loop (load_codes example_rows) (chars "010" ++ chars "1") [])
  = chars "1"
  /\ Decode {| a_tsize := 3; a_rows := example_rows;
               a_bits := chars "010" ++ chars "1" |}
     = Decode {| a_tsize := 3; a_rows := example_rows; a_bits := chars "010" |}.
Proof.
  apply (Decode_drops_unmatched_tail 3 example_rows (chars "010") (chars "1")).
  - apply no_char_check. vm_compute. reflexivity.
  - vm_compute. reflexivity.
  - intros k Hk. assert (E : k = 1%nat) by (simpl in Hk; lia). subst k.
    apply unmatched_check. vm_compute. reflexivity.
Defined.






(** C1 as stated fails: the single-symbol input "zzzz" is encoded with an
    empty codeword and an empty bitstream, from which nothing is decoded. *)
Lemma roundtrip_fails_single_symbol :
  exists art,
    Encode insertion_sort 1 (chars "zzzz") = Some art
    /\ a_bits art = []
    /\ Decode art = []
    /\ Decode art <> chars "zzzz".
Proof.
  eexists. split; [vm_compute; reflexivity|].
  split; [reflexivity|]. split; [reflexivity|]. discriminate.
Qed.

(** C1, amended. For every input with at least two distinct symbols (and
    short enough for the counters not to overflow) on which [Encode]
    returns an artifact, decoding that artifact gives the input back. *)
Theorem Decode_Encode_roundtrip qsort input fuel art :
  qsort_contract qsort ->
  Z.of_nat (length input) < 2 ^ 31 ->
  2 <= alphabet_size input ->
  Encode qsort fuel input = Some art ->
  Decode art = input.
Proof.
  intros Hq Hlen H2 Henc.
  rewrite (alphabet_size_tsize qsort input Hq) in H2.
  pose proof (sorted_ptable_regular qsort input Hq Hlen) as Hreg.
  destruct (Encode_inv _ _ _ _ Hq Henc) as [codes [Hc [_ [Hrows Hbits]]]].
  pose proof (sorted_ptable_NoDup qsort Hq input) as Hnd.
  destruct (loaded_table _ fuel codes Hnd Hreg H2 Hc) as [Hfind [Hok Hpf]].
  pose proof (loaded_table_no_eof _ fuel codes Hnd Hreg Hc) as Hne.
  unfold Decode. rewrite Hrows, Hbits.
  set (table := load_codes _) in *.
  assert (Hin : forall c, In c input -> CharMap.find table c = Some (code_of codes c)).
  { intros c Hc'. apply Hfind. now apply (sorted_ptable_chars qsort Hq). }
  rewrite (flat_map_ext_in (code_of codes) (code_of table)).
  - rewrite (decode_loop_complete table Hok Hpf Hne); [reflexivity|].
    intros c Hc'. rewrite (Hin c Hc'). discriminate.
  - intros c Hc'. unfold code_of at 2.
    now rewrite (CharMapFacts.get_find [] table c _ (Hin c Hc')).
Qed.

Lemma Decode_Encode_roundtrip_witness :
  Z.of_nat (length (chars "aaaabbbc")) < 2 ^ 31
  /\ 2 <= alphabet_size (chars "aaaabbbc")
  /\ exists art,
       Encode insertion_sort 3 (chars "aaaabbbc") = Some art
       /\ Decode art = chars "aaaabbbc".
Proof.
  split; [reflexivity|]. split; [vm_compute; discriminate|].
  eexists. split; [vm_compute; reflexivity|].
  apply (Decode_Encode_roundtrip insertion_sort (chars "aaaabbbc") 3 _
           insertion_sort_contract);
    [reflexivity | vm_compute; discriminate | reflexivity].
Defined.

(** C10. For every code table (as loaded by [Decode]) whose codewords are
    all non-empty and every bitstream (a sequence of characters without
    the byte 0xFF, at which the read loop stops): the codewords of the
    symbols the decoder writes, followed by the accumulator left at the
    end, are the bitstream, and that accumulator equals no codeword.
    When the accumulator with the character just read equals a codeword,
    the decoder writes a symbol with that codeword and empties the
    accumulator; when it equals none, the decoder writes nothing and keeps
    the accumulator.  So a character read makes the decoder write at
    most one symbol, and after a match the accumulator is empty. *)
Theorem Decode_sound rows :
  (forall c w, CharMap.find (load_codes rows) c = Some w -> w <> []) ->
  (forall bits,
      ~ In eof_char bits ->
      flat_map (code_of (load_codes rows))
               (snd (decode_loop (load_codes rows) bits []))
        ++ fst (decode_loop (load_codes rows) bits []) = bits
      /\ unmatched (load_codes rows) (fst (decode_loop (load_codes rows) bits [])))
  /\ (forall accum c,
         ~ In zero (accum ++ [c]) ->
         ((exists s, CharMap.find (load_codes rows) s = Some (accum ++ [c])) ->
          exists s, CharMap.find (load_codes rows) s = Some (accum ++ [c])
                    /\ decode_step (load_codes rows) accum c = ([], [s]))
         /\ ((forall s, CharMap.find (load_codes rows) s <> Some (accum ++ [c])) ->
             decode_step (load_codes rows) accum c = (accum ++ [c], [])))
  /\ (forall accum c,
         (length (snd (decode_step (load_codes rows) accum c)) <= 1)%nat
         /\ (snd (decode_step (load_codes rows) accum c) <> [] ->
             fst (decode_step (load_codes rows) accum c) = [])).
Proof.
  intros Hne.
  assert (Hok : codewords_ok (load_codes rows)).
  { intros c w H. split; [exact (Hne c w H) | exact (load_codes_no_nul rows c w H)]. }
  split; [|split].
  - intros bits Hno.
    exact (decode_loop_sound (load_codes rows) Hok bits [] Hno
             (unmatched_nil (load_codes rows) Hok)).
  - intros accum c Hnul.
    assert (Hself : strcmp_eq (accum ++ [c]) (accum ++ [c]) = true)
      by now apply strcmp_eq_iff.
    unfold decode_step.
    destruct (match_loop_spec (load_codes rows) Hok
                (CharMap.elements (load_codes rows)) (accum ++ [c]))
      as [[H1 H2]|(s & w & H1 & H2 & H3)].
    + intros s w. apply CharMapFacts.in_elements.
    + split; [|intros _; exact H1].
      intros [s Hs]. apply CharMapFacts.in_elements in Hs.
      rewrite (H2 s _ Hs) in Hself. discriminate.
    + apply CharMapFacts.in_elements in H1.
      apply strcmp_eq_iff in H2.
      rewrite (codeword_c_str (load_codes rows) Hok s w H1) in H2.
      rewrite (c_str_nul_free _ Hnul) in H2. subst w.
      split.
      * intros _. exists s. split; [exact H1 | exact H3].
      * intros Hnone. exfalso. exact (Hnone s H1).
  - intros accum c. apply decode_step_emits, Hok.
Qed.

Lemma Decode_sound_witness :
  (flat_map (code_of (load_codes example_rows))
            (snd (decode_loop (load_codes example_rows) (chars "0101101") []))
     ++ fst (decode_loop (load_codes example_rows) (chars "0101101") [])
   = chars "0101101"
   /\ unmatched (load_codes example_rows)
                (fst (decode_loop (load_codes example_rows) (chars "0101101") [])))
  /\ exists s, CharMap.find (load_codes example_rows) s = Some (chars "1" ++ ["0"%char])
               /\ decode_step (load_codes example_rows) (chars "1") "0"%char
                  = ([], [s]).
Proof.
  destruct (Decode_sound example_rows
              (nonempty_check (load_codes example_rows) eq_refl))
    as [Hloop [Hstep _]].
  split.
  - apply Hloop. apply no_char_check. vm_compute. reflexivity.
  - apply (Hstep (chars "1") "0"%char).
    + apply no_char_check. vm_compute. reflexivity.
    + exists "b"%char. vm_compute. reflexivity.
Defined.

(** * Lemmas for the further properties *)

(** ** [pnode_compare] *)

Lemma gtb_ltb x y : F32.gtb x y = F32.ltb y x.
Proof.
  unfold F32.gtb, F32.ltb, SFltb.
  destruct x as [sx|sx| |sx mx ex], y as [sy|sy| |sy my ey];
    try destruct sx; try destruct sy; try reflexivity; simpl;
    rewrite (Z.compare_antisym ex ey);
    destruct (ex ?= ey); simpl; try reflexivity;
    change (Pos.compare_cont Eq mx my) with (Pos.compare mx my);
    change (Pos.compare_cont Eq my mx) with (Pos.compare my mx);
    rewrite (Pos.compare_antisym my mx);
    destruct (my ?= mx)%positive; reflexivity.
Qed.

Lemma ltb_nan_l x y : F32.is_nan x = true -> F32.ltb x y = false.
Proof. destruct x; try discriminate. reflexivity. Qed.

Lemma ltb_nan_r x y : F32.is_nan y = true -> F32.ltb x y = false.
Proof.
  destruct y; try discriminate. intros _. now destruct x as [[]|[]| |].
Qed.

(** ** [EncShannon]: what a returning call has done *)

Section BuilderShape.

Variable ptable : list pnode.
Hypothesis symbols_differ : NoDup (map ch ptable).

Local Abbreviation pt_at := (ptable_at ptable).

(** The split of a call whose first recursive call returns lies strictly
    inside the range, and the first element has the bit '0'. *)
Lemma split_inside fuel li ri codes codes2 :
  0 <= li -> li + 2 <= ri ->
  EncShannon ptable fuel li (snd (split_range ptable li ri codes) - 1)
             (fst (split_range ptable li ri codes)) = Some codes2 ->
  li < snd (split_range ptable li ri codes) <= ri
  /\ scan_bit ptable li ri li = false.
Proof.
  intros Hli Hle EL.
  destruct (split_range_isp ptable li ri codes Hli) as [[E H0]|[Hr [H1 H0]]].
  - split; [lia|]. apply H0. lia.
  - destruct (Z.eq_dec (snd (split_range ptable li ri codes)) li) as [Hil|Hil].
    + rewrite Hil, EncShannon_empty_range in EL by lia. discriminate.
    + split; [lia|]. apply H0. lia.
Qed.

(** Each element of the range of a returning call has gained a suffix of
    at most [ri - li] bits, the first element a suffix of '0' only, and
    the codes of the other symbols are as before. *)
Lemma EncShannon_suffixes fuel :
  forall li ri codes codes',
    0 <= li -> li <= ri -> ri < tsize ptable ->
    EncShannon ptable fuel li ri codes = Some codes' ->
    exists sfx : Z -> list ascii,
      (forall k, li <= k <= ri ->
                 code_of codes' (ch (pt_at k)) = code_of codes (ch (pt_at k)) ++ sfx k)
      /\ (forall c, (forall k, li <= k <= ri -> ch (pt_at k) <> c) ->
                    code_of codes' c = code_of codes c)
      /\ (forall k, li <= k <= ri ->
                    Forall is_bit (sfx k) /\ Z.of_nat (length (sfx k)) <= ri - li)
      /\ Forall (eq bit0) (sfx li).
Proof.
  induction fuel as [|fuel IH]; intros li ri codes codes' Hli Hle Hri Henc;
    [discriminate|].
  assert (Hdiff : forall j k, 0 <= j < tsize ptable -> 0 <= k < tsize ptable ->
                              j <> k -> ch (pt_at j) <> ch (pt_at k)).
  { intros j k Hj Hk Hjk E. apply Hjk. now apply (ch_at_inj ptable). }
  destruct (Z.eq_dec li ri) as [->|Hne].
  - rewrite EncShannon_single in Henc. inversion Henc; subst.
    exists (fun _ => []). split; [|split; [|split]].
    + intros. now rewrite app_nil_r.
    + reflexivity.
    + intros k Hk. split; [constructor | simpl; lia].
    + constructor.
  - destruct (Z.eq_dec (ri - li) 1) as [Hp|Hnp].
    + rewrite EncShannon_pair in Henc by exact Hp. inversion Henc; subst.
      assert (Hd : ch (pt_at li) <> ch (pt_at ri)) by (apply Hdiff; lia).
      exists (fun k => if k =? li then [bit0] else [bit1]).
      split; [|split; [|split]].
      * intros k Hk. destruct (Z.eqb_spec k li) as [->|Hk'].
        -- rewrite code_of_append_other by exact Hd.
           apply code_of_append_same.
        -- replace k with ri by lia.
           rewrite code_of_append_same.
           now rewrite code_of_append_other by congruence.
      * intros c Hc.
        rewrite !code_of_append_other; auto.
        -- intros E. apply (Hc li); [lia | auto].
        -- intros E. apply (Hc ri); [lia | auto].
      * intros k Hk. split.
        -- destruct (k =? li); (constructor; [|constructor]);
             [now left | now right].
        -- destruct (k =? li); simpl; lia.
      * rewrite Z.eqb_refl. constructor; [reflexivity | constructor].
    + rewrite EncShannon_general in Henc by auto.
      destruct (split_range_codes ptable li ri codes symbols_differ Hli Hle Hri)
        as [Hbits Hother].
      destruct (EncShannon ptable fuel li _ _) as [codes2|] eqn:EL;
        [|discriminate].
      destruct (split_inside fuel li ri codes codes2 Hli ltac:(lia) EL)
        as [Hisp Hfirst].
      set (isp := snd (split_range ptable li ri codes)) in *.
      set (codes1 := fst (split_range ptable li ri codes)) in *.
      destruct (IH li (isp - 1) codes1 codes2 Hli ltac:(lia) ltac:(lia) EL)
        as [sfxL [HL1 [HL2 [HL3 HL4]]]].
      destruct (IH isp ri codes2 codes' ltac:(lia) ltac:(lia) Hri Henc)
        as [sfxR [HR1 [HR2 [HR3 _]]]].
      exists (fun k => bit_char (scan_bit ptable li ri k)
                       :: (if k <? isp then sfxL k else sfxR k)).
      split; [|split; [|split]].
      * intros k Hk. destruct (Z.ltb_spec k isp) as [Hlt|Hge].
        -- rewrite HR2 by (intros k' Hk'; apply Hdiff; lia).
           rewrite HL1 by lia. rewrite Hbits by lia.
           now rewrite <- app_assoc.
        -- rewrite HR1 by lia.
           rewrite HL2 by (intros k' Hk'; apply Hdiff; lia).
           rewrite Hbits by lia. now rewrite <- app_assoc.
      * intros c Hc.
        rewrite HR2 by (intros k Hk; apply Hc; lia).
        rewrite HL2 by (intros k Hk; apply Hc; lia).
        apply Hother. exact Hc.
      * intros k Hk. split.
        -- constructor; [apply bit_char_is_bit|].
           destruct (Z.ltb_spec k isp); [apply HL3 | apply HR3]; lia.
        -- cbn [length]. rewrite Nat2Z.inj_succ.
           destruct (Z.ltb_spec k isp) as [Hlt|Hge].
           ++ destruct (HL3 k ltac:(lia)) as [_ Hlen]. lia.
           ++ destruct (HR3 k ltac:(lia)) as [_ Hlen]. lia.
      * rewrite Hfirst. destruct (Z.ltb_spec li isp); [|lia].
        constructor; [reflexivity | exact HL4].
Qed.

(** A call returns when, in every range of three elements or more, the
    first element alone is not above half of the range's total. *)
Lemma EncShannon_returns_within fuel :
  (forall li ri, 0 <= li -> li + 2 <= ri -> ri < tsize ptable ->
                 scan_bit ptable li ri li = false) ->
  forall li ri codes,
    0 <= li -> li <= ri -> ri < tsize ptable ->
    (Z.to_nat (ri - li) < fuel)%nat ->
    exists codes', EncShannon ptable fuel li ri codes = Some codes'.
Proof.
  intros Hfirst.
  induction fuel as [|fuel IH]; intros li ri codes Hli Hle Hri Hfuel; [lia|].
  destruct (Z.eq_dec li ri) as [->|Hne].
  - rewrite EncShannon_single. now exists codes.
  - destruct (Z.eq_dec (ri - li) 1) as [Hp|Hnp].
    + rewrite EncShannon_pair by exact Hp. eexists. reflexivity.
    + rewrite EncShannon_general by auto.
      assert (Hisp : li < snd (split_range ptable li ri codes) <= ri).
      { destruct (split_range_isp ptable li ri codes Hli) as [[E _]|[Hr [H1 _]]];
          [lia|].
        destruct (Z.eq_dec (snd (split_range ptable li ri codes)) li) as [Hil|Hil];
          [|lia].
        rewrite Hil, (Hfirst li ri Hli ltac:(lia) Hri) in H1. discriminate. }
      set (isp := snd (split_range ptable li ri codes)) in *.
      destruct (IH li (isp - 1) (fst (split_range ptable li ri codes))
                  Hli ltac:(lia) ltac:(lia) ltac:(lia)) as [codes2 E2].
      rewrite E2. apply IH; lia.
Qed.

End BuilderShape.

(** ** Sums over index ranges *)

Lemma sum_range_ext f g n :
  forall i, (forall k, i <= k < i + Z.of_nat n -> f k = g k) ->
            sum_range f i n = sum_range g i n.
Proof.
  induction n as [|n IH]; intros i H; [reflexivity|].
  cbn [sum_range]. rewrite (H i) by lia. f_equal.
  apply IH. intros k Hk. apply H. lia.
Qed.

Lemma sum_range_app f n1 n2 :
  forall i, sum_range f i (n1 + n2)
            = sum_range f i n1 + sum_range f (i + Z.of_nat n1) n2.
Proof.
  induction n1 as [|n1 IH]; intros i.
  - simpl. now rewrite Z.add_0_r.
  - cbn [Nat.add sum_range]. rewrite IH.
    replace (i + 1 + Z.of_nat n1) with (i + Z.of_nat (S n1)) by lia. lia.
Qed.

Lemma sum_range_split f li isp ri :
  li < isp <= ri ->
  sum_range f li (iterations li ri)
  = sum_range f li (iterations li (isp - 1)) + sum_range f isp (iterations isp ri).
Proof.
  intros H. unfold iterations.
  replace (Z.to_nat (ri - li + 1))
    with (Z.to_nat (isp - 1 - li + 1) + Z.to_nat (ri - isp + 1))%nat by lia.
  rewrite sum_range_app. do 2 f_equal. lia.
Qed.

Lemma kraft_scaled_map {A} D (g : A -> cstring) (d : A) l :
  kraft_scaled D (map g l)
  = sum_range (fun k => 2 ^ (D - Z.of_nat (length (g (nth (Z.to_nat k) l d)))))
              0 (length l).
Proof.
  assert (H : forall i,
             0 <= i ->
             kraft_scaled D (map g l)
             = sum_range (fun k => 2 ^ (D - Z.of_nat
                            (length (g (nth (Z.to_nat (k - i)) l d)))))
                         i (length l)).
  { induction l as [|a l IH]; intros i Hi; [reflexivity|].
    cbn [map kraft_scaled fold_right length sum_range].
    rewrite Z.sub_diag. cbn [Z.to_nat nth]. f_equal.
    fold (kraft_scaled D (map g l)). rewrite (IH (i + 1)) by lia.
    apply sum_range_ext. intros k Hk.
    replace (Z.to_nat (k - i)) with (S (Z.to_nat (k - (i + 1)))) by lia.
    reflexivity. }
  rewrite (H 0) by lia. apply sum_range_ext. intros k _.
  now rewrite Z.sub_0_r.
Qed.

(** ** [EncShannon]: the code of a regular table is complete *)

Section BuilderComplete.

Variable ptable : list pnode.
Hypothesis symbols_differ : NoDup (map ch ptable).
Hypothesis scans_regular : regular ptable.

Local Abbreviation pt_at := (ptable_at ptable).

(** The suffixes a returning call appends fill the binary tree: their
    Kraft sum is 1, and the last element's suffix is made of '1' only. *)
Lemma EncShannon_fills fuel :
  forall li ri codes codes',
    0 <= li -> li <= ri -> ri < tsize ptable ->
    EncShannon ptable fuel li ri codes = Some codes' ->
    exists sfx : Z -> list ascii,
      (forall k, li <= k <= ri ->
                 code_of codes' (ch (pt_at k)) = code_of codes (ch (pt_at k)) ++ sfx k)
      /\ Forall (eq bit1) (sfx ri)
      /\ forall D, (forall k, li <= k <= ri -> Z.of_nat (length (sfx k)) <= D) ->
                   sum_range (fun k => 2 ^ (D - Z.of_nat (length (sfx k))))
                             li (iterations li ri) = 2 ^ D.
Proof.
  induction fuel as [|fuel IH]; intros li ri codes codes' Hli Hle Hri Henc;
    [discriminate|].
  assert (Hdiff : forall j k, 0 <= j < tsize ptable -> 0 <= k < tsize ptable ->
                              j <> k -> ch (pt_at j) <> ch (pt_at k)).
  { intros j k Hj Hk Hjk E. apply Hjk. now apply (ch_at_inj ptable). }
  destruct (Z.eq_dec li ri) as [->|Hne].
  - rewrite EncShannon_single in Henc. inversion Henc; subst.
    exists (fun _ => []). split; [|split].
    + intros. now rewrite app_nil_r.
    + constructor.
    + intros D _. unfold iterations.
      replace (Z.to_nat (ri - ri + 1)) with 1%nat by lia.
      cbn [sum_range length]. change (Z.of_nat 0) with 0. rewrite Z.sub_0_r. lia.
  - destruct (Z.eq_dec (ri - li) 1) as [Hp|Hnp].
    + rewrite EncShannon_pair in Henc by exact Hp. inversion Henc; subst.
      assert (Hd : ch (pt_at li) <> ch (pt_at ri)) by (apply Hdiff; lia).
      exists (fun k => if k =? li then [bit0] else [bit1]).
      split; [|split].
      * intros k Hk. destruct (Z.eqb_spec k li) as [->|Hk'].
        -- rewrite code_of_append_other by exact Hd.
           apply code_of_append_same.
        -- replace k with ri by lia.
           rewrite code_of_append_same.
           now rewrite code_of_append_other by congruence.
      * destruct (Z.eqb_spec ri li); [lia|].
        constructor; [reflexivity | constructor].
      * intros D HD. unfold iterations.
        replace (Z.to_nat (ri - li + 1)) with 2%nat by lia.
        cbn [sum_range]. rewrite Z.eqb_refl.
        destruct (Z.eqb_spec (li + 1) li); [lia|].
        pose proof (HD li ltac:(lia)) as H1. rewrite Z.eqb_refl in H1.
        cbn [length] in *. change (Z.of_nat 1) with 1 in *.
        replace D with (D - 1 + 1) at 3 by lia.
        rewrite Z.pow_add_r by lia. lia.
    + rewrite EncShannon_general in Henc by auto.
      destruct (regular_split ptable li ri codes symbols_differ scans_regular
                  Hli ltac:(lia) Hri) as [_ [_ Hhigh]].
      destruct (split_range_codes ptable li ri codes symbols_differ Hli Hle Hri)
        as [Hbits _].
      destruct (EncShannon ptable fuel li _ _) as [codes2|] eqn:EL;
        [|discriminate].
      destruct (split_inside ptable fuel li ri codes codes2 Hli ltac:(lia) EL)
        as [Hisp _].
      set (isp := snd (split_range ptable li ri codes)) in *.
      set (codes1 := fst (split_range ptable li ri codes)) in *.
      destruct (EncShannon_suffixes ptable symbols_differ fuel li (isp - 1)
                  codes1 codes2 Hli ltac:(lia) ltac:(lia) EL)
        as [sfxL' [_ [HL2 _]]].
      destruct (EncShannon_suffixes ptable symbols_differ fuel isp ri
                  codes2 codes' ltac:(lia) ltac:(lia) Hri Henc)
        as [sfxR' [_ [HR2 _]]].
      destruct (IH li (isp - 1) codes1 codes2 Hli ltac:(lia) ltac:(lia) EL)
        as [sfxL [HL1 [_ HLK]]].
      destruct (IH isp ri codes2 codes' ltac:(lia) ltac:(lia) Hri Henc)
        as [sfxR [HR1 [HRlast HRK]]].
      exists (fun k => bit_char (scan_bit ptable li ri k)
                       :: (if k <? isp then sfxL k else sfxR k)).
      split; [|split].
      * intros k Hk. destruct (Z.ltb_spec k isp) as [Hlt|Hge].
        -- rewrite HR2 by (intros k' Hk'; apply Hdiff; lia).
           rewrite HL1 by lia. rewrite Hbits by lia.
           now rewrite <- app_assoc.
        -- rewrite HR1 by lia.
           rewrite HL2 by (intros k' Hk'; apply Hdiff; lia).
           rewrite Hbits by lia. now rewrite <- app_assoc.
      * rewrite Hhigh by lia. destruct (Z.ltb_spec ri isp); [lia|].
        constructor; [reflexivity | exact HRlast].
      * intros D HD.
        assert (HD1 : 1 <= D).
        { pose proof (HD li ltac:(lia)) as H. cbn [length] in H. lia. }
        rewrite (sum_range_split _ li isp ri Hisp).
        rewrite (sum_range_ext _
                   (fun k => 2 ^ (D - 1 - Z.of_nat (length (sfxL k))))
                   (iterations li (isp - 1)) li).
        2:{ intros k Hk. unfold iterations in Hk.
            destruct (Z.ltb_spec k isp); [|lia].
            cbn [length]. f_equal. lia. }
        rewrite (sum_range_ext _
                   (fun k => 2 ^ (D - 1 - Z.of_nat (length (sfxR k))))
                   (iterations isp ri) isp).
        2:{ intros k Hk. unfold iterations in Hk.
            destruct (Z.ltb_spec k isp); [lia|].
            cbn [length]. f_equal. lia. }
        rewrite HLK, HRK.
        -- replace D with (D - 1 + 1) at 3 by lia.
           rewrite Z.pow_add_r by lia. lia.
        -- intros k Hk. pose proof (HD k ltac:(lia)) as H.
           destruct (Z.ltb_spec k isp); [lia|]. cbn [length] in H. lia.
        -- intros k Hk. pose proof (HD k ltac:(lia)) as H.
           destruct (Z.ltb_spec k isp); [|lia]. cbn [length] in H. lia.
Qed.

End BuilderComplete.

(** ** The counting loop *)

Lemma count_chars_snoc input a :
  count_chars (input ++ [a])
  = (CharMap.set a (int_wrap (CharMap.get 0 (fst (count_chars input)) a + 1))
                 (fst (count_chars input)),
     uint_wrap (snd (count_chars input) + 1)).
Proof.
  unfold count_chars. rewrite fold_left_app. cbn [fold_left].
  now destruct (fold_left _ input _).
Qed.

Lemma get_set {V} (d : V) (m : CharMap.t V) a v c :
  CharMap.get d (CharMap.set a v m) c
  = if Ascii.eqb c a then v else CharMap.get d m c.
Proof. unfold CharMap.get, CharMap.set. now destruct (Ascii.eqb c a). Qed.

Lemma count_occ_le_length (l : list ascii) c :
  (count_occ ascii_dec l c <= length l)%nat.
Proof.
  induction l as [|a l IH]; simpl; [lia|]. destruct (ascii_dec a c); lia.
Qed.

Lemma count_chars_occ input c :
  Z.of_nat (length input) < 2 ^ 31 ->
  CharMap.get 0 (fst (count_chars input)) c
  = Z.of_nat (count_occ ascii_dec input c).
Proof.
  induction input as [|a input IH] using rev_ind; intros Hlen; [reflexivity|].
  rewrite length_app in Hlen. cbn [length] in Hlen.
  rewrite count_chars_snoc. cbn [fst]. rewrite get_set, count_occ_app.
  cbn [count_occ].
  pose proof (count_occ_le_length input a) as Hocc.
  destruct (Ascii.eqb_spec c a) as [->|Hne].
  - rewrite IH by lia. destruct (ascii_dec a a) as [_|C]; [|contradiction].
    unfold int_wrap. rewrite Z.mod_small by lia. lia.
  - rewrite IH by lia. destruct (ascii_dec a c) as [E|_]; [congruence|]. lia.
Qed.

(** ** The table and the bitstream of [Encode] *)

Section TopLevel.

Variable ptable : list pnode.
Hypothesis symbols_differ : NoDup (map ch ptable).

Variable fuel : nat.
Variable codes : codes_t.
Hypothesis top_call :
  EncShannon ptable fuel 0 (tsize ptable - 1) CharMap.empty = Some codes.

Lemma top_nonempty : 1 <= tsize ptable.
Proof.
  destruct (Z.le_gt_cases 1 (tsize ptable)) as [H|H]; [exact H|].
  rewrite EncShannon_empty_range in top_call by lia. discriminate.
Qed.

Lemma top_codewords :
  (forall k, 0 <= k < tsize ptable ->
             Forall is_bit (code_of codes (ch (ptable_at ptable k)))
             /\ Z.of_nat (length (code_of codes (ch (ptable_at ptable k))))
                <= tsize ptable - 1)
  /\ Forall (eq bit0) (code_of codes (ch (ptable_at ptable 0)))
  /\ (forall c, ~ In c (map ch ptable) -> code_of codes c = []).
Proof.
  pose proof top_nonempty as Hne.
  destruct (EncShannon_suffixes ptable symbols_differ fuel 0 (tsize ptable - 1)
              CharMap.empty codes ltac:(lia) ltac:(lia) ltac:(lia) top_call)
    as [sfx [H1 [H2 [H3 H4]]]].
  split; [|split].
  - intros k Hk. rewrite H1, code_of_empty by lia. cbn [app].
    destruct (H3 k ltac:(lia)) as [Hb Hl]. split; [exact Hb | lia].
  - rewrite H1, code_of_empty by lia. exact H4.
  - intros c Hc. rewrite H2; [reflexivity|].
    intros k Hk E. apply Hc. rewrite <- E.
    apply in_map, nth_In. unfold tsize in *. lia.
Qed.

Lemma top_codeword_of_symbol c :
  In c (map ch ptable) ->
  Forall is_bit (code_of codes c)
  /\ Z.of_nat (length (code_of codes c)) <= tsize ptable - 1.
Proof.
  intros Hc. destruct (chars_index ptable c Hc) as [k [Hk <-]].
  now apply top_codewords.
Qed.

Hypothesis scans_regular : regular ptable.

Lemma top_complete :
  Forall (eq bit1) (code_of codes (ch (ptable_at ptable (tsize ptable - 1))))
  /\ forall D,
       (forall k, 0 <= k < tsize ptable ->
                  Z.of_nat (length (code_of codes (ch (ptable_at ptable k)))) <= D) ->
       kraft_scaled D (map (fun nd => code_of codes (ch nd)) ptable) = 2 ^ D.
Proof.
  pose proof top_nonempty as Hne.
  destruct (EncShannon_fills ptable symbols_differ scans_regular fuel
              0 (tsize ptable - 1) CharMap.empty codes
              ltac:(lia) ltac:(lia) ltac:(lia) top_call)
    as [sfx [H1 [H2 H3]]].
  split.
  - rewrite H1, code_of_empty by lia. exact H2.
  - intros D HD.
    rewrite (kraft_scaled_map D (fun nd => code_of codes (ch nd))
               {| ch := zero; p := F32.zero |}).
    rewrite <- (H3 D).
    + unfold iterations, tsize.
      replace (Z.to_nat (Z.of_nat (length ptable) - 1 - 0 + 1))
        with (length ptable) by lia.
      apply sum_range_ext. intros k Hk.
      fold (ptable_at ptable k). rewrite H1, code_of_empty; [reflexivity|].
      unfold tsize. lia.
    + intros k Hk. specialize (HD k ltac:(lia)).
      rewrite H1, code_of_empty in HD by lia. exact HD.
Qed.

End TopLevel.

(** A table of at most two entries has no scan. *)
Lemma small_table_regular ptable : tsize ptable <= 2 -> regular ptable.
Proof. intros H li ri Hli Hle Hri. lia. Qed.

Lemma flat_map_length_bounds {A B} (f : A -> list B) (lo hi : Z) l :
  (forall a, In a l -> lo <= Z.of_nat (length (f a)) <= hi) ->
  lo * Z.of_nat (length l) <= Z.of_nat (length (flat_map f l))
  <= hi * Z.of_nat (length l).
Proof.
  induction l as [|a l IH]; intros H; [simpl; lia|].
  cbn [flat_map length]. rewrite length_app, Nat2Z.inj_add, Nat2Z.inj_succ.
  pose proof (H a ltac:(now left)).
  pose proof (IH ltac:(intros b Hb; apply H; now right)). lia.
Qed.

Lemma flat_map_Forall {A B} (P : B -> Prop) (f : A -> list B) l :
  (forall a, In a l -> Forall P (f a)) -> Forall P (flat_map f l).
Proof.
  induction l as [|a l IH]; intros H; [constructor|].
  cbn [flat_map]. apply Forall_app. split.
  - apply H. now left.
  - apply IH. intros b Hb. apply H. now right.
Qed.

Section EncodeFacts.

Variable qsort : list pnode -> list pnode.
Hypothesis qsort_ok : qsort_contract qsort.

(** Decoding the bitstream of a table of at least two symbols. *)
Lemma decode_encoded_loop input fuel codes :
  regular (sorted_ptable qsort input) ->
  2 <= tsize (sorted_ptable qsort input) ->
  EncShannon (sorted_ptable qsort input) fuel 0
             (tsize (sorted_ptable qsort input) - 1) CharMap.empty = Some codes ->
  decode_loop
    (load_codes (map (fun nd => (ch nd, p nd, code_of codes (ch nd)))
                     (sorted_ptable qsort input)))
    (flat_map (code_of codes) input) [] = ([], input).
Proof.
  intros Hreg H2 Hc.
  pose proof (sorted_ptable_NoDup qsort qsort_ok input) as Hnd.
  destruct (loaded_table _ fuel codes Hnd Hreg H2 Hc) as [Hfind [Hok Hpf]].
  pose proof (loaded_table_no_eof _ fuel codes Hnd Hreg Hc) as Hne.
  set (table := load_codes _) in *.
  assert (Hin : forall c, In c input ->
                          CharMap.find table c = Some (code_of codes c)).
  { intros c Hc'. apply Hfind. now apply (sorted_ptable_chars qsort qsort_ok). }
  rewrite (flat_map_ext_in (code_of codes) (code_of table)).
  - apply (decode_loop_complete table Hok Hpf Hne).
    intros c Hc'. rewrite (Hin c Hc'). discriminate.
  - intros c Hc'. unfold code_of at 2.
    now rewrite (CharMapFacts.get_find [] table c _ (Hin c Hc')).
Qed.

Lemma decode_encoded input fuel codes :
  regular (sorted_ptable qsort input) ->
  2 <= tsize (sorted_ptable qsort input) ->
  EncShannon (sorted_ptable qsort input) fuel 0
             (tsize (sorted_ptable qsort input) - 1) CharMap.empty = Some codes ->
  snd (decode_loop
         (load_codes (map (fun nd => (ch nd, p nd, code_of codes (ch nd)))
                          (sorted_ptable qsort input)))
         (flat_map (code_of codes) input) []) = input.
Proof.
  intros Hreg H2 Hc. now rewrite (decode_encoded_loop input fuel codes Hreg H2 Hc).
Qed.

Lemma alphabet_size_bounds input :
  0 <= alphabet_size input <= 256.
Proof.
  unfold alphabet_size, CharMap.size.
  pose proof (elements_at_most_256 (fst (count_chars input))). lia.
Qed.

Lemma row_symbols_eq input fuel art :
  Encode qsort fuel input = Some art ->
  row_symbols art = map ch (sorted_ptable qsort input).
Proof.
  intros Henc.
  destruct (Encode_inv _ _ _ _ qsort_ok Henc) as [codes [_ [_ [Hrows _]]]].
  unfold row_symbols. rewrite Hrows, map_map. reflexivity.
Qed.

Lemma sorted_ptable_entry input nd :
  Z.of_nat (length input) < 2 ^ 31 ->
  In nd (sorted_ptable qsort input) ->
  p nd = F32.div (F32.of_Z (Z.of_nat (count_occ ascii_dec input (ch nd))))
                 (F32.of_Z (Z.of_nat (length input))).
Proof.
  intros Hlen Hin.
  apply (Permutation_in _ (Permutation_sym (sorted_ptable_perm qsort qsort_ok input)))
    in Hin.
  apply build_ptable_entry in Hin. destruct Hin as [n [Hn ->]].
  rewrite <- (count_chars_occ input (ch nd) Hlen).
  rewrite (CharMapFacts.get_find 0 _ _ _ Hn).
  now rewrite (proj1 (count_chars_values input Hlen)).
Qed.

End EncodeFacts.

(** ** The decoding loops *)

Lemma match_loop_symbols entries :
  forall accum c,
    In c (snd (match_loop entries accum)) -> In c (map fst entries).
Proof.
  induction entries as [|[s w] entries IH]; intros accum c; cbn [match_loop].
  - intros [].
  - destruct (strcmp_eq w accum).
    + destruct (match_loop entries []) as [a o] eqn:E. cbn [snd map fst].
      intros [->|H]; [now left|]. right. apply (IH [] c). now rewrite E.
    + intros H. right. exact (IH accum c H).
Qed.

Lemma decode_loop_symbols codes bits :
  forall accum c,
    In c (snd (decode_loop codes bits accum)) -> CharMap.find codes c <> None.
Proof.
  induction bits as [|b bits IH]; intros accum c; cbn [decode_loop].
  - intros [].
  - destruct (Ascii.eqb b eof_char); [intros []|].
    destruct (decode_step codes accum b) as [a1 o1] eqn:E1.
    destruct (decode_loop codes bits a1) as [a2 o2] eqn:E2. cbn [snd].
    intros H. apply in_app_or in H. destruct H as [H|H].
    + assert (Hm : In c (map fst (CharMap.elements codes))).
      { apply (match_loop_symbols _ (accum ++ [b])).
        unfold decode_step in E1. now rewrite E1. }
      apply in_map_iff in Hm. destruct Hm as [[c' w] [<- Hin]].
      apply CharMapFacts.in_elements in Hin. cbn [fst]. congruence.
    + apply (IH a1 c). now rewrite E2.
Qed.

(** ** Scans that begin with two equal probabilities *)

(** A normal float added to itself: at least its double. *)
Lemma add_self_rank m e :
  normal m -> -56 <= e <= 100 ->
  exists m3 e3,
    F32.add (S754_finite false m e) (S754_finite false m e)
    = S754_finite false m3 e3
    /\ normal m3
    /\ (e + 1 < e3 \/ (e3 = e + 1 /\ Zpos m <= Zpos m3)).
Proof.
  intros Nm He. unfold F32.add, SFadd. cbn [cond_Zopp].
  rewrite Z.min_id.
  assert (Hal0 : shl_align m e e = (m, e))
    by (unfold shl_align; now rewrite Z.sub_diag).
  rewrite Hal0. cbn [fst].
  change (Zpos m + Zpos m) with (Zpos (m + m)).
  unfold binary_normalize, binary_round.
  pose proof (F32Normal.normal_bounds m Nm) as Bm.
  assert (Dm : Zpos (digits2_pos (m + m)) = 25).
  { apply F32Normal.digits_unique. rewrite Pos2Z.inj_add.
    change (2 ^ (25 - 1)) with (2 * 2 ^ 23). change (2 ^ 25) with (2 * 2 ^ 24).
    lia. }
  cbn [Zdigits2]. rewrite Dm.
  assert (Hf : fexp F32.prec F32.emax (25 + e) = e + 1)
    by (unfold fexp, emin, F32.prec, F32.emax; lia).
  rewrite Hf.
  assert (Hal : shl_align (m + m) e (e + 1) = ((m + m)%positive, e)).
  { unfold shl_align. destruct (e + 1 - e) eqn:Ek; try reflexivity. lia. }
  rewrite Hal.
  destruct (F32Normal.round_normal false (m + m) e loc_Exact
              ltac:(rewrite Dm; lia) ltac:(lia))
    as (m3 & e3 & N3 & He3 & Hlow & _ & ->).
  rewrite Dm in He3, Hlow.
  destruct (Z.leb_spec e3 104) as [_|C]; [|lia].
  exists m3, e3. split; [reflexivity|]. split; [exact N3|].
  destruct (Z.eq_dec e3 (e + 1)) as [E|E]; [|left; lia].
  right. split; [exact E|].
  assert (H : Zpos (m + m) / 2 ^ (25 - 24) <= Zpos m3) by (apply Hlow; lia).
  rewrite Pos2Z.inj_add in H. change (2 ^ (25 - 24)) with 2 in H.
  replace (Zpos m + Zpos m) with (Zpos m * 2) in H by lia.
  now rewrite Z.div_mul in H by lia.
Qed.

Lemma add_zero_finite m e :
  F32.add F32.zero (S754_finite false m e) = S754_finite false m e.
Proof. reflexivity. Qed.

Section TiedScan.

Variable ptable : list pnode.
Hypothesis entries_good :
  forall k, 0 <= k < tsize ptable -> good_prob (p (ptable_at ptable k)).
Hypothesis at_most_256 : tsize ptable <= 256.

(** The rank of a running sum never goes down along the scan. *)
Lemma running_rank_mono li :
  0 <= li ->
  forall n : nat,
    li + 1 + Z.of_nat n < tsize ptable ->
    ~ rank_lt (float_rank (running ptable li (li + 1 + Z.of_nat n)))
              (float_rank (running ptable li (li + 1))).
Proof.
  intros Hli. induction n as [|n IH]; intros Hn.
  - rewrite Z.add_0_r.
    destruct (float_rank (running ptable li (li + 1))) as [[a b] c].
    simpl. lia.
  - replace (li + 1 + Z.of_nat (S n)) with (li + 1 + Z.of_nat n + 1) by lia.
    pose proof (F32Normal.running_mono ptable entries_good at_most_256
                  li (li + 1 + Z.of_nat n) Hli ltac:(lia) ltac:(lia)) as Hstep.
    specialize (IH ltac:(lia)).
    destruct (float_rank (running ptable li (li + 1))) as [[a b] c].
    destruct (float_rank (running ptable li (li + 1 + Z.of_nat n))) as [[a1 b1] c1].
    destruct (float_rank (running ptable li (li + 1 + Z.of_nat n + 1)))
      as [[a2 b2] c2].
    simpl in *. lia.
Qed.

(** When the first two probabilities of a range are equal, the first
    element alone is not above half of the total. *)
Lemma tied_first_not_above_half li ri :
  0 <= li -> li + 2 <= ri -> ri < tsize ptable ->
  p (ptable_at ptable li) = p (ptable_at ptable (li + 1)) ->
  scan_bit ptable li ri li = false.
Proof.
  intros Hli Hle Hri Htie.
  destruct (entries_good li ltac:(lia)) as (m & e & Eq & Nm & He).
  destruct (add_self_rank m e Nm ltac:(lia)) as (m3 & e3 & E3 & N3 & H3).
  assert (R0 : running ptable li li = S754_finite false m e).
  { rewrite F32Normal.running_first, Eq. apply add_zero_finite. }
  assert (R1 : running ptable li (li + 1) = S754_finite false m3 e3).
  { rewrite F32Normal.running_next by lia. now rewrite R0, <- Htie, Eq. }
  destruct (F32Normal.running_good_at ptable entries_good at_most_256
              li ri Hli ltac:(lia) Hri) as (mr & er & Er & Nr & Her & Vr).
  assert (Her' : er <= 104).
  { pose proof (F32Normal.normal_bounds mr Nr) as Br.
    assert (Hlt : 2 ^ (23 + (er + 56)) < 2 ^ (24 + 100)).
    { rewrite !F32Normal.pow2_add by lia.
      pose proof (F32Normal.pow2_pos (er + 56) ltac:(lia)).
      assert (2 ^ 23 * 2 ^ (er + 56) <= Zpos mr * 2 ^ (er + 56))
        by (apply Z.mul_le_mono_nonneg_r; lia).
      assert (2 * (ri - li + 1) * 2 ^ 90 <= 512 * 2 ^ 90).
      { apply Z.mul_le_mono_nonneg_r; [apply Z.pow_nonneg; lia | lia]. }
      assert (512 * 2 ^ 90 < 2 ^ 24 * 2 ^ 100) by reflexivity.
      lia. }
    apply F32Normal.pow2_lt_inv in Hlt; lia. }
  pose proof (running_rank_mono li Hli (Z.to_nat (ri - li - 1)) ltac:(lia)) as Hm.
  replace (li + 1 + Z.of_nat (Z.to_nat (ri - li - 1))) with ri in Hm by lia.
  rewrite Er, R1 in Hm. cbn [float_rank rank_lt] in Hm.
  unfold scan_bit. rewrite R0, Er.
  rewrite F32Normal.mul_half_normal by (try exact Nr; lia).
  apply negb_false_iff.
  apply (F32Normal.leb_rank (S754_finite false m e)
           (S754_finite false mr (er - 1)) eq_refl eq_refl).
  cbn [float_rank rank_lt]. lia.
Qed.

End TiedScan.

Lemma sorted_ptable_good qsort input :
  qsort_contract qsort ->
  Z.of_nat (length input) < 2 ^ 31 ->
  (forall k, 0 <= k < tsize (sorted_ptable qsort input) ->
             good_prob (p (ptable_at (sorted_ptable qsort input) k)))
  /\ tsize (sorted_ptable qsort input) <= 256.
Proof.
  intros Hq Hlen. split.
  - intros k Hk. apply (build_ptable_good input); [exact Hlen|].
    eapply Permutation_in;
      [apply Permutation_sym, (sorted_ptable_perm qsort Hq input)|].
    apply nth_In. unfold tsize in Hk. lia.
  - pose proof (alphabet_size_bounds input) as Hb.
    rewrite (alphabet_size_tsize qsort input Hq) in Hb. lia.
Qed.

(** ** Rows and codewords *)

Lemma row_code_encoded (g : ascii -> cstring) ptable c :
  In c (map ch ptable) ->
  row_code (map (fun nd => (ch nd, p nd, g (ch nd))) ptable) c = g c.
Proof.
  unfold row_code. induction ptable as [|nd ptable IH]; intros Hin; [destruct Hin|].
  cbn [map find fst snd].
  destruct (Ascii.eqb_spec (ch nd) c) as [->|Hne]; [reflexivity|].
  apply IH. destruct Hin as [E|Hin]; [contradiction | exact Hin].
Qed.

Lemma app_eq_prefix (a b r1 r2 : list ascii) :
  a ++ r1 = b ++ r2 -> prefix a b \/ prefix b a.
Proof.
  revert b. induction a as [|x a IH]; intros b E.
  - left. apply prefix_nil.
  - destruct b as [|y b]; [right; apply prefix_nil|].
    cbn [app] in E. inversion E as [[Exy E']]. subst y.
    destruct (IH b E') as [[t ->]|[t ->]].
    + left. now exists t.
    + right. now exists t.
Qed.

(** * The further properties *)

(** ** [pnode_compare] *)

(** X1. Swapping the two arguments of [pnode_compare] negates the result,
    for all floats, NaN included. *)
Theorem pnode_compare_antisym :
  forall a b, pnode_compare b a = - pnode_compare a b.
Proof.
  intros a b. unfold pnode_compare. rewrite !gtb_ltb.
  destruct (F32.ltb (p a) (p b)) eqn:Eab, (F32.ltb (p b) (p a)) eqn:Eba;
    try reflexivity.
  apply F32Facts.ltb_asym in Eab. congruence.
Qed.

(** X2. On entries whose probabilities are not NaN, "not smaller than" as
    [pnode_compare] reports it is transitive: the comparison is
    consistent, as [qsort] requires. *)
Theorem pnode_compare_trans a b c :
  F32.is_nan (p a) = false -> F32.is_nan (p b) = false ->
  F32.is_nan (p c) = false ->
  pnode_compare a b <= 0 -> pnode_compare b c <= 0 -> pnode_compare a c <= 0.
Proof.
  intros Ha Hb Hc. rewrite !pnode_compare_le.
  now apply F32Facts.not_ltb_trans.
Qed.

Lemma pnode_compare_trans_witness :
  pnode_compare (ptable_at example_table 0) (ptable_at example_table 2) <= 0.
Proof.
  apply (pnode_compare_trans (ptable_at example_table 0)
           (ptable_at example_table 1) (ptable_at example_table 2));
    try reflexivity; vm_compute; discriminate.
Defined.

(** X3. An entry whose probability is NaN compares equal to every entry,
    on either side. *)
Theorem pnode_compare_nan a b :
  F32.is_nan (p a) = true ->
  pnode_compare a b = 0 /\ pnode_compare b a = 0.
Proof.
  intros Ha. unfold pnode_compare. rewrite !gtb_ltb.
  now rewrite (ltb_nan_l _ _ Ha), (ltb_nan_r _ _ Ha).
Qed.

Lemma pnode_compare_nan_witness :
  pnode_compare {| ch := "a"%char; p := S754_nan |} (ptable_at example_table 0) = 0
  /\ pnode_compare (ptable_at example_table 0) {| ch := "a"%char; p := S754_nan |} = 0.
Proof.
  apply (pnode_compare_nan {| ch := "a"%char; p := S754_nan |}
           (ptable_at example_table 0)).
  reflexivity.
Defined.

(** ** [EncShannon] *)

(** X4. A call on an empty range ([ri < li]) does not return, whatever
    the depth allowed to the recursion. *)
Theorem EncShannon_empty_range_diverges ptable li ri :
  ri < li ->
  forall fuel codes, EncShannon ptable fuel li ri codes = None.
Proof. intros H fuel codes. now apply EncShannon_empty_range. Qed.

Lemma EncShannon_empty_range_diverges_witness :
  EncShannon example_table 50 3 2 CharMap.empty = None.
Proof.
  apply (EncShannon_empty_range_diverges example_table 3 2). lia.
Defined.

(** X5. A call on a range of three elements or more whose first element
    alone is above half of the range's total does not return: the split
    is the first index and the first recursive call is on an empty range. *)
Theorem EncShannon_dominant_first_diverges ptable li ri :
  0 <= li -> li + 2 <= ri ->
  scan_bit ptable li ri li = true ->
  forall fuel codes, EncShannon ptable fuel li ri codes = None.
Proof. intros. now apply EncShannon_first_above_half. Qed.

Lemma EncShannon_dominant_first_diverges_witness :
  EncShannon (sorted_ptable insertion_sort (chars "aaaaabc")) 50 0 2
             CharMap.empty = None.
Proof.
  apply (EncShannon_dominant_first_diverges
           (sorted_ptable insertion_sort (chars "aaaaabc")) 0 2);
    [lia | lia | vm_compute; reflexivity].
Defined.

(** X6. A call on a non-empty range returns, at recursion depth at most
    the number of elements of the range, when in every range of three
    elements or more the first element alone is not above half of the
    range's total. *)
Theorem EncShannon_returns ptable li ri codes :
  (forall li' ri', 0 <= li' -> li' + 2 <= ri' -> ri' < tsize ptable ->
                   scan_bit ptable li' ri' li' = false) ->
  0 <= li -> li <= ri -> ri < tsize ptable ->
  exists codes',
    EncShannon ptable (S (Z.to_nat (ri - li))) li ri codes = Some codes'.
Proof.
  intros Hfirst Hli Hle Hri.
  apply EncShannon_returns_within; auto.
Qed.

Lemma EncShannon_returns_witness :
  exists codes',
    EncShannon example_table (S (Z.to_nat (2 - 0))) 0 2 CharMap.empty
    = Some codes'.
Proof.
  apply (EncShannon_returns example_table 0 2 CharMap.empty); try lia.
  - intros li' ri' H1 H2 H3. change (tsize example_table) with 3 in H3.
    assert (li' = 0) by lia. assert (ri' = 2) by lia. subst.
    vm_compute. reflexivity.
  - reflexivity.
Defined.

(** X7. A returning call has appended to the codeword of each element of
    its range a suffix of '0' and '1' characters, of at most [ri - li]
    characters; the suffix of the first element is made of '0' only. *)
Theorem EncShannon_appends_bits ptable fuel li ri codes codes' :
  NoDup (map ch ptable) ->
  0 <= li -> li <= ri -> ri < tsize ptable ->
  EncShannon ptable fuel li ri codes = Some codes' ->
  (forall k, li <= k <= ri ->
     exists sfx,
       code_of codes' (ch (ptable_at ptable k))
       = code_of codes (ch (ptable_at ptable k)) ++ sfx
       /\ Forall is_bit sfx
       /\ Z.of_nat (length sfx) <= ri - li)
  /\ exists zeros,
       code_of codes' (ch (ptable_at ptable li))
       = code_of codes (ch (ptable_at ptable li)) ++ zeros
       /\ Forall (eq bit0) zeros.
Proof.
  intros Hnd Hli Hle Hri Henc.
  destruct (EncShannon_suffixes ptable Hnd fuel li ri codes codes'
              Hli Hle Hri Henc) as [sfx [H1 [_ [H3 H4]]]].
  split.
  - intros k Hk. exists (sfx k). destruct (H3 k Hk) as [Hb Hl].
    split; [now apply H1 | split; assumption].
  - exists (sfx li). split; [apply H1; lia | exact H4].
Qed.

Lemma EncShannon_appends_bits_witness :
  exists codes',
    EncShannon example_table 3 0 2 CharMap.empty = Some codes'
    /\ (forall k, 0 <= k <= 2 ->
          exists sfx,
            code_of codes' (ch (ptable_at example_table k))
            = code_of CharMap.empty (ch (ptable_at example_table k)) ++ sfx
            /\ Forall is_bit sfx
            /\ Z.of_nat (length sfx) <= 2 - 0)
    /\ exists zeros,
         code_of codes' (ch (ptable_at example_table 0))
         = code_of CharMap.empty (ch (ptable_at example_table 0)) ++ zeros
         /\ Forall (eq bit0) zeros.
Proof.
  eexists. split; [reflexivity|].
  apply (EncShannon_appends_bits example_table 3 0 2 CharMap.empty _
           example_table_NoDup); [lia | lia | reflexivity | reflexivity].
Defined.

(** X8. A returning call on a non-empty range leaves the codeword of
    every symbol outside the range as it was. *)
Theorem EncShannon_frame ptable fuel li ri codes codes' c :
  0 <= li -> li <= ri ->
  EncShannon ptable fuel li ri codes = Some codes' ->
  (forall k, li <= k <= ri -> ch (ptable_at ptable k) <> c) ->
  code_of codes' c = code_of codes c.
Proof.
  revert li ri codes codes'.
  induction fuel as [|fuel IH]; intros li ri codes codes' Hli Hle Henc Hc;
    [discriminate|].
  destruct (Z.eq_dec li ri) as [->|Hne].
  - rewrite EncShannon_single in Henc. now inversion Henc.
  - destruct (Z.eq_dec (ri - li) 1) as [Hp|Hnp].
    + rewrite EncShannon_pair in Henc by exact Hp. inversion Henc.
      rewrite !code_of_append_other; auto.
      * intros E. apply (Hc li); [lia | auto].
      * intros E. apply (Hc ri); [lia | auto].
    + rewrite EncShannon_general in Henc by auto.
      destruct (EncShannon ptable fuel li _ _) as [codes2|] eqn:EL;
        [|discriminate].
      destruct (split_inside ptable fuel li ri codes codes2 Hli ltac:(lia) EL)
        as [Hisp _].
      set (isp := snd (split_range ptable li ri codes)) in *.
      rewrite (IH isp ri codes2 codes' ltac:(lia) ltac:(lia) Henc)
        by (intros k Hk; apply Hc; lia).
      rewrite (IH li (isp - 1) _ codes2 Hli ltac:(lia) EL)
        by (intros k Hk; apply Hc; lia).
      unfold split_range.
      destruct (scan_loop ptable _ (iterations li ri) li F32.zero (-1) codes)
        as [codes1 isp0] eqn:E.
      cbn [fst].
      replace codes1 with (fst (scan_loop ptable
        (F32.mul (sum_loop ptable (iterations li ri) li F32.zero) F32.half)
        (iterations li ri) li F32.zero (-1) codes)) by now rewrite E.
      apply scan_loop_other. intros k Hk. apply Hc. unfold iterations in Hk. lia.
Qed.

Lemma EncShannon_frame_witness :
  exists codes',
    EncShannon example_table 2 1 2 CharMap.empty = Some codes'
    /\ code_of codes' "a"%char = code_of CharMap.empty "a"%char.
Proof.
  eexists. split; [reflexivity|].
  apply (EncShannon_frame example_table 2 1 2 CharMap.empty _ "a"%char);
    [lia | lia | reflexivity |].
  intros k Hk. assert (H : k = 1 \/ k = 2) by lia.
  destruct H as [->| ->]; discriminate.
Defined.

(** ** [Encode]: the counting loop and the table *)

(** X9. For an input of fewer than 2^31 characters the counting loop
    leaves in [total] the length of the input, and in [freqs] exactly the
    characters of the input, each with its number of occurrences. *)
Theorem count_chars_counts input :
  Z.of_nat (length input) < 2 ^ 31 ->
  snd (count_chars input) = Z.of_nat (length input)
  /\ (forall c, CharMap.find (fst (count_chars input)) c <> None <-> In c input)
  /\ (forall c, CharMap.get 0 (fst (count_chars input)) c
                = Z.of_nat (count_occ ascii_dec input c)).
Proof.
  intros Hlen. split; [|split].
  - apply (count_chars_values input Hlen).
  - intros c. apply count_chars_keys.
  - intros c. now apply count_chars_occ.
Qed.

Lemma count_chars_counts_witness :
  snd (count_chars (chars "aaaabbbc")) = Z.of_nat (length (chars "aaaabbbc"))
  /\ (forall c, CharMap.find (fst (count_chars (chars "aaaabbbc"))) c <> None
                <-> In c (chars "aaaabbbc"))
  /\ (forall c, CharMap.get 0 (fst (count_chars (chars "aaaabbbc"))) c
                = Z.of_nat (count_occ ascii_dec (chars "aaaabbbc") c)).
Proof. apply (count_chars_counts (chars "aaaabbbc")). reflexivity. Defined.

(** X10. The [unsigned] counter [total] wraps: after any input it holds
    the length of the input modulo 2^32. *)
Theorem count_chars_total_wraps :
  forall input,
    snd (count_chars input) = Z.of_nat (length input) mod 2 ^ 32.
Proof.
  intros input. change (snd (count_chars input) = uint_wrap (Z.of_nat (length input))).
  induction input as [|a input IH] using rev_ind; [reflexivity|].
  rewrite count_chars_snoc. cbn [snd]. rewrite IH, length_app. cbn [length].
  unfold uint_wrap. rewrite Nat2Z.inj_add. change (Z.of_nat 1) with 1.
  now rewrite Zplus_mod_idemp_l.
Qed.

(** X11. When [Encode] returns, the table has one row for each distinct
    character of the input and no other row: [tsize] is the number of
    rows and of distinct characters, between 1 and 256, no symbol has two
    rows, and the symbols of the rows are the characters of the input. *)
Theorem Encode_table_rows qsort input fuel art :
  qsort_contract qsort ->
  Encode qsort fuel input = Some art ->
  a_tsize art = Z.of_nat (length (a_rows art))
  /\ a_tsize art = alphabet_size input
  /\ 1 <= a_tsize art <= 256
  /\ NoDup (row_symbols art)
  /\ (forall c, In c (row_symbols art) <-> In c input).
Proof.
  intros Hq Henc.
  pose proof (row_symbols_eq qsort Hq input fuel art Henc) as Hsym.
  destruct (Encode_inv _ _ _ _ Hq Henc) as [codes [Hc [Hts [Hrows _]]]].
  pose proof (top_nonempty _ _ _ Hc) as Hne.
  pose proof (alphabet_size_bounds input) as Hb.
  rewrite (alphabet_size_tsize qsort input Hq) in Hb.
  split; [|split; [|split; [|split]]].
  - rewrite Hts, Hrows, length_map. reflexivity.
  - now rewrite Hts, (alphabet_size_tsize qsort input Hq).
  - lia.
  - rewrite Hsym. apply (sorted_ptable_NoDup qsort Hq).
  - intros c. rewrite Hsym. apply (sorted_ptable_chars qsort Hq).
Qed.

Lemma Encode_table_rows_witness :
  Encode insertion_sort 3 (chars "aaaabbbc") = Some example_artifact
  /\ a_tsize example_artifact = Z.of_nat (length (a_rows example_artifact))
  /\ a_tsize example_artifact = alphabet_size (chars "aaaabbbc")
  /\ 1 <= a_tsize example_artifact <= 256
  /\ NoDup (row_symbols example_artifact)
  /\ (forall c, In c (row_symbols example_artifact) <-> In c (chars "aaaabbbc")).
Proof.
  split; [vm_compute; reflexivity|].
  apply (Encode_table_rows insertion_sort (chars "aaaabbbc") 3 example_artifact
           insertion_sort_contract).
  vm_compute. reflexivity.
Defined.

(** X12. For an input of fewer than 2^31 characters, the probability in
    the row of a symbol is the float quotient of its number of
    occurrences by the length of the input, [float(count) / float(total)],
    and it is a positive finite float. *)
Theorem Encode_row_probability qsort input fuel art :
  qsort_contract qsort ->
  Z.of_nat (length input) < 2 ^ 31 ->
  Encode qsort fuel input = Some art ->
  Forall (fun row =>
            snd (fst row)
            = F32.div (F32.of_Z (Z.of_nat (count_occ ascii_dec input (fst (fst row)))))
                      (F32.of_Z (Z.of_nat (length input)))
            /\ exists m e, snd (fst row) = S754_finite false m e)
         (a_rows art).
Proof.
  intros Hq Hlen Henc.
  destruct (Encode_inv _ _ _ _ Hq Henc) as [codes [_ [_ [Hrows _]]]].
  rewrite Hrows, Forall_map, Forall_forall. intros nd Hin. cbn [fst snd].
  split.
  - now apply (sorted_ptable_entry qsort Hq).
  - apply (Permutation_in _ (Permutation_sym (sorted_ptable_perm qsort Hq input)))
      in Hin.
    destruct (build_ptable_good input nd Hlen Hin) as (m & e & E & _).
    now exists m, e.
Qed.

Lemma Encode_row_probability_witness :
  Encode insertion_sort 3 (chars "aaaabbbc") = Some example_artifact
  /\ Forall (fun row =>
               snd (fst row)
               = F32.div (F32.of_Z (Z.of_nat (count_occ ascii_dec (chars "aaaabbbc")
                                                        (fst (fst row)))))
                         (F32.of_Z (Z.of_nat (length (chars "aaaabbbc"))))
               /\ exists m e, snd (fst row) = S754_finite false m e)
            (a_rows example_artifact).
Proof.
  split; [vm_compute; reflexivity|].
  apply (Encode_row_probability insertion_sort (chars "aaaabbbc") 3
           example_artifact insertion_sort_contract);
    [reflexivity | vm_compute; reflexivity].
Defined.

(** X13. When [Encode] returns, every codeword of the table is made of
    the characters '0' and '1' only and has at most [tsize - 1] of them,
    so at most 255. *)
Theorem Encode_codewords_bounded qsort input fuel art :
  qsort_contract qsort ->
  Encode qsort fuel input = Some art ->
  Forall (fun w => Forall is_bit w
                   /\ Z.of_nat (length w) <= a_tsize art - 1
                   /\ (length w <= 255)%nat)
         (row_codewords art).
Proof.
  intros Hq Henc.
  destruct (Encode_inv _ _ _ _ Hq Henc) as [codes [Hc [Hts [Hrows _]]]].
  pose proof (sorted_ptable_NoDup qsort Hq input) as Hnd.
  pose proof (alphabet_size_bounds input) as Hb.
  rewrite (alphabet_size_tsize qsort input Hq) in Hb.
  unfold row_codewords. rewrite Hrows, map_map, Forall_map, Forall_forall.
  intros nd Hin. cbn [snd]. rewrite Hts.
  destruct (top_codeword_of_symbol _ Hnd _ _ Hc (ch nd) (in_map ch _ _ Hin))
    as [Hbits Hl].
  split; [exact Hbits | split; [exact Hl | lia]].
Qed.

Lemma Encode_codewords_bounded_witness :
  Encode insertion_sort 3 (chars "aaaabbbc") = Some example_artifact
  /\ Forall (fun w => Forall is_bit w
                      /\ Z.of_nat (length w) <= a_tsize example_artifact - 1
                      /\ (length w <= 255)%nat)
            (row_codewords example_artifact).
Proof.
  split; [vm_compute; reflexivity|].
  apply (Encode_codewords_bounded insertion_sort (chars "aaaabbbc") 3
           example_artifact insertion_sort_contract).
  vm_compute. reflexivity.
Defined.

(** X14. When [Encode] returns, the bitstream it writes is the
    concatenation, in input order, of the codewords written in the rows
    of the characters of the input; it is made of '0' and '1' only. *)
Theorem Encode_bits_from_rows qsort input fuel art :
  qsort_contract qsort ->
  Encode qsort fuel input = Some art ->
  a_bits art = flat_map (row_code (a_rows art)) input
  /\ Forall is_bit (a_bits art).
Proof.
  intros Hq Henc.
  destruct (Encode_inv _ _ _ _ Hq Henc) as [codes [Hc [_ [Hrows Hbits]]]].
  pose proof (sorted_ptable_NoDup qsort Hq input) as Hnd.
  rewrite Hbits, Hrows. split.
  - apply flat_map_ext_in. intros c Hin.
    apply (sorted_ptable_chars qsort Hq) in Hin.
    symmetry. now apply row_code_encoded.
  - apply flat_map_Forall. intros c Hin.
    apply (sorted_ptable_chars qsort Hq) in Hin.
    apply (top_codeword_of_symbol _ Hnd _ _ Hc c Hin).
Qed.

Lemma Encode_bits_from_rows_witness :
  Encode insertion_sort 3 (chars "aaaabbbc") = Some example_artifact
  /\ a_bits example_artifact
     = flat_map (row_code (a_rows example_artifact)) (chars "aaaabbbc")
  /\ Forall is_bit (a_bits example_artifact).
Proof.
  split; [vm_compute; reflexivity|].
  apply (Encode_bits_from_rows insertion_sort (chars "aaaabbbc") 3
           example_artifact insertion_sort_contract).
  vm_compute. reflexivity.
Defined.

(** X15. When [Encode] returns, the bitstream has at most [tsize - 1]
    characters for each character of the input, and, when the input has
    two distinct characters or more, at least one. *)
Theorem Encode_bitstream_length qsort input fuel art :
  qsort_contract qsort ->
  Encode qsort fuel input = Some art ->
  Z.of_nat (length (a_bits art)) <= (a_tsize art - 1) * Z.of_nat (length input)
  /\ (2 <= a_tsize art ->
      Z.of_nat (length input) <= Z.of_nat (length (a_bits art))).
Proof.
  intros Hq Henc.
  destruct (Encode_inv _ _ _ _ Hq Henc) as [codes [Hc [Hts [_ Hbits]]]].
  pose proof (sorted_ptable_NoDup qsort Hq input) as Hnd.
  pose proof (top_nonempty _ _ _ Hc) as Hne.
  rewrite Hbits, Hts. split.
  - apply (flat_map_length_bounds (code_of codes) 0). intros c Hin.
    apply (sorted_ptable_chars qsort Hq) in Hin.
    destruct (top_codeword_of_symbol _ Hnd _ _ Hc c Hin) as [_ Hl]. lia.
  - intros H2.
    pose proof (flat_map_length_bounds (code_of codes) 1
                  (tsize (sorted_ptable qsort input) - 1) input) as H.
    rewrite Z.mul_1_l in H. apply H. intros c Hin.
    destruct (sorted_ptable_index qsort Hq input c Hin) as [k [Hk <-]].
    destruct (top_codewords _ Hnd _ _ Hc) as [Hall _].
    destruct (Hall k Hk) as [_ Hl]. split; [|exact Hl].
    destruct (EncShannon_grows _ fuel 0 (tsize (sorted_ptable qsort input) - 1)
                CharMap.empty codes Hnd ltac:(lia) ltac:(lia) ltac:(lia) Hc
                k ltac:(lia)) as [b [rest [_ E]]].
    rewrite E, length_app. cbn [length]. lia.
Qed.

Lemma Encode_bitstream_length_witness :
  Encode insertion_sort 3 (chars "aaaabbbc") = Some example_artifact
  /\ Z.of_nat (length (a_bits example_artifact))
     <= (a_tsize example_artifact - 1) * Z.of_nat (length (chars "aaaabbbc"))
  /\ (2 <= a_tsize example_artifact ->
      Z.of_nat (length (chars "aaaabbbc"))
      <= Z.of_nat (length (a_bits example_artifact))).
Proof.
  split; [vm_compute; reflexivity|].
  apply (Encode_bitstream_length insertion_sort (chars "aaaabbbc") 3
           example_artifact insertion_sort_contract).
  vm_compute. reflexivity.
Defined.

(** ** [Encode]: the shape of the code *)

(** X16. For an input of fewer than 2^31 characters on which [Encode]
    returns, the code of the table is complete: the Kraft sum of the
    codewords, the sum of [2 ^ (- length)], is exactly 1 (here scaled by
    [2 ^ (tsize - 1)], which no codeword's length exceeds). *)
Theorem Encode_code_complete qsort input fuel art :
  qsort_contract qsort ->
  Z.of_nat (length input) < 2 ^ 31 ->
  Encode qsort fuel input = Some art ->
  kraft_scaled (a_tsize art - 1) (row_codewords art) = 2 ^ (a_tsize art - 1).
Proof.
  intros Hq Hlen Henc.
  destruct (Encode_inv _ _ _ _ Hq Henc) as [codes [Hc [Hts [Hrows _]]]].
  pose proof (sorted_ptable_NoDup qsort Hq input) as Hnd.
  pose proof (sorted_ptable_regular qsort input Hq Hlen) as Hreg.
  unfold row_codewords. rewrite Hrows, map_map, Hts. cbn [snd].
  apply (top_complete _ Hnd _ _ Hc Hreg).
  intros k Hk. apply (top_codewords _ Hnd _ _ Hc). exact Hk.
Qed.

Lemma Encode_code_complete_witness :
  Encode insertion_sort 3 (chars "aaaabbbc") = Some example_artifact
  /\ kraft_scaled (a_tsize example_artifact - 1) (row_codewords example_artifact)
     = 2 ^ (a_tsize example_artifact - 1).
Proof.
  split; [vm_compute; reflexivity|].
  apply (Encode_code_complete insertion_sort (chars "aaaabbbc") 3
           example_artifact insertion_sort_contract);
    [reflexivity | vm_compute; reflexivity].
Defined.

(** X17. For an input of fewer than 2^31 characters on which [Encode]
    returns, the codeword of the first row (a most probable symbol) is
    made of '0' only and the codeword of the last row of '1' only. *)
Theorem Encode_first_and_last_codeword qsort input fuel art :
  qsort_contract qsort ->
  Z.of_nat (length input) < 2 ^ 31 ->
  Encode qsort fuel input = Some art ->
  Forall (eq bit0) (hd [] (row_codewords art))
  /\ Forall (eq bit1) (last (row_codewords art) []).
Proof.
  intros Hq Hlen Henc.
  destruct (Encode_inv _ _ _ _ Hq Henc) as [codes [Hc [_ [Hrows _]]]].
  pose proof (sorted_ptable_NoDup qsort Hq input) as Hnd.
  pose proof (sorted_ptable_regular qsort input Hq Hlen) as Hreg.
  pose proof (top_nonempty _ _ _ Hc) as Hne.
  destruct (top_codewords _ Hnd _ _ Hc) as [_ [Hfirst _]].
  destruct (top_complete _ Hnd _ _ Hc Hreg) as [Hlast _].
  set (pt := sorted_ptable qsort input) in *.
  set (d := {| ch := zero; p := F32.zero |}).
  unfold row_codewords. rewrite Hrows, map_map. cbn [snd].
  split.
  - unfold ptable_at in Hfirst. cbn [Z.to_nat] in Hfirst.
    destruct pt as [|x pt']; [constructor | exact Hfirst].
  - assert (E : last (map (fun nd => code_of codes (ch nd)) pt) []
                = code_of codes (ch (ptable_at pt (tsize pt - 1)))).
    { unfold ptable_at, tsize in *.
      replace (Z.to_nat (Z.of_nat (length pt) - 1)) with (length pt - 1)%nat by lia.
      destruct (exists_last (l := pt)) as [pt' [x E]].
      { intros C. rewrite C in Hne. simpl in Hne. lia. }
      rewrite E, map_app. cbn [map]. rewrite last_last, length_app.
      cbn [length]. rewrite app_nth2 by lia.
      replace (length pt' + 1 - 1 - length pt')%nat with O by lia.
      reflexivity. }
    rewrite E. exact Hlast.
Qed.

Lemma Encode_first_and_last_codeword_witness :
  Encode insertion_sort 3 (chars "aaaabbbc") = Some example_artifact
  /\ Forall (eq bit0) (hd [] (row_codewords example_artifact))
  /\ Forall (eq bit1) (last (row_codewords example_artifact) []).
Proof.
  split; [vm_compute; reflexivity|].
  apply (Encode_first_and_last_codeword insertion_sort (chars "aaaabbbc") 3
           example_artifact insertion_sort_contract);
    [reflexivity | vm_compute; reflexivity].
Defined.

(** X18. On an input with a single distinct character [Encode] returns
    at once, with one row whose codeword is empty and an empty bitstream,
    from which [Decode] writes nothing: the length of the input is lost. *)
Theorem Encode_single_symbol qsort input fuel :
  qsort_contract qsort ->
  alphabet_size input = 1 ->
  exists art,
    Encode qsort (S fuel) input = Some art
    /\ row_codewords art = [[]]
    /\ a_bits art = []
    /\ Decode art = [].
Proof.
  intros Hq H1. rewrite Encode_unfold, H1.
  change (1 - 1) with 0. rewrite EncShannon_single.
  eexists. split; [reflexivity|].
  assert (Hbits : flat_map (code_of CharMap.empty) input = []).
  { clear. induction input as [|a l IH]; [reflexivity | exact IH]. }
  rewrite (alphabet_size_tsize qsort input Hq) in H1. unfold tsize in H1.
  unfold row_codewords, Decode. cbn [a_rows a_bits]. rewrite Hbits.
  split; [|split; reflexivity].
  destruct (sorted_ptable qsort input) as [|x [|y l]]; simpl in H1; try lia.
  reflexivity.
Qed.

Lemma Encode_single_symbol_witness :
  exists art,
    Encode insertion_sort 1 (chars "zzzz") = Some art
    /\ row_codewords art = [[]]
    /\ a_bits art = []
    /\ Decode art = [].
Proof.
  apply (Encode_single_symbol insertion_sort (chars "zzzz") 0
           insertion_sort_contract).
  vm_compute. reflexivity.
Defined.

(** X19. On an input with exactly two distinct characters [Encode]
    returns at once, the codewords of the two rows are "0" and "1", and
    [Decode] gives the input back, whatever its length. *)
Theorem Encode_two_symbols qsort input fuel :
  qsort_contract qsort ->
  alphabet_size input = 2 ->
  exists art,
    Encode qsort (S fuel) input = Some art
    /\ row_codewords art = [[bit0]; [bit1]]
    /\ Decode art = input.
Proof.
  intros Hq H2.
  pose proof (sorted_ptable_NoDup qsort Hq input) as Hnd.
  pose proof (alphabet_size_tsize qsort input Hq) as Hts. rewrite H2 in Hts.
  assert (Hreg : regular (sorted_ptable qsort input))
    by (apply small_table_regular; lia).
  assert (Hc : EncShannon (sorted_ptable qsort input) (S fuel) 0
                 (tsize (sorted_ptable qsort input) - 1) CharMap.empty
               = Some (append_bit (ch (ptable_at (sorted_ptable qsort input) 1)) bit1
                         (append_bit (ch (ptable_at (sorted_ptable qsort input) 0))
                                     bit0 CharMap.empty))).
  { rewrite <- Hts. change (2 - 1) with 1. now apply EncShannon_pair. }
  pose proof (decode_encoded qsort Hq input (S fuel) _ Hreg ltac:(lia) Hc) as Hrt.
  rewrite Encode_unfold, H2. rewrite <- Hts in Hc. change (2 - 1) with 1 in *.
  rewrite Hc. eexists. split; [reflexivity|].
  unfold row_codewords, Decode. cbn [a_rows a_bits].
  unfold tsize in Hts.
  rewrite firstn_all2 by lia. split; [|exact Hrt].
  destruct (sorted_ptable qsort input) as [|x [|y [|z l]]]; simpl in Hts; try lia.
  unfold ptable_at. cbn [Z.to_nat nth map snd Pos.to_nat Pos.iter_op Nat.add].
  inversion Hnd as [|? ? Hx _]; subst.
  assert (Hxy : ch x <> ch y) by (intros E; apply Hx; left; now rewrite E).
  rewrite code_of_append_same.
  rewrite code_of_append_other by exact Hxy.
  rewrite code_of_append_same, code_of_append_other by congruence.
  reflexivity.
Qed.

Lemma Encode_two_symbols_witness :
  exists art,
    Encode insertion_sort 1 (chars "abba") = Some art
    /\ row_codewords art = [[bit0]; [bit1]]
    /\ Decode art = chars "abba".
Proof.
  apply (Encode_two_symbols insertion_sort (chars "abba") 0
           insertion_sort_contract).
  vm_compute. reflexivity.
Defined.

(** X20. For an input of fewer than 2^31 characters with two distinct
    characters or more, such that in every range of three entries or more
    of the sorted table the first entry alone is not above half of the
    range's total: [Encode] returns, at recursion depth at most [tsize],
    and [Decode] gives the input back from the artifact. *)
Theorem Encode_returns_and_roundtrip qsort input :
  qsort_contract qsort ->
  Z.of_nat (length input) < 2 ^ 31 ->
  2 <= alphabet_size input ->
  (forall li ri, 0 <= li -> li + 2 <= ri -> ri < alphabet_size input ->
                 scan_bit (sorted_ptable qsort input) li ri li = false) ->
  exists art,
    Encode qsort (Z.to_nat (alphabet_size input)) input = Some art
    /\ Decode art = input.
Proof.
  intros Hq Hlen H2 Hfirst.
  pose proof (sorted_ptable_regular qsort input Hq Hlen) as Hreg.
  pose proof (alphabet_size_tsize qsort input Hq) as Hts.
  rewrite Hts in H2, Hfirst.
  destruct (EncShannon_returns_within (sorted_ptable qsort input)
              (Z.to_nat (tsize (sorted_ptable qsort input))) Hfirst
              0 (tsize (sorted_ptable qsort input) - 1) CharMap.empty
              ltac:(lia) ltac:(lia) ltac:(lia) ltac:(lia)) as [codes Hc].
  pose proof (decode_encoded qsort Hq input _ codes Hreg H2 Hc) as Hrt.
  rewrite Encode_unfold, Hts, Hc.
  eexists. split; [reflexivity|].
  unfold Decode. cbn [a_rows a_bits].
  unfold tsize. rewrite Nat2Z.id, firstn_all. exact Hrt.
Qed.

Lemma Encode_returns_and_roundtrip_witness :
  exists art,
    Encode insertion_sort (Z.to_nat (alphabet_size (chars "aaaabbbc")))
           (chars "aaaabbbc") = Some art
    /\ Decode art = chars "aaaabbbc".
Proof.
  apply (Encode_returns_and_roundtrip insertion_sort (chars "aaaabbbc")
           insertion_sort_contract);
    [reflexivity | vm_compute; discriminate |].
  intros li ri H1 H2 H3.
  change (alphabet_size (chars "aaaabbbc")) with 3 in H3.
  assert (li = 0) by lia. assert (ri = 2) by lia. subst.
  vm_compute. reflexivity.
Defined.

(** X21. For an input of fewer than 2^31 characters in which two or more
    distinct characters occur and all of them equally often (for
    instance a text without repeated characters), [Encode] returns, at
    recursion depth at most [tsize], and [Decode] gives the input back
    from the artifact. *)
Theorem Encode_uniform_roundtrip qsort input :
  qsort_contract qsort ->
  Z.of_nat (length input) < 2 ^ 31 ->
  2 <= alphabet_size input ->
  (forall c1 c2, In c1 input -> In c2 input ->
                 count_occ ascii_dec input c1 = count_occ ascii_dec input c2) ->
  exists art,
    Encode qsort (Z.to_nat (alphabet_size input)) input = Some art
    /\ Decode art = input.
Proof.
  intros Hq Hlen H2 Hsame.
  pose proof (sorted_ptable_regular qsort input Hq Hlen) as Hreg.
  pose proof (alphabet_size_tsize qsort input Hq) as Hts.
  destruct (sorted_ptable_good qsort input Hq Hlen) as [Hgood H256].
  rewrite Hts in H2.
  set (pt := sorted_ptable qsort input) in *.
  assert (Hin : forall k, 0 <= k < tsize pt -> In (ptable_at pt k) pt).
  { intros k Hk. apply nth_In. unfold tsize in Hk. lia. }
  assert (Htie : forall j k, 0 <= j < tsize pt -> 0 <= k < tsize pt ->
                             p (ptable_at pt j) = p (ptable_at pt k)).
  { intros j k Hj Hk.
    rewrite (sorted_ptable_entry qsort Hq input _ Hlen (Hin j Hj)).
    rewrite (sorted_ptable_entry qsort Hq input _ Hlen (Hin k Hk)).
    rewrite (Hsame (ch (ptable_at pt j)) (ch (ptable_at pt k))); [reflexivity| |];
      apply (sorted_ptable_chars qsort Hq), in_map, Hin; assumption. }
  assert (Hfirst : forall li ri, 0 <= li -> li + 2 <= ri -> ri < tsize pt ->
                                 scan_bit pt li ri li = false).
  { intros li ri Hli Hle Hri.
    apply (tied_first_not_above_half pt Hgood H256 li ri Hli Hle Hri).
    apply Htie; lia. }
  destruct (EncShannon_returns_within pt (Z.to_nat (tsize pt)) Hfirst
              0 (tsize pt - 1) CharMap.empty
              ltac:(lia) ltac:(lia) ltac:(lia) ltac:(lia)) as [codes Hc].
  pose proof (decode_encoded qsort Hq input _ codes Hreg H2 Hc) as Hrt.
  rewrite Encode_unfold, Hts. fold pt. rewrite Hc.
  eexists. split; [reflexivity|].
  unfold Decode. cbn [a_rows a_bits].
  unfold tsize. rewrite Nat2Z.id, firstn_all. exact Hrt.
Qed.

Lemma Encode_uniform_roundtrip_witness :
  exists art,
    Encode insertion_sort (Z.to_nat (alphabet_size (chars "abcdeabcde")))
           (chars "abcdeabcde") = Some art
    /\ Decode art = chars "abcdeabcde".
Proof.
  apply (Encode_uniform_roundtrip insertion_sort (chars "abcdeabcde")
           insertion_sort_contract);
    [reflexivity | vm_compute; discriminate |].
  intros c1 c2 H1 H2. simpl in H1, H2.
  repeat (destruct H1 as [<-|H1]; [|]);
    try contradiction;
    repeat (destruct H2 as [<-|H2]; [reflexivity|]); contradiction.
Defined.

(** X22. Decoding an artifact that [Encode] returned for an input of
    fewer than 2^31 characters with two distinct characters or more
    ends on a codeword boundary: when the bitstream is exhausted the
    accumulator is empty and the characters written are the input. *)
Theorem Encode_artifact_fully_decoded qsort input fuel art :
  qsort_contract qsort ->
  Z.of_nat (length input) < 2 ^ 31 ->
  2 <= alphabet_size input ->
  Encode qsort fuel input = Some art ->
  decode_loop (load_codes (a_rows art)) (a_bits art) [] = ([], input).
Proof.
  intros Hq Hlen H2 Henc.
  rewrite (alphabet_size_tsize qsort input Hq) in H2.
  pose proof (sorted_ptable_regular qsort input Hq Hlen) as Hreg.
  destruct (Encode_inv _ _ _ _ Hq Henc) as [codes [Hc [_ [Hrows Hbits]]]].
  rewrite Hrows, Hbits.
  exact (decode_encoded_loop qsort Hq input fuel codes Hreg H2 Hc).
Qed.

Lemma Encode_artifact_fully_decoded_witness :
  Encode insertion_sort 3 (chars "aaaabbbc") = Some example_artifact
  /\ decode_loop (load_codes (a_rows example_artifact))
                 (a_bits example_artifact) [] = ([], chars "aaaabbbc").
Proof.
  split; [vm_compute; reflexivity|].
  apply (Encode_artifact_fully_decoded insertion_sort (chars "aaaabbbc") 3
           example_artifact insertion_sort_contract);
    [reflexivity | vm_compute; discriminate | vm_compute; reflexivity].
Defined.

(** X23. For an input of fewer than 2^31 characters, the scan of a range
    of three entries or more of the sorted table always finds an entry
    above half of the total: the split index is set by the scan, and the
    fallback [if( isp < 0 ) isp = li+1] is never taken. *)
Theorem Encode_scan_finds_split qsort input li ri codes :
  qsort_contract qsort ->
  Z.of_nat (length input) < 2 ^ 31 ->
  0 <= li -> li + 2 <= ri -> ri < alphabet_size input ->
  let ptable := sorted_ptable qsort input in
  let pfull := sum_loop ptable (iterations li ri) li F32.zero in
  let phalf := F32.mul pfull F32.half in
  li <= snd (scan_loop ptable phalf (iterations li ri) li F32.zero (-1) codes)
     <= ri.
Proof.
  intros Hq Hlen Hli Hle Hri ptable pfull phalf.
  rewrite (alphabet_size_tsize qsort input Hq) in Hri.
  destruct (sorted_ptable_regular qsort input Hq Hlen li ri Hli Hle Hri)
    as [_ Hlast].
  pose proof (scan_loop_isp ptable phalf (iterations li ri) li F32.zero (-1)
                codes Hli ltac:(lia)) as H.
  cbv zeta in H.
  assert (Hn : Z.of_nat (iterations li ri) = ri - li + 1)
    by (unfold iterations; lia).
  destruct H as [[_ H]|[H _]].
  - assert (E : F32.leb pfull phalf = true) by (apply (H ri); lia).
    change (negb (F32.leb pfull phalf) = true) in Hlast.
    rewrite E in Hlast. discriminate.
  - lia.
Qed.

Lemma Encode_scan_finds_split_witness :
  let ptable := sorted_ptable insertion_sort (chars "aaaabbbc") in
  let pfull := sum_loop ptable (iterations 0 2) 0 F32.zero in
  let phalf := F32.mul pfull F32.half in
  0 <= snd (scan_loop ptable phalf (iterations 0 2) 0 F32.zero (-1) CharMap.empty)
    <= 2.
Proof.
  apply (Encode_scan_finds_split insertion_sort (chars "aaaabbbc") 0 2
           CharMap.empty insertion_sort_contract);
    [reflexivity | lia | lia | vm_compute; reflexivity].
Defined.

(** X24. For an input of fewer than 2^31 characters, the running sum of
    a scan of the sorted table never decreases from one entry to the
    next, and it is a positive finite float. *)
Theorem Encode_running_sum_monotone qsort input li k :
  qsort_contract qsort ->
  Z.of_nat (length input) < 2 ^ 31 ->
  0 <= li -> li <= k -> k + 1 < alphabet_size input ->
  F32.ltb (running (sorted_ptable qsort input) li (k + 1))
          (running (sorted_ptable qsort input) li k) = false
  /\ exists m e,
       running (sorted_ptable qsort input) li (k + 1) = S754_finite false m e.
Proof.
  intros Hq Hlen Hli Hle Hk.
  rewrite (alphabet_size_tsize qsort input Hq) in Hk.
  pose proof (sorted_ptable_perm qsort Hq input) as Hperm.
  assert (Hgood : forall j, 0 <= j < tsize (sorted_ptable qsort input) ->
                            good_prob (p (ptable_at (sorted_ptable qsort input) j))).
  { intros j Hj. apply (build_ptable_good input); [exact Hlen|].
    eapply Permutation_in; [apply Permutation_sym, Hperm|].
    apply nth_In. unfold tsize in Hj. lia. }
  assert (H256 : tsize (sorted_ptable qsort input) <= 256).
  { pose proof (alphabet_size_bounds input) as Hb.
    rewrite (alphabet_size_tsize qsort input Hq) in Hb. lia. }
  pose proof (F32Normal.running_mono _ Hgood H256 li k Hli Hle Hk) as Hmono.
  pose proof (F32Normal.running_good_at _ Hgood H256 li k Hli Hle ltac:(lia))
    as G1.
  pose proof (F32Normal.running_good_at _ Hgood H256 li (k + 1) Hli ltac:(lia) Hk)
    as G2.
  split.
  - destruct (F32.ltb _ _) eqn:E; [|reflexivity].
    apply F32Facts.ltb_rank in E;
      [contradiction | | ]; eapply F32Normal.good_sum_not_nan; eassumption.
  - destruct G2 as (m & e & E & _). now exists m, e.
Qed.

Lemma Encode_running_sum_monotone_witness :
  F32.ltb (running (sorted_ptable insertion_sort (chars "aaaabbbc")) 0 (1 + 1))
          (running (sorted_ptable insertion_sort (chars "aaaabbbc")) 0 1) = false
  /\ exists m e,
       running (sorted_ptable insertion_sort (chars "aaaabbbc")) 0 (1 + 1)
       = S754_finite false m e.
Proof.
  apply (Encode_running_sum_monotone insertion_sort (chars "aaaabbbc") 0 1
           insertion_sort_contract);
    [reflexivity | lia | lia | vm_compute; reflexivity].
Defined.

(** ** [Decode] *)

(** X25. For every table [Decode] loads whose codewords are non-empty,
    hold no byte 0xFF (at which the read loop stops), and of which none
    is a prefix of another symbol's, and every text over the symbols of
    the table: [Decode] gives the text back from the concatenation of
    its codewords. *)
Theorem Decode_of_codewords n rows text :
  codewords_ok (load_codes rows) ->
  prefix_free (load_codes rows) ->
  (forall c w, CharMap.find (load_codes rows) c = Some w -> ~ In eof_char w) ->
  (forall c, In c text -> CharMap.find (load_codes rows) c <> None) ->
  Decode {| a_tsize := n; a_rows := rows;
            a_bits := flat_map (code_of (load_codes rows)) text |} = text.
Proof.
  intros Hok Hpf Hne Hin. unfold Decode. cbn [a_rows a_bits].
  now rewrite (decode_loop_complete (load_codes rows) Hok Hpf Hne text Hin).
Qed.

Lemma example_rows_loaded :
  codewords_ok (load_codes example_rows)
  /\ prefix_free (load_codes example_rows)
  /\ (forall c w, CharMap.find (load_codes example_rows) c = Some w ->
                  ~ In eof_char w).
Proof.
  assert (Hreg : regular example_table).
  { intros li ri H1 H2 H3. change (tsize example_table) with 3 in H3.
    assert (li = 0) by lia. assert (ri = 2) by lia. subst. split.
    - intros k Hk. assert (H : k = 0 \/ k = 1) by lia.
      destruct H as [->| ->]; vm_compute; auto.
    - vm_compute. reflexivity. }
  set (codes := append_bit "c"%char bit1
                  (append_bit "b"%char bit0
                     (append_bit "c"%char bit1
                        (append_bit "b"%char bit1
                           (append_bit "a"%char bit0 CharMap.empty))))).
  destruct (loaded_table example_table 3 codes
              example_table_NoDup Hreg ltac:(vm_compute; discriminate) eq_refl)
    as [_ [Hok Hpf]].
  pose proof (loaded_table_no_eof example_table 3 codes
                example_table_NoDup Hreg eq_refl) as Hne.
  split; [exact Hok | split; [exact Hpf | exact Hne]].
Qed.

Lemma Decode_of_codewords_witness :
  Decode {| a_tsize := 3; a_rows := example_rows;
            a_bits := flat_map (code_of (load_codes example_rows)) (chars "cab") |}
  = chars "cab".
Proof.
  apply (Decode_of_codewords 3 example_rows (chars "cab")
           (proj1 example_rows_loaded) (proj1 (proj2 example_rows_loaded))
           (proj2 (proj2 example_rows_loaded))).
  intros c [<-|[<-|[<-|[]]]]; discriminate.
Defined.

(** X26. A table [Decode] loads whose codewords are non-empty and of
    which none is a prefix of another symbol's is uniquely decodable: two
    texts over its symbols with the same concatenation of codewords are
    the same text. *)
Theorem codewords_uniquely_decodable rows text1 text2 :
  codewords_ok (load_codes rows) ->
  prefix_free (load_codes rows) ->
  (forall c, In c (text1 ++ text2) -> CharMap.find (load_codes rows) c <> None) ->
  flat_map (code_of (load_codes rows)) text1
  = flat_map (code_of (load_codes rows)) text2 ->
  text1 = text2.
Proof.
  intros Hok Hpf. revert text2.
  assert (Hcode : forall c, CharMap.find (load_codes rows) c <> None ->
                            CharMap.find (load_codes rows) c
                            = Some (code_of (load_codes rows) c)
                            /\ code_of (load_codes rows) c <> []).
  { intros c Hc. destruct (CharMap.find (load_codes rows) c) as [w|] eqn:E;
      [|contradiction].
    unfold code_of. rewrite (CharMapFacts.get_find [] _ c w E).
    split; [reflexivity | apply (Hok c w E)]. }
  induction text1 as [|c1 t1 IH]; intros [|c2 t2] Hin E.
  - reflexivity.
  - exfalso. cbn [flat_map] in E.
    destruct (Hcode c2 (Hin c2 ltac:(now left))) as [_ Hne].
    destruct (code_of (load_codes rows) c2); [contradiction | discriminate].
  - exfalso. cbn [flat_map] in E.
    destruct (Hcode c1 (Hin c1 ltac:(now left))) as [_ Hne].
    destruct (code_of (load_codes rows) c1); [contradiction | discriminate].
  - cbn [flat_map] in E.
    destruct (Hcode c1 (Hin c1 ltac:(now left))) as [F1 _].
    destruct (Hcode c2 (Hin c2 ltac:(apply in_or_app; right; now left)))
      as [F2 _].
    assert (c1 = c2).
    { destruct (ascii_dec c1 c2) as [|Hne]; [assumption|]. exfalso.
      destruct (app_eq_prefix _ _ _ _ E) as [P|P].
      - exact (Hpf c1 c2 _ _ F1 F2 Hne P).
      - exact (Hpf c2 c1 _ _ F2 F1 (not_eq_sym Hne) P). }
    subst c2. apply app_inv_head in E. f_equal. apply IH; [|exact E].
    intros c Hc. apply Hin. cbn [app].
    apply in_app_or in Hc. destruct Hc as [Hc|Hc].
    + right. apply in_or_app. now left.
    + right. apply in_or_app. right. now right.
Qed.

Lemma codewords_uniquely_decodable_witness :
  flat_map (code_of (load_codes example_rows)) (chars "cab")
  = flat_map (code_of (load_codes example_rows)) (chars "cab")
  /\ chars "cab" = chars "cab".
Proof.
  split; [reflexivity|].
  apply (codewords_uniquely_decodable example_rows (chars "cab") (chars "cab")
           (proj1 example_rows_loaded) (proj1 (proj2 example_rows_loaded)));
    [|reflexivity].
  intros c Hc. simpl in Hc.
  repeat (destruct Hc as [<-|Hc]; [discriminate|]). destruct Hc.
Defined.

(** X27. When a first bitstream holds no byte 0xFF (at which the read
    loop stops) and leaves the decoder's accumulator empty, decoding it
    followed by a second bitstream writes the output of the first
    followed by the output of the second. *)
Theorem Decode_concat n rows bits1 bits2 :
  ~ In eof_char bits1 ->
  fst (decode_loop (load_codes rows) bits1 []) = [] ->
  Decode {| a_tsize := n; a_rows := rows; a_bits := bits1 ++ bits2 |}
  = Decode {| a_tsize := n; a_rows := rows; a_bits := bits1 |}
    ++ Decode {| a_tsize := n; a_rows := rows; a_bits := bits2 |}.
Proof.
  intros Hno H. unfold Decode. cbn [a_rows a_bits].
  rewrite (decode_loop_app _ bits1 bits2 [] Hno), H. reflexivity.
Qed.

Lemma Decode_concat_witness :
  Decode {| a_tsize := 3; a_rows := example_rows;
            a_bits := chars "010" ++ chars "110" |}
  = Decode {| a_tsize := 3; a_rows := example_rows; a_bits := chars "010" |}
    ++ Decode {| a_tsize := 3; a_rows := example_rows; a_bits := chars "110" |}.
Proof.
  apply (Decode_concat 3 example_rows (chars "010") (chars "110")).
  - apply no_char_check. vm_compute. reflexivity.
  - vm_compute. reflexivity.
Defined.

(** X28. [Decode] writes only symbols of the table it loaded, whatever
    the table and the bitstream. *)
Theorem Decode_writes_table_symbols art c :
  In c (Decode art) -> codeword art c <> None.
Proof. unfold Decode, codeword. apply decode_loop_symbols. Qed.

Lemma Decode_writes_table_symbols_witness :
  codeword example_artifact "b"%char <> None.
Proof.
  apply (Decode_writes_table_symbols example_artifact "b"%char).
  vm_compute. tauto.
Defined.

(** ** [main] *)

Example main_encode_two_names :
  main [chars "shannon"; chars "input.txt"; chars "out.txt"]
  = Some (RunEncode (chars "input.txt") (chars "out.txt")).
Proof. vm_compute. reflexivity. Qed.

Example main_decode_default :
  main [chars "shannon"; chars "-d"; chars "encoded.txt"]
  = Some (RunDecode (chars "encoded.txt") (chars "decoded.txt")).
Proof. vm_compute. reflexivity. Qed.

Example main_long_name :
  main [chars "shannon"; repeat "x"%char 128] = None.
Proof. vm_compute. reflexivity. Qed.

Lemma main_args prog args :
  main (prog :: args) =
  match args with
  | [] => Some ShowUsage
  | a :: rest =>
      if strcmp_eq a (chars "-d") then
        match rest with
        | [] => Some ShowUsage
        | name :: rest' =>
            match strcpy128 name with
            | None => None
            | Some inputFilename =>
                match strcpy128 (hd (chars "decoded.txt") rest') with
                | None => None
                | Some outputFilename =>
                    Some (RunDecode inputFilename outputFilename)
                end
            end
        end
      else
        match strcpy128 a with
        | None => None
        | Some inputFilename =>
            match strcpy128 (hd (chars "encoded.txt") rest) with
            | None => None
            | Some outputFilename => Some (RunEncode inputFilename outputFilename)
            end
        end
  end.
Proof.
  unfold main. cbv zeta. cbn [length].
  destruct (Z.ltb_spec (Z.of_nat (S (length args))) 1) as [H|_]; [lia|].
  destruct args as [|a rest]; [reflexivity|].
  cbn [length]. destruct (Z.eqb_spec 1 (Z.of_nat (S (S (length rest))))) as [H|_];
    [lia|].
  change (nth (Z.to_nat 1) (prog :: a :: rest) []) with a.
  destruct (strcmp_eq a (chars "-d")); cbn [andb]; cbv iota.
  - change (1 + 1) with 2. change (2 + 1) with 3.
    destruct rest as [|name rest']; [reflexivity|].
    cbn [length].
    destruct (Z.eqb_spec 2 (Z.of_nat (S (S (S (length rest')))))) as [H|_]; [lia|].
    change (nth (Z.to_nat 2) (prog :: a :: name :: rest') []) with name.
    destruct (strcpy128 name); [|reflexivity].
    destruct rest' as [|o rest'']; [reflexivity|].
    cbn [length hd].
    destruct (Z.ltb_spec 3 (Z.of_nat (S (S (S (S (length rest''))))))) as [_|H];
      [reflexivity | lia].
  - change (nth (Z.to_nat 1) (prog :: a :: rest) []) with a.
    destruct (strcpy128 a); [|reflexivity].
    change (1 + 1) with 2.
    destruct rest as [|o rest']; [reflexivity|].
    cbn [length hd].
    destruct (Z.ltb_spec 2 (Z.of_nat (S (S (S (length rest')))))) as [_|H];
      [reflexivity | lia].
Qed.

(** X29. [main] shows the usage text and exits exactly when no argument
    is given, or when the only argument is "-d". *)
Theorem main_usage_iff :
  forall prog args,
    main (prog :: args) = Some ShowUsage
    <-> (args = []
         \/ exists a, args = [a] /\ strcmp_eq a (chars "-d") = true).
Proof.
  intros prog args. rewrite main_args. split.
  - destruct args as [|a rest]; [now left|].
    destruct (strcmp_eq a (chars "-d")) eqn:E.
    + destruct rest as [|name rest']; [right; now exists a|].
      destruct (strcpy128 name); [|discriminate].
      destruct (strcpy128 _); discriminate.
    + destruct (strcpy128 a); [|discriminate].
      destruct (strcpy128 _); discriminate.
  - intros [->|[a [-> E]]]; [reflexivity|]. now rewrite E.
Qed.

(** X30. With file names that fit the 128-byte buffers, [main] encodes
    the file named by its first argument unless that argument is "-d",
    in which case it decodes the file named by the second; the output
    file is the next argument, or "encoded.txt" and "decoded.txt" when
    there is none; further arguments are not read. *)
Theorem main_dispatch prog name rest :
  (length (c_str name) < 128)%nat ->
  (length (c_str (hd [] rest)) < 128)%nat ->
  (strcmp_eq name (chars "-d") = false ->
   main (prog :: name :: rest)
   = Some (RunEncode (c_str name) (c_str (hd (chars "encoded.txt") rest))))
  /\ main (prog :: chars "-d" :: name :: rest)
     = Some (RunDecode (c_str name) (c_str (hd (chars "decoded.txt") rest))).
Proof.
  intros Hname Hout.
  assert (Hn : strcpy128 name = Some (c_str name)).
  { unfold strcpy128. destruct (Nat.ltb_spec (length (c_str name)) 128);
      [reflexivity | lia]. }
  assert (Ho : forall d, (length (c_str d) < 128)%nat ->
                         strcpy128 (hd d rest) = Some (c_str (hd d rest))).
  { intros d Hd. unfold strcpy128.
    destruct rest as [|o rest']; cbn [hd] in *;
      match goal with
      | |- context [(?n <? 128)%nat] => destruct (Nat.ltb_spec n 128)
      end; try reflexivity; lia. }
  split.
  - intros E. rewrite main_args, E, Hn, Ho; [reflexivity|].
    vm_compute. lia.
  - rewrite main_args.
    change (strcmp_eq (chars "-d") (chars "-d")) with true. cbn iota.
    rewrite Hn, Ho; [reflexivity|]. vm_compute. lia.
Qed.

Lemma main_dispatch_witness :
  (strcmp_eq (chars "input.txt") (chars "-d") = false ->
   main [chars "shannon"; chars "input.txt"]
   = Some (RunEncode (c_str (chars "input.txt"))
                     (c_str (hd (chars "encoded.txt") []))))
  /\ main [chars "shannon"; chars "-d"; chars "input.txt"]
     = Some (RunDecode (c_str (chars "input.txt"))
                       (c_str (hd (chars "decoded.txt") []))).
Proof.
  apply (main_dispatch (chars "shannon") (chars "input.txt") []);
    vm_compute; lia.
Defined.
